(** * Bootstrap Validator 0.11.5: a shallow embedding of the form validator

    The development follows [Validator] in the theme's script bundle
    (the function [getValue], the table [Validator.VALIDATORS] and the
    methods of [Validator.prototype]).

    Scope of the model.
    - The document is one form; its validatable content is a list of
      [<input>] elements in document order (kind text, checkbox or radio)
      and a list of [.form-group] containers.  An element is named by its
      position in the list; a jQuery collection is a list of positions.
      jQuery's getters read the first element of a collection, its setters
      write every element, and [.is] holds when some element matches.
    - JavaScript values are undefined, null, booleans, integers and strings.
      A string is the sequence of its UTF-16 code units, and the strings of
      the model are those whose code units are below 256, the characters of
      ISO 8859-1, one [ascii] for each code unit: on them [length],
      [$.trim], [toLowerCase] and the regular expressions are those of
      JavaScript.  A data-* attribute holds what jQuery's [.data] reads
      from it: true, false or null for these words, a number when the
      attribute is the numeral that prints the number, a string otherwise.
    - The conversion of a string to a number, which the comparison [<]
      makes, is a parameter ([ToNumber]).
    - The browser's constraint validation ([checkValidity], [validity],
      [validationMessage]) is part of each element's state, as the browser
      reports it; an element has all of it or none.
    - An object is the list of its own enumerable properties in the order
      in which they were created; [for ... in] and [$.each] visit first the
      properties whose key is an array index, by ascending index.
    - The selector engine applied to [data-match] targets and the
      subscriber of the cancelable [validate.bs.validator] notification are
      parameters.
    - Time is a sequence of events: user edits, DOM events, timers firing
      and HTTP responses arriving.  [.done] callbacks run synchronously, as
      in every jQuery release, and so does the [.then] callback of
      [validate], as in jQuery before 3.0.

    Other scripts of the bundle are modelled after the validator: the
    function [fileExtension], the method [toString] of [Attributes] with
    its local function [checkPlain], the methods of [Attributes] that keep
    the list of classes, [Bootstrap.normalizeObject] and the keyboard
    handler that the accessibility plugin gives the tabs.
    - The attributes of [Attributes] and the properties of a settings
      object are listed in the order of [for ... in]; an attribute is a
      string or an array of strings, and a settings object is a finite
      tree.
    - The functions of Underscore are taken as documented: [_.flatten]
      flattens to any depth, [_.filter] without a predicate keeps the truthy
      values, [_.uniq] keeps the first occurrences, and [_.without] and
      [_.indexOf] compare with [===].
    - Of the keyboard handler the model keeps the position it computes; the
      tabs themselves, their number and the focused one, are arguments. *)

From Stdlib Require Import Ascii.
From stdpp Require Import base list strings gmap pretty sorting.


(** ** JavaScript values *)

Inductive jsval :=
| JUndefined
| JNull
| JBool (b : bool)
| JNum (n : Z)
| JStr (s : string).

#[global] Instance jsval_eq_dec : EqDecision jsval.
Proof. solve_decision. Defined.

(** ToBoolean. *)
Definition truthy (v : jsval) : bool :=
  match v with
  | JUndefined | JNull => false
  | JBool b => b
  | JNum n => negb (bool_decide (n = 0%Z))
  | JStr s => negb (bool_decide (s = ""))
  end.

(** [a || b] and [a === b]. *)
Definition js_or (a b : jsval) : jsval := if truthy a then a else b.
Definition strict_eq (a b : jsval) : bool := bool_decide (a = b).

(** ToString of a value and of an array ([Array.prototype.toString] joins
    with commas and prints undefined and null as the empty string). *)
Definition js_toString (v : jsval) : string :=
  match v with
  | JUndefined => "undefined"
  | JNull => "null"
  | JBool true => "true"
  | JBool false => "false"
  | JNum n => pretty n
  | JStr s => s
  end.

Definition array_item (v : jsval) : string :=
  match v with
  | JUndefined | JNull => ""
  | _ => js_toString v
  end.

Definition array_toString (l : list jsval) : string :=
  String.concat "," (array_item <$> l).

(** What ToNumber gives for a string: NaN, an infinity, or a finite
    number, which is a fraction. *)
Inductive number :=
| NaN
| Infinity (negative : bool)
| Finite (numerator : Z) (denominator : positive).

(** [len < x] for an integer [len]; every comparison with NaN is false. *)
Definition lt_number (len : nat) (x : number) : bool :=
  match x with
  | NaN => false
  | Infinity negative => negb negative
  | Finite p q => bool_decide (Z.of_nat len * Z.pos q < p)%Z
  end.

(** [len < v] for an integer [len]: the relational comparison converts [v]
    with ToNumber: null gives 0, true 1, false 0, undefined NaN, and a
    string the number [ToNumber] gives for it.  jQuery's [.data] has turned
    an attribute that prints a number into that number; it leaves the other
    numerals, such as [05], [+5] and [1e1], as strings, and the comparison
    converts them. *)
Definition js_lt_len (ToNumber : string → number) (len : nat) (v : jsval) : bool :=
  match v with
  | JNum n => bool_decide (Z.of_nat len < n)%Z
  | JBool b => bool_decide (len < if b then 1 else 0)
  | JNull => false
  | JUndefined => false
  | JStr s => lt_number len (ToNumber s)
  end.

(** A string given by its code units. *)
Definition code_units (l : list nat) : string :=
  foldr (λ n s, String (Ascii.ascii_of_nat n) s) EmptyString l.

(** The white space [$.trim] removes: the characters that [\s] of a
    regular expression matches, among them the no-break space. *)
Definition js_space (a : Ascii.ascii) : bool :=
  let n := Ascii.nat_of_ascii a in
  bool_decide (n = 32) || (bool_decide (9 ≤ n) && bool_decide (n ≤ 13))
  || bool_decide (n = 160).

Fixpoint ltrim (s : string) : string :=
  match s with
  | EmptyString => EmptyString
  | String a s' => if js_space a then ltrim s' else s
  end.

Fixpoint rtrim (s : string) : string :=
  match s with
  | EmptyString => EmptyString
  | String a s' =>
      match rtrim s' with
      | EmptyString => if js_space a then EmptyString else String a EmptyString
      | t => String a t
      end
  end.

Definition trim (s : string) : string := rtrim (ltrim s).

(** ** The document *)

Inductive input_type := TText | TCheckbox | TRadio.

#[global] Instance input_type_eq_dec : EqDecision input_type.
Proof. solve_decision. Defined.

(** [el.validity], read by [native] and [getValidityStateError]. *)
Record ValidityState := mkValidity {
  valid : bool;
  typeMismatch : bool;
  patternMismatch : bool;
  stepMismatch : bool;
  rangeOverflow : bool;
  rangeUnderflow : bool;
  valueMissing : bool
}.

(** What the user and the browser change on an element. *)
Record Control := mkControl {
  c_value : string;                 (* .val() *)
  c_checked : bool;                 (* .prop('checked') *)
  c_checkValidity : option bool;    (* None: the element has no constraint
                                       validation, neither checkValidity
                                       nor validity *)
  c_validity : ValidityState;
  c_validationMessage : string
}.

(** The keys the plugin writes with [.data(key, value)]. *)
Record Store := mkStore {
  bs_errors : option (list jsval);  (* 'bs.validator.errors' *)
  bs_deferred : option nat;         (* 'bs.validator.deferred' *)
  bs_timeout : option nat           (* 'bs.validator.timeout' *)
}.

Record Element := mkElement {
  el_type : input_type;
  el_name : string;
  el_required : bool;               (* the [required] attribute *)
  el_data : gmap string jsval;      (* data-* attributes, as .data(key) reads them *)
  el_group : option nat;            (* closest('.form-group') *)
  el_validated : bool;              (* member of this.$inputs *)
  el_control : Control;
  el_store : Store
}.

(** The content of an error-display region: markup of the page, or the
    list that [showErrors] appends ([html] tells whether the items were
    written with [.html] or [.text]).  [.html()] followed by [.html(s)]
    restores the same content. *)
Inductive content :=
| Markup (s : string)
| ErrorList (html : bool) (errors : list jsval).

#[global] Instance content_eq_dec : EqDecision content.
Proof. solve_decision. Defined.

(** A [.help-block.with-errors] and its 'bs.validator.originalContent'. *)
Record Block := mkBlock {
  b_content : content;
  b_original : option content
}.

(** A [.form-control-feedback]: does it carry the class
    [options.feedback.error], respectively [options.feedback.success]. *)
Record Feedback := mkFeedback {
  fb_error : bool;
  fb_success : bool
}.

Record Group := mkGroup {
  has_error : bool;
  has_danger : bool;
  has_success : bool;
  has_feedback : bool;
  g_blocks : list Block;
  g_feedback : list Feedback
}.

(** ** Timers, deferreds and requests *)

(** The closures handed to [defer]: [showErrors] bound to [$el], and the
    anonymous function of [runValidators] with its captured [$el],
    [deferred] and [errors]. *)
Inductive callback :=
| ShowErrorsCb (el : list nat)
| RemoteCb (el : list nat) (deferred : nat) (errors : list jsval).

(** The [.done] callbacks: the one of [validateInput], which captures
    [$el], [deferErrors] and [prevErrors], and the one of [onInput]. *)
Inductive continuation :=
| Validated (el : list nat) (deferErrors : bool) (prevErrors : option (list jsval))
| ToggleSubmit.

Inductive dstate :=
| Pending
| Resolved (errors : list jsval)
| Rejected.

Record Deferred := mkDeferred {
  d_state : dstate;
  d_done : list continuation
}.

(** A [$.get] in flight with its [.fail] and [.always] closures. *)
Record Request := mkRequest {
  rq_url : jsval;
  rq_name : string;
  rq_value : jsval;
  rq_el : list nat;
  rq_deferred : nat;
  rq_errors : list jsval
}.

(** ** Exceptions *)

(** What a call gives: a value, or an exception. *)
Inductive outcome (A : Type) :=
| Return (a : A)
| Raise.
Arguments Return {A} a.
Arguments Raise {A}.

(** What the engine does that an observer sees: the events it triggers on
    the form, the validators it calls with what they give, and the inputs
    it scrolls to and focuses. *)
Inductive action :=
| Trigger (type : string) (relatedTarget : option nat) (detail : option (list jsval))
| Call (key : string) (el : list nat) (result : outcome jsval)
| Focus (inputs : list nat).

Record State := mkState {
  elements : list Element;
  groups : list Group;
  btn_disabled : bool;              (* this.$btn carries the class 'disabled' *)
  timers : gmap nat callback;       (* pending window timers *)
  next_timer : nat;
  deferreds : list Deferred;
  requests : gmap nat Request;
  next_request : nat;
  log : list action
}.

(** A validator predicate: [validator.call(this, $el)]. *)
Definition validator := list Element → list nat → outcome jsval.

Inductive result (A : Type) :=
| Done (a : A) (st : State)
| Thrown (st : State).
Arguments Done {A} a st.
Arguments Thrown {A} st.

Definition M (A : Type) := State → result A.

Definition ret {A} (a : A) : M A := λ st, Done a st.
Definition throw {A} : M A := λ st, Thrown st.
Definition bind {A B} (m : M A) (k : A → M B) : M B :=
  λ st, match m st with
        | Done a st' => k a st'
        | Thrown st' => Thrown st'
        end.
Definition get : M State := λ st, Done st st.
Definition modify (f : State → State) : M unit := λ st, Done tt (f st).

Notation "'do' x <- m ; k" := (bind m (λ x, k))
  (at level 10, x name, m at level 100, k at level 200).
Notation "'do_' m ; k" := (bind m (λ _, k))
  (at level 10, m at level 100, k at level 200).

Fixpoint forM {A} (l : list A) (f : A → M unit) : M unit :=
  match l with
  | [] => ret tt
  | a :: l' => do_ f a; forM l' f
  end.

Definition state_of {A} (r : result A) : State :=
  match r with Done _ st | Thrown st => st end.

Record Options := mkOptions {
  delay : nat;
  html : bool;
  disable : bool;
  focus : bool;
  custom : list (string * validator)  (* the properties of options.custom *)
}.

(** ** Record updates *)

Definition with_store (f : Store → Store) (e : Element) : Element :=
  mkElement (el_type e) (el_name e) (el_required e) (el_data e) (el_group e)
            (el_validated e) (el_control e) (f (el_store e)).

Definition with_control (c : Control) (e : Element) : Element :=
  mkElement (el_type e) (el_name e) (el_required e) (el_data e) (el_group e)
            (el_validated e) c (el_store e).

Definition set_errors (v : option (list jsval)) (s : Store) : Store :=
  mkStore v (bs_deferred s) (bs_timeout s).
Definition set_deferred (v : option nat) (s : Store) : Store :=
  mkStore (bs_errors s) v (bs_timeout s).
Definition set_timeout (v : option nat) (s : Store) : Store :=
  mkStore (bs_errors s) (bs_deferred s) v.

Definition with_elements (f : list Element → list Element) (st : State) : State :=
  mkState (f (elements st)) (groups st) (btn_disabled st) (timers st)
          (next_timer st) (deferreds st) (requests st) (next_request st) (log st).
Definition with_groups (f : list Group → list Group) (st : State) : State :=
  mkState (elements st) (f (groups st)) (btn_disabled st) (timers st)
          (next_timer st) (deferreds st) (requests st) (next_request st) (log st).
Definition set_btn_disabled (b : bool) (st : State) : State :=
  mkState (elements st) (groups st) b (timers st)
          (next_timer st) (deferreds st) (requests st) (next_request st) (log st).
Definition with_timers (f : gmap nat callback → gmap nat callback) (st : State) : State :=
  mkState (elements st) (groups st) (btn_disabled st) (f (timers st))
          (next_timer st) (deferreds st) (requests st) (next_request st) (log st).
Definition set_next_timer (n : nat) (st : State) : State :=
  mkState (elements st) (groups st) (btn_disabled st) (timers st)
          n (deferreds st) (requests st) (next_request st) (log st).
Definition with_deferreds (f : list Deferred → list Deferred) (st : State) : State :=
  mkState (elements st) (groups st) (btn_disabled st) (timers st)
          (next_timer st) (f (deferreds st)) (requests st) (next_request st) (log st).
Definition with_requests (f : gmap nat Request → gmap nat Request) (st : State) : State :=
  mkState (elements st) (groups st) (btn_disabled st) (timers st)
          (next_timer st) (deferreds st) (f (requests st)) (next_request st) (log st).
Definition set_next_request (n : nat) (st : State) : State :=
  mkState (elements st) (groups st) (btn_disabled st) (timers st)
          (next_timer st) (deferreds st) (requests st) n (log st).
Definition with_log (f : list action → list action) (st : State) : State :=
  mkState (elements st) (groups st) (btn_disabled st) (timers st)
          (next_timer st) (deferreds st) (requests st) (next_request st) (f (log st)).

(** ** jQuery collections *)

(** Positions of the members of [l] that satisfy [P], in document order. *)
Fixpoint indices_from {A} (P : A → bool) (n : nat) (l : list A) : list nat :=
  match l with
  | [] => []
  | a :: l' => (if P a then [n] else []) ++ indices_from P (S n) l'
  end.
Definition indices {A} (P : A → bool) (l : list A) : list nat := indices_from P 0 l.

(** [f] applied to the members of a collection. *)
Definition update {A} (el : list nat) (f : A → A) (l : list A) : list A :=
  imap (λ i a, if bool_decide (i ∈ el) then f a else a) l.

(** [$el[0]]. *)
Definition first (es : list Element) (el : list nat) : option Element :=
  match el with
  | [] => None
  | i :: _ => es !! i
  end.

(** [$el.is('[type="t"]')]. *)
Definition is_type (es : list Element) (el : list nat) (t : input_type) : bool :=
  existsb (λ i, match es !! i with
                | Some e => bool_decide (el_type e = t)
                | None => false
                end) el.

(** [$el.attr('name')] inside a selector string; undefined prints as such. *)
Definition attr_name (es : list Element) (el : list nat) : string :=
  match first es el with Some e => el_name e | None => "undefined" end.

(** [$el.attr('required')], as a truth value. *)
Definition attr_required (es : list Element) (el : list nat) : bool :=
  match first es el with Some e => el_required e | None => false end.

(** [$el.data(key)] for a data-* attribute. *)
Definition data (es : list Element) (el : list nat) (key : string) : jsval :=
  match first es el with
  | Some e => default JUndefined (el_data e !! key)
  | None => JUndefined
  end.

(** [$el.val()] and [$el.prop('checked')]. *)
Definition val (es : list Element) (el : list nat) : jsval :=
  match first es el with
  | Some e => JStr (c_value (el_control e))
  | None => JUndefined
  end.
Definition prop_checked (es : list Element) (el : list nat) : jsval :=
  match first es el with
  | Some e => JBool (c_checked (el_control e))
  | None => JUndefined
  end.

(** The pseudo-class [:checked] matches checked checkboxes and radios. *)
Definition is_checked (e : Element) : bool :=
  match el_type e with
  | TText => false
  | TCheckbox | TRadio => c_checked (el_control e)
  end.

(** [$('[name="n"]:checked')] and [this.$element.find('input[name="n"]')]. *)
Definition checked_named (es : list Element) (n : string) : list nat :=
  indices (λ e, bool_decide (el_name e = n) && is_checked e) es.
Definition inputs_named (es : list Element) (n : string) : list nat :=
  indices (λ e, bool_decide (el_name e = n)) es.

(** [this.$inputs]. *)
Definition inputs (es : list Element) : list nat := indices el_validated es.

(** [$el.data('bs.validator.errors')] and the like. *)
Definition stored {A} (f : Store → option A) (es : list Element) (el : list nat) : option A :=
  match first es el with Some e => f (el_store e) | None => None end.

(** ** getValue *)

Definition getValue (es : list Element) (el : list nat) : jsval :=
  if is_type es el TCheckbox then prop_checked es el
  else if is_type es el TRadio then
    JBool (negb (bool_decide (checked_named es (attr_name es el) = [])))
  else val es el.

(** ** The engine *)

Section Engine.

(** [this.options]. *)
Variable options : Options.
(** [$(target)] for the selector a [data-match] attribute holds. *)
Variable query : string → list nat.
(** The number a string is converted to when it is compared with [<]. *)
Variable ToNumber : string → number.
(** Does a subscriber of [validate.bs.validator] call [preventDefault],
    given the state and [relatedTarget]. *)
Variable vetoes : State → option nat → bool.
(** How deep handlers may nest before the call stack is exhausted. *)
Variable stack : nat.

(** The elements in [$(target)] for what a [data-match] attribute holds:
    a selector is looked up, and a falsy value gives the empty collection.
    Of any other value, a number or [true], jQuery makes a collection that
    holds the value itself, which is no element. *)
Definition jq (target : jsval) : list nat :=
  match target with
  | JStr s => if bool_decide (s = "") then [] else query s
  | _ => []
  end.

Definition holds_elements_only (target : jsval) : bool :=
  match target with
  | JStr _ => true
  | _ => negb (truthy target)
  end.

(** *** Validator.VALIDATORS *)

Definition native : validator := λ es el,
  match first es el with
  | None => Raise
  | Some e =>
      match c_checkValidity (el_control e) with
      | None => Return JUndefined
      | Some ok =>
          Return (if negb ok && negb (valid (c_validity (el_control e)))
                  then js_or (JStr (c_validationMessage (el_control e))) (JStr "error!")
                  else JBool false)
      end
  end.

(** [.val()] reads [nodeName] of the first member of the collection and
    calls [toLowerCase] on it; it throws when that member is no element. *)
Definition match_ : validator := λ es el,
  let target := data es el "match" in
  if holds_elements_only target then
    Return (if negb (strict_eq (val es el) (val es (jq target)))
            then JStr "Does not match"
            else JBool false)
  else Raise.

Definition minlength : validator := λ es el,
  let minlength := data es el "minlength" in
  match val es el with
  | JStr s => Return (if js_lt_len ToNumber (String.length s) minlength
                      then JStr "Not long enough"
                      else JBool false)
  | _ => Raise
  end.

Definition VALIDATORS : list (string * validator) :=
  [("native", native); ("match", match_); ("minlength", minlength)].

(** [$.extend({}, base, more)], as the list of the properties of the new
    object in the order in which they are created: a key of [base] keeps its
    place and takes the new value, a new key goes to the end.  The order in
    which [$.extend] visits [more] does not change the order in which the
    result is visited afterwards. *)
Fixpoint assign (key : string) (v : validator) (o : list (string * validator))
  : list (string * validator) :=
  match o with
  | [] => [(key, v)]
  | (k, w) :: o' => if bool_decide (k = key) then (k, v) :: o' else (k, w) :: assign key v o'
  end.

Definition extend (base more : list (string * validator)) : list (string * validator) :=
  foldl (λ o kv, assign kv.1 kv.2 o) base more.

(** The array index a property key stands for: the key is the decimal
    numeral, with no sign and no leading zero, of a number below 2^32 - 1. *)
Fixpoint digits_value (s : string) (value : N) : option N :=
  match s with
  | EmptyString => Some value
  | String a s' =>
      let n := Ascii.nat_of_ascii a in
      if bool_decide (48 ≤ n) && bool_decide (n ≤ 57)
      then digits_value s' (value * 10 + N.of_nat (n - 48))%N
      else None
  end.

Definition array_index (key : string) : option N :=
  match digits_value key 0 with
  | Some n =>
      if bool_decide (pretty n = key) && bool_decide (n < 4294967295)%N
      then Some n else None
  | None => None
  end.

(** The order in which [for ... in], and with it [$.each], visits the
    properties of an object: those whose key is an array index by ascending
    index, then the others in the order in which they were created. *)
Fixpoint insert_index {A} (n : N) (a : A) (l : list (N * A)) : list (N * A) :=
  match l with
  | [] => [(n, a)]
  | (m, b) :: l' =>
      if bool_decide (n < m)%N then (n, a) :: l else (m, b) :: insert_index n a l'
  end.

Definition indexed {A} (o : list (string * A)) : list (N * (string * A)) :=
  foldr (λ kv l, match array_index kv.1 with
                 | Some n => insert_index n kv l
                 | None => l
                 end) [] o.

Definition for_in {A} (o : list (string * A)) : list (string * A) :=
  (indexed o).*2 ++ filter (λ kv, array_index kv.1 = None) o.

(** [this.validators], in the order in which [$.each] visits it. *)
Definition validators : list (string * validator) :=
  for_in (extend VALIDATORS (custom options)).

(** *** The error messages of runValidators *)

Definition getValidatorSpecificError (es : list Element) (el : list nat) (key : string) : jsval :=
  data es el (key +:+ "-error").

(** [$el[0].validity] is undefined on an element without constraint
    validation, and reading a property of undefined throws. *)
Definition getValidityStateError (es : list Element) (el : list nat) : outcome jsval :=
  match first es el with
  | None => Raise
  | Some e =>
      match c_checkValidity (el_control e) with
      | None => Raise
      | Some _ =>
          let validity := c_validity (el_control e) in
          Return (if typeMismatch validity then data es el "type-error"
                  else if patternMismatch validity then data es el "pattern-error"
                  else if stepMismatch validity then data es el "step-error"
                  else if rangeOverflow validity then data es el "max-error"
                  else if rangeUnderflow validity then data es el "min-error"
                  else if valueMissing validity then data es el "required-error"
                  else JNull)
      end
  end.

Definition getGenericError (es : list Element) (el : list nat) : jsval :=
  data es el "error".

(** [||] evaluates its right operand only when the left one is falsy. *)
Definition getErrorMessage (es : list Element) (el : list nat) (key : string)
  : outcome jsval :=
  if truthy (getValidatorSpecificError es el key)
  then Return (getValidatorSpecificError es el key)
  else match getValidityStateError es el with
       | Return error => Return (js_or error (getGenericError es el))
       | Raise => Raise
       end.

(** *** Form-level validity *)

Definition hasErrors (es : list Element) : bool :=
  negb (bool_decide (indices (λ e, el_validated e &&
          negb (bool_decide (default [] (bs_errors (el_store e)) = []))) es = [])).

Definition fieldIncomplete (es : list Element) (i : nat) : bool :=
  match getValue es [i] with
  | JStr value => negb (truthy (JStr (trim value)))
  | value => negb (truthy value)
  end.

Definition isIncomplete (es : list Element) : bool :=
  negb (bool_decide (filter (λ i, fieldIncomplete es i)
          (indices (λ e, el_validated e && el_required e) es) = [])).

(** *** Display *)

(** [$el.closest('.form-group')], in document order. *)
Definition closest (es : list Element) (gs : list Group) (el : list nat) : list nat :=
  filter (λ g, existsb (λ i, match es !! i with
                             | Some e => bool_decide (el_group e = Some g)
                             | None => false
                             end) el)
         (seq 0 (length gs)).

(** [$group.find('.help-block.with-errors')] and its first element. *)
Definition blocks_of (gs : list Group) (group : list nat) : list Block :=
  mjoin ((λ g, match gs !! g with Some G => g_blocks G | None => [] end) <$> group).
Definition first_block (gs : list Group) (group : list nat) : option Block :=
  head (blocks_of gs group).

Definition with_blocks (f : Block → Block) (G : Group) : Group :=
  mkGroup (has_error G) (has_danger G) (has_success G) (has_feedback G)
          (f <$> g_blocks G) (g_feedback G).
Definition with_feedback (f : Feedback → Feedback) (G : Group) : Group :=
  mkGroup (has_error G) (has_danger G) (has_success G) (has_feedback G)
          (g_blocks G) (f <$> g_feedback G).
Definition set_classes (e d s : bool) (G : Group) : Group :=
  mkGroup e d s (has_feedback G) (g_blocks G) (g_feedback G).

(** [$group.hasClass('has-feedback')]. *)
Definition hasClass_feedback (gs : list Group) (group : list nat) : bool :=
  existsb (λ g, match gs !! g with Some G => has_feedback G | None => false end) group.

Definition trigger (a : action) : M unit := modify (with_log (λ l, l ++ [a])).

Definition showErrors (el : list nat) : M unit :=
  do st <- get;
  let es := elements st in
  let gs := groups st in
  let group := closest es gs el in
  match stored bs_errors es el with
  | None => throw
  | Some [] => ret tt
  | Some errors =>
      let list := ErrorList (html options) errors in
      let block := first_block gs group in
      let save (b : Block) :=
        match block with
        | Some b0 =>
            match b_original b0 with
            | None => mkBlock (b_content b) (Some (b_content b0))
            | Some _ => b
            end
        | None => b
        end in
      do_ modify (with_groups (update group (with_blocks save)));
      do_ modify (with_groups (update group (with_blocks (λ b, mkBlock list (b_original b)))));
      do_ modify (with_groups (update group (λ G, set_classes true true (has_success G) G)));
      if hasClass_feedback gs group then
        do_ modify (with_groups (update group (with_feedback (λ f, mkFeedback true false))));
        modify (with_groups (update group (λ G, set_classes (has_error G) (has_danger G) false G)))
      else ret tt
  end.

Definition clearErrors (el : list nat) : M unit :=
  do st <- get;
  let es := elements st in
  let gs := groups st in
  let group := closest es gs el in
  let restore (b : Block) :=
    match first_block gs group with
    | Some b0 =>
        match b_original b0 with
        | Some c => mkBlock c (b_original b)
        | None => b
        end
    | None => b
    end in
  do_ modify (with_groups (update group (with_blocks restore)));
  do_ modify (with_groups (update group (set_classes false false false)));
  if hasClass_feedback gs group then
    do_ modify (with_groups (update group (with_feedback (λ f, mkFeedback false false))));
    if truthy (getValue es el) then
      do_ modify (with_groups (update group (with_feedback (λ f, mkFeedback (fb_error f) true))));
      modify (with_groups (update group (λ G, set_classes (has_error G) (has_danger G) true G)))
    else ret tt
  else ret tt.

Definition toggleSubmit : M unit :=
  if disable options then
    do st <- get;
    modify (set_btn_disabled (isIncomplete (elements st) || hasErrors (elements st)))
  else ret tt.

Definition focusError : M unit :=
  if focus options then
    do st <- get;
    match indices has_error (groups st) with
    | [] => ret tt
    | g :: _ =>
        match indices (λ e, bool_decide (el_group e = Some g)) (elements st) with
        | [] => ret tt
        | input => trigger (Focus input)
        end
    end
  else ret tt.

(** *** Timers and requests *)

Definition clearTimeout (id : option nat) : M unit :=
  match id with
  | Some t => modify (with_timers (delete t))
  | None => ret tt
  end.

Definition setTimeout (cb : callback) : M nat :=
  do st <- get;
  let id := next_timer st in
  do_ modify (with_timers (insert id cb));
  do_ modify (set_next_timer (S id));
  ret id.

(** The body of the function [runValidators] hands to [defer]: the
    [$.get] with the field's name and value. *)
Definition remote_get (el : list nat) (deferred : nat) (errors : list jsval) : M unit :=
  do st <- get;
  let es := elements st in
  let rq := mkRequest (data es el "remote") (attr_name es el) (getValue es el)
                      el deferred errors in
  do_ modify (with_requests (insert (next_request st) rq));
  modify (set_next_request (S (next_request st))).

Definition run_callback (cb : callback) : M unit :=
  match cb with
  | ShowErrorsCb el => showErrors el
  | RemoteCb el deferred errors => remote_get el deferred errors
  end.

Definition defer (el : list nat) (cb : callback) : M unit :=
  if bool_decide (delay options = 0) then run_callback cb
  else
    do st <- get;
    do_ clearTimeout (stored bs_timeout (elements st) el);
    do id <- setTimeout cb;
    modify (with_elements (update el (with_store (set_timeout (Some id))))).

(** *** Deferreds *)

Definition Deferred_new : M nat :=
  do st <- get;
  do_ modify (with_deferreds (λ ds, ds ++ [mkDeferred Pending []]));
  ret (length (deferreds st)).

Definition reject (d : nat) : M unit :=
  modify (with_deferreds (alter (λ D, match d_state D with
                                      | Pending => mkDeferred Rejected (d_done D)
                                      | _ => D
                                      end) d)).

(** The callbacks of [validateInput] and of [onInput]. *)
Definition run_continuation (k : continuation) (errors : list jsval) : M unit :=
  match k with
  | ToggleSubmit => toggleSubmit
  | Validated el deferErrors prevErrors =>
      do_ modify (with_elements (update el (with_store (set_errors (Some errors)))));
      do_ (match errors with
           | [] => clearErrors el
           | _ => if deferErrors then defer el (ShowErrorsCb el) else showErrors el
           end);
      do_ (if match prevErrors with
              | None => true
              | Some prev => negb (bool_decide (array_toString errors = array_toString prev))
              end
           then
             match errors with
             | [] => trigger (Trigger "valid.bs.validator" (head el) prevErrors)
             | _ => trigger (Trigger "invalid.bs.validator" (head el) (Some errors))
             end
           else ret tt);
      do_ toggleSubmit;
      trigger (Trigger "validated.bs.validator" (head el) None)
  end.

Definition resolve (d : nat) (errors : list jsval) : M unit :=
  do st <- get;
  match deferreds st !! d with
  | Some (mkDeferred Pending ks) =>
      do_ modify (with_deferreds (alter (λ _, mkDeferred (Resolved errors) ks) d));
      forM ks (λ k, run_continuation k errors)
  | _ => ret tt
  end.

(** [promise.done(k)]. *)
Definition done_ (d : nat) (k : continuation) : M unit :=
  do st <- get;
  match deferreds st !! d with
  | Some (mkDeferred Pending ks) =>
      modify (with_deferreds (alter (λ _, mkDeferred Pending (ks ++ [k])) d))
  | Some (mkDeferred (Resolved errors) _) => run_continuation k errors
  | _ => ret tt
  end.

(** *** runValidators *)

(** The function [$.each] applies to a registered validator. *)
Definition run_validator (el : list nat) (kv : string * validator)
           (errors : list jsval) : M (list jsval) :=
  let '(key, validator) := kv in
  do st <- get;
  let es := elements st in
  if (truthy (getValue es el) || attr_required es el)
     && (truthy (data es el key) || bool_decide (key = "native")) then
    do_ trigger (Call key el (validator es el));
    match validator es el with
    | Raise => throw
    | Return error =>
        if truthy error then
          match getErrorMessage es el key with
          | Raise => throw
          | Return message =>
              let error := js_or message error in
              ret (if bool_decide (error ∈ errors) then errors else errors ++ [error])
          end
        else ret errors
    end
  else ret errors.

Fixpoint each (vs : list (string * validator)) (el : list nat)
         (errors : list jsval) : M (list jsval) :=
  match vs with
  | [] => ret errors
  | kv :: vs' =>
      do errors' <- run_validator el kv errors;
      each vs' el errors'
  end.

(** [$.Deferred()] makes a new object, so making it commutes with the
    rejection of the stored one; the model rejects first, and a position
    past the end of [deferreds] names no deferred. *)
Definition runValidators (el : list nat) : M nat :=
  do st <- get;
  do_ (match stored bs_deferred (elements st) el with
       | Some d => reject d
       | None => ret tt
       end);
  do deferred <- Deferred_new;
  do_ modify (with_elements (update el (with_store (set_deferred (Some deferred)))));
  do errors <- each validators el [];
  do st <- get;
  let es := elements st in
  do_ (if bool_decide (errors = []) && truthy (getValue es el) && truthy (data es el "remote")
       then defer el (RemoteCb el deferred errors)
       else resolve deferred errors);
  ret deferred.

(** *** validateInput *)

(** The result is the promise, or [None] for [undefined]. *)
Definition validateInput (el : list nat) (deferErrors : bool) : M (option nat) :=
  do st <- get;
  let es := elements st in
  let prevErrors := stored bs_errors es el in
  let el := if is_type es el TRadio then inputs_named es (attr_name es el) else el in
  do_ trigger (Trigger "validate.bs.validator" (head el) None);
  if vetoes st (head el) then ret None
  else
    do d <- runValidators el;
    do_ done_ d (Validated el deferErrors prevErrors);
    ret (Some d).

Definition onInput (target : nat) (type : string) : M unit :=
  let el := [target] in
  let deferErrors := negb (bool_decide (type = "focusout")) in
  do st <- get;
  if negb (bool_decide (target ∈ inputs (elements st))) then ret tt
  else
    do p <- validateInput el deferErrors;
    match p with
    | None => throw
    | Some d => done_ d ToggleSubmit
    end.

(** [$.when] is given one jQuery object, not the promises, so its [then]
    callback does not wait for them.  [onSubmit] reads nothing that the
    callback writes. *)
Definition validate : M unit :=
  do st <- get;
  do_ forM (inputs (elements st)) (λ i, do_ validateInput [i] false; ret tt);
  do_ toggleSubmit;
  focusError.

(** The result tells whether [e.preventDefault()] was called. *)
Definition onSubmit : M bool :=
  do_ validate;
  do st <- get;
  ret (isIncomplete (elements st) || hasErrors (elements st)).

Definition reset : M unit :=
  do_ modify (with_groups (fmap (with_feedback (λ _, mkFeedback false false))));
  do_ modify (with_elements (λ es,
        update (inputs es) (with_store (λ s, set_deferred None (set_errors None s))) es));
  do st <- get;
  do_ forM (inputs (elements st)) (λ i,
        do st' <- get; clearTimeout (stored bs_timeout (elements st') [i]));
  do_ modify (with_groups (fmap (with_blocks (λ b,
        match b_original b with
        | Some originalContent => mkBlock originalContent None
        | None => mkBlock (b_content b) None
        end))));
  do_ modify (set_btn_disabled false);
  modify (with_groups (fmap (set_classes false false false))).

(** *** Events *)

(** The fields whose [data-match] target selects [target]: the constructor
    binds one [input.bs.validator] handler on [target] for each. *)
Definition dependents (es : list Element) (target : nat) : list nat :=
  indices (λ e, match el_data e !! "match" with
                | Some t => bool_decide (target ∈ jq t)
                | None => false
                end) es.

(** [$this.trigger('input.bs.validator')]: the handlers bound on the
    element, then [onInput] on the form. *)
Fixpoint trigger_input (fuel : nat) (target : nat) : M unit :=
  match fuel with
  | 0 => throw
  | S fuel' =>
      do st <- get;
      do_ forM (dependents (elements st) target) (λ this,
            do st' <- get;
            if truthy (getValue (elements st') [this])
            then trigger_input fuel' this
            else ret tt);
      onInput target "input"
  end.

(** An exception that leaves a listener ends that listener only. *)
Definition listener (m : M unit) : M unit :=
  λ st, Done tt (state_of (m st)).

(** The browser dispatches an event at [target]; it bubbles to the form. *)
Definition dispatch (type : string) (target : nat) : M unit :=
  do_ (if bool_decide (type = "input") then
         listener (do st <- get;
                   forM (dependents (elements st) target) (λ this,
                     do st' <- get;
                     if truthy (getValue (elements st') [this])
                     then trigger_input stack this
                     else ret tt))
       else ret tt);
  if bool_decide (type ∈ ["input"; "change"; "focusout"])
  then listener (onInput target type)
  else ret tt.

(** The constructor, after [update] and the registration of handlers. *)
Definition Validator : M unit :=
  do st <- get;
  do_ forM (filter (λ i, truthy (getValue (elements st) [i])) (inputs (elements st)))
           (λ i, onInput i "focusout");
  toggleSubmit.

Inductive event :=
| Edit (i : nat) (c : Control)
| Dom (type : string) (target : nat)
| Submit
| FormReset
| TimerFires (id : nat)
| Response (rq : nat) (failure : option string).

Definition fire (id : nat) : M unit :=
  do st <- get;
  match timers st !! id with
  | Some cb => do_ modify (with_timers (delete id)); run_callback cb
  | None => ret tt
  end.

(** [.fail] pushes the message, [.always] resolves; an exception that
    leaves the [.fail] callback leaves the callbacks after it uncalled. *)
Definition respond (id : nat) (failure : option string) : M unit :=
  do st <- get;
  match requests st !! id with
  | Some rq =>
      do_ modify (with_requests (delete id));
      match failure with
      | Some error =>
          match getErrorMessage (elements st) (rq_el rq) "remote" with
          | Raise => throw
          | Return message =>
              resolve (rq_deferred rq) (rq_errors rq ++ [js_or message (JStr error)])
          end
      | None => resolve (rq_deferred rq) (rq_errors rq)
      end
  | None => ret tt
  end.

Definition step (e : event) (st : State) : State :=
  match e with
  | Edit i c => with_elements (alter (with_control c) i) st
  | Dom type target => state_of (dispatch type target st)
  | Submit => state_of (onSubmit st)
  | FormReset => state_of (reset st)
  | TimerFires id => state_of (fire id st)
  | Response rq failure => state_of (respond rq failure st)
  end.

Definition run (evs : list event) (st : State) : State :=
  foldl (λ s e, step e s) st evs.

End Engine.

(** * Sample forms *)

Module Sample.

Definition validity_ok : ValidityState :=
  mkValidity true false false false false false false.

Definition control (value : string) (checked : bool) : Control :=
  mkControl value checked (Some true) validity_ok "".

Definition input (type : input_type) (name : string) (required : bool)
           (attrs : list (string * jsval)) (group : option nat)
           (value : string) (checked : bool) : Element :=
  mkElement type name required (list_to_map attrs) group true
            (control value checked) (mkStore None None None).

Definition text name required attrs group value : Element :=
  input TText name required attrs group value false.

Definition help (s : string) : Block := mkBlock (Markup s) None.

Definition form_group (blocks : list Block) : Group :=
  mkGroup false false false false blocks [].

(** A page on which the plugin has not run yet. *)
Definition page (es : list Element) (gs : list Group) : State :=
  mkState es gs false ∅ 0 [] ∅ 0 [].

(** [Validator.DEFAULTS] and the same with [delay: 0]. *)
Definition DEFAULTS : Options := mkOptions 500 false true true [].
Definition no_delay : Options := mkOptions 0 false true true [].

(** ToNumber on a string, as the exact value of its numeral; JavaScript
    rounds this value to a double.  White space around the numeral does not
    count and the empty string gives 0; a numeral is [Infinity] or decimal
    digits with an optional sign, fraction and exponent, or digits in the
    radix 16, 8 or 2 after [0x], [0o] or [0b]; any other string gives
    NaN. *)
Definition digit (radix : N) (a : Ascii.ascii) : option N :=
  let n := N.of_nat (Ascii.nat_of_ascii a) in
  let value :=
    if bool_decide (48 ≤ n)%N && bool_decide (n ≤ 57)%N then Some (n - 48)%N
    else if bool_decide (97 ≤ n)%N && bool_decide (n ≤ 102)%N then Some (n - 87)%N
    else if bool_decide (65 ≤ n)%N && bool_decide (n ≤ 70)%N then Some (n - 55)%N
    else None in
  match value with
  | Some d => if bool_decide (d < radix)%N then Some d else None
  | None => None
  end.

(** The digits a string starts with: their value after [value], their
    number, and what follows them. *)
Fixpoint digits (radix : N) (s : string) (value : N) : N * nat * string :=
  match s with
  | EmptyString => (value, 0, s)
  | String a s' =>
      match digit radix a with
      | Some d =>
          let '(v, n, rest) := digits radix s' (value * radix + d)%N in (v, S n, rest)
      | None => (value, 0, s)
      end
  end.

Definition integer (radix : N) (s : string) : number :=
  match digits radix s 0 with
  | (v, S _, EmptyString) => Finite (Z.of_N v) 1
  | _ => NaN
  end.

Definition sign (s : string) : bool * string :=
  match s with
  | String "+" s' => (false, s')
  | String "-" s' => (true, s')
  | _ => (false, s)
  end.

(** [mantissa * 10 ^ exponent]. *)
Definition scaled (negative : bool) (mantissa : N) (exponent : Z) : number :=
  let m := if negative then (- Z.of_N mantissa)%Z else Z.of_N mantissa in
  if bool_decide (0 ≤ exponent)%Z then Finite (m * 10 ^ exponent) 1
  else Finite m (Z.to_pos (10 ^ (- exponent))).

Definition decimal (negative : bool) (s : string) : number :=
  let '(i, ni, rest) := digits 10 s 0 in
  let '(m, nf, rest) :=
    match rest with
    | String "." rest' => digits 10 rest' i
    | _ => (i, 0, rest)
    end in
  if bool_decide (ni + nf = 0) then NaN
  else
    match rest with
    | EmptyString => scaled negative m (- Z.of_nat nf)
    | String c rest' =>
        if bool_decide (c = "e"%char) || bool_decide (c = "E"%char) then
          let '(minus, rest'') := sign rest' in
          match digits 10 rest'' 0 with
          | (e, S _, EmptyString) =>
              scaled negative m ((if minus then - Z.of_N e else Z.of_N e) - Z.of_nat nf)
          | _ => NaN
          end
        else NaN
    end.

Definition numeral (s : string) : number :=
  match trim s with
  | EmptyString => Finite 0 1
  | String "0" (String "x" s') | String "0" (String "X" s') => integer 16 s'
  | String "0" (String "o" s') | String "0" (String "O" s') => integer 8 s'
  | String "0" (String "b" s') | String "0" (String "B" s') => integer 2 s'
  | s' =>
      let '(negative, s'') := sign s' in
      if bool_decide (s'' = "Infinity") then Infinity negative
      else decimal negative s''
  end.

(** No [data-match] target, no subscriber; a subscriber that cancels. *)
Definition no_target : string → list nat := λ _, [].
Definition nobody : State → option nat → bool := λ _ _, false.
Definition censor : State → option nat → bool := λ _ _, true.

(** One optional text field with a remote check. *)
Definition user_form : State :=
  page [text "user" false [("remote", JStr "/check")] (Some 0) "x"]
       [form_group [help "hint"]].

(** One optional text field, empty, that declares [data-minlength]. *)
Definition nick_form : State :=
  page [text "nick" false [("minlength", JNum 5)] (Some 0) ""]
       [form_group [help "hint"]].

(** A password of three characters that must have five, and its
    confirmation, which must match it. *)
Definition by_id : string → list nat :=
  λ selector, if bool_decide (selector = "#pw") then [0] else [].

Definition signup (pw confirm : string) : State :=
  page [text "pw" true [("minlength", JNum 5)] (Some 0) pw;
        text "confirm" false [("match", JStr "#pw")] (Some 1) confirm]
       [form_group [help "five characters or more"];
        form_group [help "once more"]].

(** Two fields with a value, each of which must match the other. *)
Definition by_name : string → list nat :=
  λ selector, if bool_decide (selector = "#old") then [0]
              else if bool_decide (selector = "#new") then [1] else [].

Definition mutual_form : State :=
  page [text "old" false [("match", JStr "#new")] (Some 0) "x";
        text "new" false [("match", JStr "#old")] (Some 1) "y"]
       [form_group [help "the address"]; form_group [help "once more"]].

(** A password and two confirmations of it. *)
Definition confirmations (pw first second : string) : State :=
  page [text "pw" true [] (Some 0) pw;
        text "first" false [("match", JStr "#pw")] (Some 1) first;
        text "second" false [("match", JStr "#pw")] (Some 2) second]
       [form_group [help "the password"]; form_group [help "once more"];
        form_group [help "and again"]].

(** A coupon field with two custom validators, the first of which
    throws, and a second field. *)
Definition coupon_options : Options :=
  mkOptions 500 false true true
    [("a", λ _ _, Raise); ("b", λ _ _, Return (JStr "bad coupon"))].

Definition coupon_form : State :=
  page [text "coupon" false [("a", JBool true); ("b", JBool true)] (Some 0) "ABC";
        text "other" true [("minlength", JNum 5)] (Some 1) "abc"]
       [form_group [help "your coupon"]; form_group [help "five characters"]].

(** A required field with [data-minlength] and two custom validators,
    registered under [zed] and then under [7], which is an array index; the
    second one gives an error or throws. *)
Definition numbered_options (throwing : bool) : Options :=
  mkOptions 500 false true true
    [("zed", λ _ _, Return (JStr "zed"));
     ("7", λ _ _, if throwing then Raise else Return (JStr "seven"))].

Definition numbered_form : State :=
  page [text "code" true [("zed", JBool true); ("7", JBool true); ("minlength", JNum 5)]
             (Some 0) "ab"]
       [form_group [help "your code"]].

(** A required field of three characters whose [data-minlength] is [05],
    which [.data] leaves as a string. *)
Definition padded_form : State :=
  page [text "zip" true [("minlength", JStr "05")] (Some 0) "abc"]
       [form_group [help "five digits"]].

(** Two radios named [plan], none checked, and a checked checkbox of
    the same name. *)
Definition plan_form (checkbox : bool) : State :=
  page [input TRadio "plan" true [] (Some 0) "basic" false;
        input TRadio "plan" false [] (Some 0) "pro" false;
        input TCheckbox "plan" false [] (Some 1) "on" checkbox]
       [form_group [help "pick a plan"]; form_group []].

(** Two radios named [seat], none checked.  The first one is required, and
    the browser reports that it misses a value; the second one is not. *)
Definition seat_form : State :=
  page [mkElement TRadio "seat" true ∅ (Some 0) true
          (mkControl "aisle" false (Some false)
             (mkValidity false false false false false false true)
             "Please select one of these options.")
          (mkStore None None None);
        input TRadio "seat" false [] (Some 0) "window" false]
       [form_group [help "pick a seat"]].

(** A required field of two characters with [data-minlength] 5, on an
    element without constraint validation; with and without a message of
    its own for the validator. *)
Definition legacy_form (own_message : bool) : State :=
  page [mkElement TText "nick" true
          (list_to_map (("minlength", JNum 5)
                        :: if own_message then [("minlength-error", JStr "Too short")]
                           else []))
          (Some 0) true (mkControl "ab" false None validity_ok "")
          (mkStore None None None)]
       [form_group [help "your nickname"]].

(** A required field that holds one space. *)
Definition space_form : State :=
  page [text "name" true [] (Some 0) " "] [form_group [help "your name"]].

(** A required field too short for its [data-minlength], in a form
    group with two error-display regions. *)
Definition name_form : State :=
  page [text "name" true [("minlength", JNum 5)] (Some 0) "ab"]
       [form_group [help "first name"; help "last name"]].

End Sample.

(** * The other scripts of the bundle *)

(** ** Strings *)

(** [toLowerCase]: the capital letters below U+0100 are A to Z and
    U+00C0 to U+00DE without the multiplication sign U+00D7; the small
    letter of each is 32 places further. *)
Definition lower (a : Ascii.ascii) : Ascii.ascii :=
  let n := Ascii.nat_of_ascii a in
  if (bool_decide (65 ≤ n) && bool_decide (n ≤ 90))
     || (bool_decide (192 ≤ n) && bool_decide (n ≤ 222) && negb (bool_decide (n = 215)))
  then Ascii.ascii_of_nat (n + 32) else a.

Fixpoint toLowerCase (s : string) : string :=
  match s with
  | EmptyString => EmptyString
  | String a s' => String (lower a) (toLowerCase s')
  end.

(** [s.lastIndexOf(c)] for a string [c] of one character: the position of
    its last occurrence, or -1. *)
Fixpoint lastIndexOf_from (s : string) (c : Ascii.ascii) (i : Z) : Z :=
  match s with
  | EmptyString => -1
  | String a s' =>
      let r := lastIndexOf_from s' c (i + 1) in
      if bool_decide (0 ≤ r)%Z then r else if bool_decide (a = c) then i else -1
  end%Z.
Definition lastIndexOf (s : string) (c : Ascii.ascii) : Z := lastIndexOf_from s c 0.

Fixpoint string_drop (n : nat) (s : string) : string :=
  match n, s with
  | 0, _ => s
  | S n', String _ s' => string_drop n' s'
  | S _, EmptyString => EmptyString
  end.

(** [s.substr(start)]: a negative [start] counts from the end. *)
Definition substr (s : string) (start : Z) : string :=
  let len := Z.of_nat (String.length s) in
  let from := if bool_decide (start < 0)%Z then Z.max (len + start) 0 else Z.min start len in
  string_drop (Z.to_nat from) s.

(** ** fileExtension *)

Definition fileExtension (file : string) : string :=
  toLowerCase (substr file (lastIndexOf file "."%char + 1)).

(** The string holds no dot. *)
Definition dotless (s : string) : Prop :=
  ∀ pre post, s ≠ pre +:+ String "."%char post.

(** ** Attributes.prototype.toString *)

(** [s.replace(/c/g, by)] for one character [c]. *)
Fixpoint replace_all (c : ascii) (by_ : string) (s : string) : string :=
  match s with
  | EmptyString => EmptyString
  | String a s' =>
      if bool_decide (a = c) then by_ +:+ replace_all c by_ s'
      else String a (replace_all c by_ s')
  end.

Definition quot : ascii := "034"%char.

(** The local function [checkPlain] of [toString], on a string: the empty
    string is falsy and gives the empty string. *)
Definition checkPlain (str : string) : string :=
  if bool_decide (str = "") then ""
  else replace_all ">" "&gt;"
         (replace_all "<" "&lt;"
            (replace_all quot "&quot;"
               (replace_all "&" "&amp;" str))).

(** The value of an attribute: a string, or an array of strings, which
    [toString] joins with spaces. *)
Inductive attribute :=
| AString (s : string)
| AArray (l : list string).

Definition attribute_value (v : attribute) : string :=
  match v with
  | AString s => s
  | AArray l => String.concat " " l
  end.

(** The attributes are the own properties of [data], in the order of
    [for ... in]. *)
Definition Attributes_toString (data : list (string * attribute)) : string :=
  foldl (λ output '(name, value),
           output +:+ " " +:+ checkPlain name +:+ "=" +:+ String quot ""
                  +:+ checkPlain (attribute_value value) +:+ String quot "")
        "" data.

(** What [checkPlain] writes for a character. *)
Definition entity (a : ascii) : string :=
  if bool_decide (a = "&"%char) then "&amp;"
  else if bool_decide (a = quot) then "&quot;"
  else if bool_decide (a = "<"%char) then "&lt;"
  else if bool_decide (a = ">"%char) then "&gt;"
  else String a "".

Fixpoint escape (s : string) : string :=
  match s with
  | EmptyString => EmptyString
  | String a s' => entity a +:+ escape s'
  end.

(** The number of occurrences of a character. *)
Fixpoint count (c : ascii) (s : string) : nat :=
  match s with
  | EmptyString => 0
  | String a s' => (if bool_decide (a = c) then 1 else 0) + count c s'
  end.

(** ** The classes of Attributes *)

(** An argument of [addClass] and the like: a class, several classes
    separated by spaces, or an array of such arguments. *)
#[warnings="-register-all"] Inductive classes_arg :=
| CString (s : string)
| CArray (l : list classes_arg).

(** [_.flatten]. *)
Fixpoint flatten_arg (a : classes_arg) : list string :=
  match a with
  | CString s => [s]
  | CArray l => flat_map flatten_arg l
  end.
Definition flatten (args : list classes_arg) : list string := flat_map flatten_arg args.

(** [s.split(' ')]. *)
Fixpoint split (s : string) : list string :=
  match s with
  | EmptyString => [EmptyString]
  | String a s' =>
      if bool_decide (a = " "%char) then EmptyString :: split s'
      else match split s' with
           | [] => [String a EmptyString]
           | word :: words => String a word :: words
           end
  end.

(** [_.uniq]: the first occurrences, in their order. *)
Definition uniq (l : list string) : list string :=
  foldl (λ result x, if bool_decide (x ∈ result) then result else result ++ [x]) [] l.

(** [s.replace(pattern, replacement)] for two strings, the second without
    a dollar sign: the first occurrence is replaced. *)
Fixpoint replace_first (pattern replacement s : string) : string :=
  if String.prefix pattern s then replacement +:+ string_drop (String.length pattern) s
  else match s with
       | EmptyString => EmptyString
       | String a s' => String a (replace_first pattern replacement s')
       end.

(** The characters the regular expression of [cleanClass] keeps. *)
Definition identifier_character (a : ascii) : bool :=
  let n := nat_of_ascii a in
  bool_decide (n = 45) || (bool_decide (48 ≤ n) && bool_decide (n ≤ 57))
  || (bool_decide (65 ≤ n) && bool_decide (n ≤ 90)) || bool_decide (n = 95)
  || (bool_decide (97 ≤ n) && bool_decide (n ≤ 122)) || bool_decide (161 ≤ n).

Fixpoint string_filter (P : ascii → bool) (s : string) : string :=
  match s with
  | EmptyString => EmptyString
  | String a s' => if P a then String a (string_filter P s') else string_filter P s'
  end.

(** [Attributes.cleanClass] with the default filter.  The second and the
    last [replace] are given arrays, which they convert to strings. *)
Definition cleanClass (identifier : string) : string :=
  let identifier := toLowerCase identifier in
  let identifier := replace_first "__" "#DOUBLE_UNDERSCORE#" identifier in
  let identifier := replace_first " ,_,/,[,]" "-,-,-,-," identifier in
  let identifier := replace_first "#DOUBLE_UNDERSCORE#" "__" identifier in
  let identifier := string_filter identifier_character identifier in
  replace_first "/^[0-9]/,/^(-[0-9])|^(--)/" "_,__" identifier.

Definition sanitizeClasses (args : list classes_arg) : list string :=
  uniq (cleanClass <$> filter (λ s, s ≠ "") (flat_map split (flatten args))).

(** [a === b]: two strings are equal when they are the same string; an
    array is equal to itself only, and the arrays compared here are new. *)
Definition strict_equal (a b : classes_arg) : bool :=
  match a, b with
  | CString s, CString t => bool_decide (s = t)
  | _, _ => false
  end.

(** [_.without(array, ...values)] and [_.indexOf(array, item)]. *)
Definition without (array : list string) (values : list classes_arg) : list string :=
  filter (λ c, ¬ Exists (λ v, strict_equal (CString c) v = true) values) array.

Fixpoint indexOf_from (array : list string) (item : classes_arg) (i : Z) : Z :=
  match array with
  | [] => -1
  | c :: array' => if strict_equal (CString c) item then i else indexOf_from array' item (i + 1)
  end%Z.
Definition indexOf (array : list string) (item : classes_arg) : Z := indexOf_from array item 0.

(** The methods, as functions of [this.data.class]. *)
Definition addClass (classes : list string) (args : list classes_arg) : list string :=
  sanitizeClasses ((CString <$> classes) ++ args).

Definition hasClass (classes : list string) (args : list classes_arg) : bool :=
  forallb (λ className, bool_decide (className ∈ classes)) (sanitizeClasses args).

Definition removeClass (classes : list string) (args : list classes_arg) : list string :=
  let remove := sanitizeClasses args in
  without classes [CArray (CString <$> remove)].

(** The position [replaceClass] computes; it replaces a class when the
    position is not negative. *)
Definition replaceClass_index (classes : list string) (oldValue : classes_arg) : Z :=
  indexOf (sanitizeClasses [oldValue]) (CArray (CString <$> classes)).

(** ** Bootstrap.normalizeObject *)

(** The values of the properties of a settings object: strings, booleans,
    numbers, plain objects, and the others (arrays, functions, null, DOM
    nodes), which [normalizeObject] does not look into. *)
#[warnings="-register-all"] Inductive setting :=
| SString (s : string)
| SBoolean (b : bool)
| SNumber (n : Z)
| SNaN
| SObject (props : list (string * setting))
| SOther (id : nat).

(** [parseFloat] of a string that matches [/^[\d-.]$/]: one character, a
    digit, a minus sign or a dot; [None] when the string does not match. *)
Definition parse_one_character (s : string) : option setting :=
  match s with
  | String c EmptyString =>
      let n := nat_of_ascii c in
      if bool_decide (48 ≤ n) && bool_decide (n ≤ 57) then Some (SNumber (Z.of_nat (n - 48)))
      else if bool_decide (c = "-"%char) || bool_decide (c = "."%char) then Some SNaN
      else None
  | _ => None
  end.

Definition normalize_string (s : string) : setting :=
  if bool_decide (s = "true") then SBoolean true
  else if bool_decide (s = "false") then SBoolean false
  else default (SString s) (parse_one_character s).

Fixpoint normalizeObject (obj : setting) : setting :=
  match obj with
  | SObject props =>
      SObject (map (λ kv, (kv.1, match kv.2 with
                                 | SString s => normalize_string s
                                 | SObject _ => normalizeObject kv.2
                                 | v => v
                                 end)) props)
  | _ => obj
  end.

(** ** The keyboard handler of the tabs *)

(** [needle] occurs in [hay]. *)
Definition occurs (needle hay : string) : bool :=
  bool_decide (is_Some (String.index 0 needle hay)).

(** [/(37|38|39|40)/.test(k)]: the test converts the key code to its
    decimal numeral and searches it. *)
Definition arrow_pattern (k : N) : bool :=
  let numeral := pretty k in
  occurs "37" numeral || occurs "38" numeral || occurs "39" numeral
  || occurs "40" numeral.

(** [$.fn.tab.Constructor.prototype.keydown] for the key code [k], the
    number of visible tabs and the position of the focused one among them,
    if any: the position given to [$items.eq], or [None] when the handler
    returns at once. *)
Definition tab_keydown (k : N) (length : nat) (focused : option nat) : option Z :=
  if negb (arrow_pattern k) then None
  else
    let index := match focused with Some i => Z.of_nat i | None => -1 end%Z in
    let index :=
      if bool_decide (k = 38%N) || bool_decide (k = 37%N) then (index - 1)%Z else index in
    let index :=
      if bool_decide (k = 39%N) || bool_decide (k = 40%N) then (index + 1)%Z else index in
    let index := if bool_decide (index < 0)%Z then (Z.of_nat length - 1)%Z else index in
    let index := if bool_decide (index = Z.of_nat length) then 0%Z else index in
    Some index.

(** * Vocabulary of the statements *)

(** [keeps R m]: the state [m] ends in, by return or by exception, is
    related to the state it started in. *)
Definition keeps {A} (R : relation State) (m : M A) : Prop :=
  ∀ st, R st (state_of (m st)).

(** The log only grows. *)
Definition log_grows : relation State :=
  λ st st', ∃ l, log st' = log st ++ l.

(** No timer is created or cleared. *)
Definition same_timers : relation State :=
  λ st st', timers st' = timers st ∧ next_timer st' = next_timer st.

Definition no_new_calls : relation State :=
  λ st st', ∀ key c r, Call key c r ∈ log st' → Call key c r ∈ log st.

(** The log grows, and by no validator call. *)
Definition quiet : relation State :=
  λ st st', ∃ rest, log st' = log st ++ rest ∧ ∀ key c r, Call key c r ∉ rest.

(** The stored error lists are the same. *)
Definition same_errors : relation State :=
  λ st st', ∀ i,
    bs_errors ∘ el_store <$> elements st' !! i = bs_errors ∘ el_store <$> elements st !! i.

(** The deferreds are the same. *)
Definition same_deferreds : relation State :=
  λ st st', deferreds st' = deferreds st.

(** The requests are the same. *)
Definition same_requests : relation State :=
  λ st st', requests st' = requests st.

(** The log is the same. *)
Definition same_log : relation State :=
  λ st st', log st' = log st.

(** No timer for a remote check is created. *)
Definition no_new_remote : relation State :=
  λ st st', ∀ id el d errors,
    timers st' !! id = Some (RemoteCb el d errors) →
    timers st !! id = Some (RemoteCb el d errors).

(** The data-* attributes of the elements are the same. *)
Definition same_attributes : relation State :=
  λ st st', el_data <$> elements st' = el_data <$> elements st.

(** An enabled submit control stays enabled. *)
Definition stays_enabled : relation State :=
  λ st st', btn_disabled st = false → btn_disabled st' = false.

(** The validator reads nothing of what the plugin stores on the
    elements. *)
Definition store_blind (v : validator) : Prop :=
  ∀ c f es el, v (update c (with_store f) es) el = v es el.

(** The elements differ in what the plugin stores on them only. *)
Inductive stores_differ (es : list Element) : list Element → Prop :=
| stores_same : stores_differ es es
| stores_update es' c f :
    stores_differ es es' → stores_differ es (update c (with_store f) es').

(** ** The loop over the validators, for the elements [es] it reads and
    the collection [el] it validates *)

Section Loop.

Variables (es : list Element) (el : list nat).

(** The condition under which [$.each]'s function calls the validator
    registered under [key]. *)
Definition applies (key : string) : bool :=
  (truthy (getValue es el) || attr_required es el)
  && (truthy (data es el key) || bool_decide (key = "native")).

(** The message pushed for an error of the validator [key]; looking it up
    may throw. *)
Definition message (key : string) (error : jsval) : outcome jsval :=
  match getErrorMessage es el key with
  | Return message => Return (js_or message error)
  | Raise => Raise
  end.

(** [$.each]'s function throws for a registered validator: the validator
    throws, or it gives an error and the look-up of the message throws. *)
Definition throws (kv : string * validator) : bool :=
  applies kv.1
  && match kv.2 es el with
     | Raise => true
     | Return error =>
         truthy error
         && match message kv.1 error with Raise => true | Return _ => false end
     end.

(** The call made for a registered validator, if any. *)
Definition call (kv : string * validator) : list action :=
  if applies kv.1 then [Call kv.1 el (kv.2 es el)] else [].

Definition calls (vs : list (string * validator)) : list action :=
  mjoin (call <$> vs).

(** The error list after a registered validator that does not throw. *)
Definition push (errors : list jsval) (kv : string * validator) : list jsval :=
  if applies kv.1 then
    match kv.2 es el with
    | Return error =>
        if truthy error then
          match message kv.1 error with
          | Return m => if bool_decide (m ∈ errors) then errors else errors ++ [m]
          | Raise => errors
          end
        else errors
    | Raise => errors
    end
  else errors.

End Loop.

(** The state in which the loop over the validators starts: the stored
    deferred rejected, the new one made and stored. *)
Definition started (el : list nat) (st : State) : State :=
  with_elements (update el (with_store (set_deferred (Some (length (deferreds st))))))
    (with_deferreds (λ ds, ds ++ [mkDeferred Pending []])
       match stored bs_deferred (elements st) el with
       | Some d => state_of (reject d st)
       | None => st
       end).

(** The state [runValidators] leaves when no validator applies. *)
Definition skipped (el : list nat) (st : State) : State :=
  let st1 :=
    match stored bs_deferred (elements st) el with
    | Some d => state_of (reject d st)
    | None => st
    end in
  let deferred := length (deferreds st1) in
  with_deferreds (alter (λ _, mkDeferred (Resolved []) []) deferred)
    (with_elements (update el (with_store (set_deferred (Some deferred))))
       (with_deferreds (λ ds, ds ++ [mkDeferred Pending []]) st1)).

(** [$.trim] gives the empty string exactly on white space. *)
Fixpoint blank (s : string) : bool :=
  match s with
  | EmptyString => true
  | String a s' => js_space a && blank s'
  end.

(** ** Supersession of passes *)

(** What a field carries that decides which pass is current. *)
Definition handle (e : Element) : input_type * string * option nat :=
  (el_type e, el_name e, bs_deferred (el_store e)).

(** The deferreds and the handles are the same. *)
Definition same_handles : relation State :=
  λ st st', deferreds st' = deferreds st
            ∧ handle <$> elements st' = handle <$> elements st.

(** The invariant of supersession: a name used by a radio is used by radios
    only; the inputs of a radio's name share their stored deferred; and a
    pending deferred with a callback of [validateInput] is the one stored on
    every field the callback writes to. *)
Record supersession (st : State) : Prop := mkSupersession {
  exclusive : ∀ i j e e',
    elements st !! i = Some e → elements st !! j = Some e' →
    el_type e = TRadio → el_name e' = el_name e → el_type e' = TRadio;
  shared : ∀ i j e e',
    elements st !! i = Some e → elements st !! j = Some e' →
    el_type e = TRadio → el_name e' = el_name e →
    bs_deferred (el_store e') = bs_deferred (el_store e);
  current : ∀ d D el deferErrors prevErrors i e,
    deferreds st !! d = Some D → d_state D = Pending →
    Validated el deferErrors prevErrors ∈ d_done D →
    i ∈ el → elements st !! i = Some e →
    bs_deferred (el_store e) = Some d
}.

(** The collection [validateInput] validates for the input [i]. *)
Definition target_of (es : list Element) (i : nat) : list nat :=
  if is_type es [i] TRadio then inputs_named es (attr_name es [i]) else [i].

(** The deferred [d] is stored on every member of [el]. *)
Definition stored_on (el : list nat) (d : nat) (st : State) : Prop :=
  ∀ j e, j ∈ el → elements st !! j = Some e → bs_deferred (el_store e) = Some d.

(** The invariant and what a pass has stored are kept. *)
Definition supersedes (P : State → Prop) : relation State :=
  λ st st', supersession st ∧ P st → supersession st' ∧ P st'.

(** The invariant is kept. *)
Definition sustained : relation State :=
  λ st st', supersession st → supersession st'.

(** The handles are the same, and so are the stored error lists of the
    fields that do not store the deferred [d]. *)
Definition errors_outside (d : nat) : relation State :=
  λ st st', handle <$> elements st' = handle <$> elements st
    ∧ ∀ i e e', elements st !! i = Some e → elements st' !! i = Some e' →
        bs_deferred (el_store e) ≠ Some d →
        bs_errors (el_store e') = bs_errors (el_store e).

(** ** The error-display regions *)

(** What the regions show, form group by form group. *)
Definition contents (gs : list Group) : list (list content) :=
  (λ G, b_content <$> g_blocks G) <$> gs.

(** What [reset] puts back in a region: the saved original content, or the
    content of the region when none is saved. *)
Definition original (b : Block) : content := default (b_content b) (b_original b).
Definition originals (gs : list Group) : list (list content) :=
  (λ G, original <$> g_blocks G) <$> gs.

(** What decides which regions a collection reaches. *)
Definition layout (e : Element) : input_type * string * option nat :=
  (el_type e, el_name e, el_group e).

Definition same_layout : relation State :=
  λ st st', layout <$> elements st' = layout <$> elements st
            ∧ length ∘ g_blocks <$> groups st' = length ∘ g_blocks <$> groups st.

(** The form groups of the collection hold at most one region. *)
Definition narrow (st : State) (el : list nat) : Prop :=
  length (blocks_of (groups st) (closest (elements st) (groups st) el)) ≤ 1.

(** Every field, a radio with the inputs of its name, has at most one
    region. *)
Definition tidy (st : State) : Prop :=
  ∀ i, narrow st (target_of (elements st) i).

(** The invariant of the regions, for the page [st0] the plugin started on:
    [reset] would put back what the page showed, and the collections that
    timers and deferreds hold have at most one region. *)
Record regular (st0 st : State) : Prop := mkRegular {
  laid_out : same_layout st0 st;
  restorable : originals (groups st) = contents (groups st0);
  timed : ∀ id el, timers st !! id = Some (ShowErrorsCb el) → narrow st0 el;
  awaited : ∀ d D el deferErrors prevErrors,
    deferreds st !! d = Some D →
    Validated el deferErrors prevErrors ∈ d_done D → narrow st0 el
}.

(** The layout, the originals, the timers and the deferreds are the same. *)
Definition same_regions : relation State :=
  λ st st', same_layout st st'
            ∧ originals (groups st') = originals (groups st)
            ∧ timers st' = timers st
            ∧ deferreds st' = deferreds st.

(** The invariant is kept. *)
Definition upholds (st0 : State) : relation State :=
  λ st st', regular st0 st → regular st0 st'.

(** * Lemmas *)

(** ** Relations every step of a computation keeps *)

Section Keeps.

Context (R : relation State) `{!PreOrder R}.

Lemma keeps_ret {A} (a : A) : keeps R (ret a).
Proof. intros st. reflexivity. Qed.

Lemma keeps_throw {A} : keeps R (@throw A).
Proof. intros st. reflexivity. Qed.

Lemma keeps_get : keeps R get.
Proof. intros st. reflexivity. Qed.

Lemma keeps_modify f : (∀ st, R st (f st)) → keeps R (modify f).
Proof. intros Hf st. apply Hf. Qed.

Lemma keeps_bind {A B} (m : M A) (k : A → M B) :
  keeps R m → (∀ a, keeps R (k a)) → keeps R (bind m k).
Proof.
  intros Hm Hk st. unfold bind. specialize (Hm st).
  destruct (m st) as [a st'|st']; simpl in *; [|done].
  etrans; [exact Hm|apply Hk].
Qed.

Lemma keeps_forM {A} (l : list A) (f : A → M unit) :
  (∀ a, keeps R (f a)) → keeps R (forM l f).
Proof.
  intros Hf. induction l as [|a l IH]; simpl.
  - by apply keeps_ret.
  - apply keeps_bind; auto.
Qed.

Lemma keeps_listener (m : M unit) : keeps R m → keeps R (listener m).
Proof. intros Hm st. apply Hm. Qed.

End Keeps.

#[global] Instance log_grows_preorder : PreOrder log_grows.
Proof.
  split.
  - intros st. exists []. by rewrite app_nil_r.
  - intros s1 s2 s3 [l1 H1] [l2 H2]. exists (l1 ++ l2).
    by rewrite H2, H1, app_assoc.
Qed.

#[global] Instance same_timers_preorder : PreOrder same_timers.
Proof.
  split.
  - by intros st.
  - intros s1 s2 s3 [H1 H1'] [H2 H2']. split; congruence.
Qed.

#[global] Instance no_new_calls_preorder : PreOrder no_new_calls.
Proof.
  split.
  - by intros st key c r.
  - intros s1 s2 s3 H1 H2 key c r Hc. by apply H1, H2.
Qed.

#[global] Instance quiet_preorder : PreOrder quiet.
Proof.
  split.
  - intros st. exists []. split; [by rewrite app_nil_r|].
    intros key c r. apply not_elem_of_nil.
  - intros s1 s2 s3 (r1 & H1 & Hr1) (r2 & H2 & Hr2). exists (r1 ++ r2). split.
    + by rewrite H2, H1, app_assoc.
    + intros key c r [?|?]%elem_of_app; [by eapply Hr1|by eapply Hr2].
Qed.

#[global] Instance same_errors_preorder : PreOrder same_errors.
Proof.
  split.
  - by intros st i.
  - intros s1 s2 s3 H1 H2 i. by rewrite H2, H1.
Qed.

#[global] Instance same_deferreds_preorder : PreOrder same_deferreds.
Proof.
  split.
  - by intros st.
  - intros s1 s2 s3 H1 H2. unfold same_deferreds in *. congruence.
Qed.

#[global] Instance same_requests_preorder : PreOrder same_requests.
Proof.
  split.
  - by intros st.
  - intros s1 s2 s3 H1 H2. unfold same_requests in *. congruence.
Qed.

#[global] Instance same_log_preorder : PreOrder same_log.
Proof.
  split.
  - by intros st.
  - intros s1 s2 s3 H1 H2. unfold same_log in *. congruence.
Qed.

#[global] Instance no_new_remote_preorder : PreOrder no_new_remote.
Proof.
  split.
  - by intros st id el d errors.
  - intros s1 s2 s3 H1 H2 id el d errors Hid. by apply H1, H2.
Qed.

#[global] Instance stays_enabled_preorder : PreOrder stays_enabled.
Proof.
  split.
  - by intros st ?.
  - intros s1 s2 s3 H1 H2 Hs. by apply H2, H1.
Qed.

(** The structural steps; [tac] settles what [modify] leaves. *)
Tactic Notation "keeps_step" tactic3(tac) :=
  lazymatch goal with
  | |- keeps _ (ret _) => apply keeps_ret; tc_solve
  | |- keeps _ throw => apply keeps_throw; tc_solve
  | |- keeps _ get => apply keeps_get; tc_solve
  | |- keeps _ (modify _) => apply keeps_modify; intros ?; tac
  | |- keeps _ (bind _ _) => apply keeps_bind; [tc_solve | | intros ?]
  | |- keeps _ (forM _ _) => apply keeps_forM; [tc_solve | intros ?]
  end.

Tactic Notation "keeps_with" tactic3(lemmas) "by" tactic3(tac) :=
  repeat (first [ lemmas | keeps_step tac | case_match ]).

Lemma keeps_trigger a : keeps log_grows (trigger a).
Proof. intros st. by exists [a]. Qed.

Ltac log_tac := exists []; simpl; by rewrite app_nil_r.

Section Log.

Variable options : Options.
Variable query : string → list nat.
Variable ToNumber : string → number.
Variable vetoes : State → option nat → bool.

Lemma log_showErrors el : keeps log_grows (showErrors options el).
Proof. unfold showErrors. keeps_with fail by log_tac. Qed.

Lemma log_clearErrors el : keeps log_grows (clearErrors el).
Proof. unfold clearErrors. keeps_with fail by log_tac. Qed.

Lemma log_toggleSubmit : keeps log_grows (toggleSubmit options).
Proof. unfold toggleSubmit. keeps_with fail by log_tac. Qed.

Lemma log_run_callback cb : keeps log_grows (run_callback options cb).
Proof.
  destruct cb; simpl; [apply log_showErrors|].
  unfold remote_get. keeps_with fail by log_tac.
Qed.

Lemma log_defer el cb : keeps log_grows (defer options el cb).
Proof.
  unfold defer, clearTimeout, setTimeout.
  keeps_with (apply log_run_callback) by log_tac.
Qed.

Lemma log_run_continuation k errors :
  keeps log_grows (run_continuation options k errors).
Proof.
  destruct k; simpl; [|apply log_toggleSubmit].
  keeps_with
    (first [ apply log_showErrors | apply log_clearErrors
           | apply log_toggleSubmit | apply log_defer
           | apply keeps_trigger ]) by log_tac.
Qed.

Lemma log_resolve d errors : keeps log_grows (resolve options d errors).
Proof.
  unfold resolve. keeps_with (apply log_run_continuation) by log_tac.
Qed.

Lemma log_done d k : keeps log_grows (done_ options d k).
Proof.
  unfold done_. keeps_with (apply log_run_continuation) by log_tac.
Qed.

Lemma log_each vs el errors : keeps log_grows (each vs el errors).
Proof.
  revert errors. induction vs as [|[key v] vs IH]; intros errors; simpl.
  - apply keeps_ret; tc_solve.
  - apply keeps_bind; [tc_solve| |auto].
    keeps_with (apply keeps_trigger) by log_tac.
Qed.

Lemma log_runValidators el : keeps log_grows (runValidators options query ToNumber el).
Proof.
  unfold runValidators, Deferred_new, reject.
  keeps_with
    (first [ apply log_each | apply log_defer | apply log_resolve ])
    by log_tac.
Qed.

End Log.

(** ** The plugin's data does not change what jQuery reads from the page *)

Lemma lookup_update {A} (el : list nat) (f : A → A) (l : list A) i :
  update el f l !! i = (λ a, if bool_decide (i ∈ el) then f a else a) <$> l !! i.
Proof. unfold update. apply list_lookup_imap. Qed.

Lemma length_update {A} (el : list nat) (f : A → A) (l : list A) :
  length (update el f l) = length l.
Proof. unfold update. apply length_imap. Qed.

Lemma indices_from_imap {A} (P : A → bool) (h : nat → A → A) n (l : list A) :
  (∀ i a, P (h i a) = P a) → indices_from P n (imap h l) = indices_from P n l.
Proof.
  revert h n. induction l as [|a l IH]; intros h n Hh; [done|simpl].
  rewrite Hh. f_equal. apply IH. intros i b. apply Hh.
Qed.

Lemma indices_update {A} (P : A → bool) el (f : A → A) (l : list A) :
  (∀ a, P (f a) = P a) → indices P (update el f l) = indices P l.
Proof.
  intros Hf. unfold indices, update. apply indices_from_imap.
  intros i a. by case_bool_decide.
Qed.

Lemma elem_of_indices_from {A} (P : A → bool) n (l : list A) i :
  i ∈ indices_from P n l ↔ ∃ a, n ≤ i ∧ l !! (i - n) = Some a ∧ P a = true.
Proof.
  revert n. induction l as [|b l IH]; intros n; simpl.
  - split; [by intros ?%elem_of_nil|]. by intros (a & _ & ? & _).
  - rewrite elem_of_app, IH. split.
    + intros [Hi|(a & Hn & Ha & HP)].
      * destruct (P b) eqn:HPb; [|by apply elem_of_nil in Hi].
        apply list_elem_of_singleton in Hi. subst i. exists b.
        by rewrite Nat.sub_diag.
      * exists a. split; [lia|]. split; [|done].
        by replace (i - n) with (S (i - S n)) by lia.
    + intros (a & Hn & Ha & HP).
      destruct (decide (i = n)) as [->|Hne].
      * left. rewrite Nat.sub_diag in Ha. simpl in Ha. injection Ha as ->.
        rewrite HP. by apply list_elem_of_singleton.
      * right. exists a. split; [lia|]. split; [|done].
        by replace (i - n) with (S (i - S n)) in Ha by lia.
Qed.

Lemma elem_of_indices {A} (P : A → bool) (l : list A) i :
  i ∈ indices P l ↔ ∃ a, l !! i = Some a ∧ P a = true.
Proof.
  unfold indices. rewrite elem_of_indices_from. rewrite Nat.sub_0_r.
  split; [intros (a & _ & ? & ?)|intros (a & ? & ?)]; exists a; eauto with lia.
Qed.

Section Reads.

Variables (el : list nat) (f : Store → Store) (es : list Element).

Let es' := update el (with_store f) es.

Lemma first_update c :
  first es' c
  = (λ e, if bool_decide (default 0 (head c) ∈ el) then with_store f e else e)
      <$> first es c.
Proof. destruct c as [|i c]; [done|]. apply lookup_update. Qed.

Lemma attr_name_update c : attr_name es' c = attr_name es c.
Proof.
  unfold attr_name. rewrite first_update.
  destruct (first es c); [simpl|done]. by case_bool_decide.
Qed.

Lemma attr_required_update c : attr_required es' c = attr_required es c.
Proof.
  unfold attr_required. rewrite first_update.
  destruct (first es c); [simpl|done]. by case_bool_decide.
Qed.

Lemma data_update c key : data es' c key = data es c key.
Proof.
  unfold data. rewrite first_update.
  destruct (first es c); [simpl|done]. by case_bool_decide.
Qed.

Lemma val_update c : val es' c = val es c.
Proof.
  unfold val. rewrite first_update.
  destruct (first es c); [simpl|done]. by case_bool_decide.
Qed.

Lemma prop_checked_update c : prop_checked es' c = prop_checked es c.
Proof.
  unfold prop_checked. rewrite first_update.
  destruct (first es c); [simpl|done]. by case_bool_decide.
Qed.

Lemma is_type_update c t : is_type es' c t = is_type es c t.
Proof.
  unfold is_type. induction c as [|i c IH]; [done|simpl].
  rewrite IH. f_equal. unfold es'. rewrite lookup_update.
  destruct (es !! i); simpl; try done. by destruct (bool_decide (i ∈ el)).
Qed.

Lemma checked_named_update n : checked_named es' n = checked_named es n.
Proof. apply indices_update. done. Qed.

Lemma inputs_named_update n : inputs_named es' n = inputs_named es n.
Proof. apply indices_update. done. Qed.

Lemma inputs_update : inputs es' = inputs es.
Proof. apply indices_update. done. Qed.

Lemma getValue_update c : getValue es' c = getValue es c.
Proof.
  unfold getValue.
  by rewrite !is_type_update, prop_checked_update, checked_named_update,
    attr_name_update, val_update.
Qed.

Lemma closest_update gs c : closest es' gs c = closest es gs c.
Proof.
  unfold closest. apply list_filter_iff. intros g.
  match goal with
  | |- Is_true ?a ↔ Is_true ?b => assert (a = b) as ->; [|done]
  end.
  induction c as [|i c IH]; [done|simpl].
  rewrite IH. f_equal. unfold es'. rewrite lookup_update.
  destruct (es !! i); simpl; try done. by destruct (bool_decide (i ∈ el)).
Qed.

End Reads.

(** ** The timers *)

Section Timers.

Variable options : Options.

Lemma timers_showErrors el : keeps same_timers (showErrors options el).
Proof. unfold showErrors. keeps_with fail by done. Qed.

Lemma timers_run_callback cb : keeps same_timers (run_callback options cb).
Proof.
  destruct cb; simpl; [apply timers_showErrors|].
  unfold remote_get. keeps_with fail by done.
Qed.

End Timers.

(** ** A field with no value that is not required *)

Section Skipped.

Variable options : Options.
Variable query : string → list nat.
Variable ToNumber : string → number.

Lemma run_validator_skipped el kv errors st :
  truthy (getValue (elements st) el) = false →
  attr_required (elements st) el = false →
  run_validator el kv errors st = Done errors st.
Proof.
  intros Hvalue Hrequired. destruct kv as [key validator].
  unfold run_validator, bind, get. by rewrite Hvalue, Hrequired.
Qed.

Lemma each_skipped vs el errors st :
  truthy (getValue (elements st) el) = false →
  attr_required (elements st) el = false →
  each vs el errors st = Done errors st.
Proof.
  intros Hvalue Hrequired. revert errors.
  induction vs as [|kv vs IH]; intros errors; [done|simpl].
  unfold bind. by rewrite run_validator_skipped.
Qed.

Lemma runValidators_skipped el st :
  truthy (getValue (elements st) el) = false →
  attr_required (elements st) el = false →
  runValidators options query ToNumber el st
  = Done (length (deferreds st)) (skipped el st).
Proof.
  intros Hvalue Hrequired.
  assert (∀ st1, elements st1 = elements st →
    (do deferred <- Deferred_new;
     do_ modify (with_elements (update el (with_store (set_deferred (Some deferred)))));
     do errors <- each (validators options query ToNumber) el [];
     do st0 <- get;
     do_ (if bool_decide (errors = []) && truthy (getValue (elements st0) el)
             && truthy (data (elements st0) el "remote")
          then defer options el (RemoteCb el deferred errors)
          else resolve options deferred errors);
     ret deferred) st1
    = Done (length (deferreds st1))
        (with_deferreds (alter (λ _, mkDeferred (Resolved []) []) (length (deferreds st1)))
          (with_elements (update el (with_store (set_deferred (Some (length (deferreds st1))))))
            (with_deferreds (λ ds, ds ++ [mkDeferred Pending []]) st1)))) as Htail.
  { intros st1 Hes.
    unfold bind at 1 2, Deferred_new, bind at 1 2, get, modify. simpl.
    unfold bind at 1. rewrite each_skipped; simpl;
      rewrite ?getValue_update, ?attr_required_update, ?Hes; try done.
    unfold bind at 1 2, get. simpl.
    rewrite getValue_update, Hes, Hvalue. simpl.
    unfold resolve, bind, get. simpl.
    rewrite lookup_app_r, Nat.sub_diag; [|done]. by simpl. }
  unfold runValidators, skipped, bind at 1 2, get.
  destruct (stored bs_deferred (elements st) el) as [d0|].
  - unfold reject at 1, modify at 1.
    rewrite Htail; [|done]. simpl. by rewrite length_alter.
  - unfold ret at 1. by rewrite Htail.
Qed.

Lemma skipped_deferred el st :
  deferreds (skipped el st) !! length (deferreds st)
  = Some (mkDeferred (Resolved []) []).
Proof.
  unfold skipped.
  set (st1 := match stored bs_deferred (elements st) el with
              | Some d => state_of (reject d st)
              | None => st
              end).
  assert (length (deferreds st1) = length (deferreds st)) as Hlen.
  { unfold st1. destruct (stored bs_deferred (elements st) el); [|done].
    simpl. apply length_alter. }
  simpl. rewrite Hlen, list_lookup_alter_eq, lookup_app_r; rewrite <- Hlen; [|done].
  by rewrite Nat.sub_diag.
Qed.

End Skipped.

Lemma lookup_update_elem_of {A} (el : list nat) (f : A → A) (l : list A) i a' :
  i ∈ el → update el f l !! i = Some a' → ∃ a, l !! i = Some a ∧ a' = f a.
Proof.
  intros Hi. rewrite lookup_update.
  destruct (l !! i) as [a|]; simpl; [|done].
  rewrite bool_decide_eq_true_2 by done. intros [= <-]. eauto.
Qed.

(** [clearErrors] never throws and leaves the groups of [$el] unmarked. *)
Lemma clearErrors_unmarks el st :
  ∃ gs',
    clearErrors el st = Done tt (with_groups (λ _, gs') st)
    ∧ ∀ g G, g ∈ closest (elements st) (groups st) el → gs' !! g = Some G →
             has_error G = false ∧ has_danger G = false.
Proof.
  unfold clearErrors, bind, get, modify. simpl.
  set (group := closest (elements st) (groups st) el).
  destruct (hasClass_feedback (groups st) group);
    [destruct (truthy (getValue (elements st) el))|];
    simpl; eexists; (split; [reflexivity|]); intros g G Hg HG;
    repeat (apply lookup_update_elem_of in HG as (? & HG & ->); [|done]);
    done.
Qed.

(** A timer of an earlier pass that fires [showErrors] on a field whose
    stored error list is empty changes nothing. *)
Lemma showErrors_without_errors options el st :
  (∀ i e, i ∈ el → elements st !! i = Some e → bs_errors (el_store e) = Some []) →
  state_of (showErrors options el st) = st.
Proof.
  intros Hel. unfold showErrors, bind, get, stored, first.
  destruct el as [|i el]; [done|].
  destruct (elements st !! i) as [e|] eqn:He; [|done].
  rewrite (Hel i e); [done|by left|done].
Qed.

(** The [.done] callback of [validateInput] on an empty error list. *)
Lemma run_continuation_valid options el deferErrors prevErrors st :
  ∃ st',
    run_continuation options (Validated el deferErrors prevErrors) [] st = Done tt st'
    ∧ elements st' = update el (with_store (set_errors (Some []))) (elements st)
    ∧ no_new_calls st st'
    ∧ ∀ g G, g ∈ closest (elements st) (groups st) el → groups st' !! g = Some G →
             has_error G = false ∧ has_danger G = false.
Proof.
  unfold run_continuation, bind at 1, modify at 1.
  set (st1 := with_elements _ st).
  destruct (clearErrors_unmarks el st1) as (gs' & Hclear & Hgs').
  unfold bind at 1. rewrite Hclear.
  assert (closest (elements st1) (groups st1) el = closest (elements st) (groups st) el)
    as Hclosest by apply closest_update.
  rewrite Hclosest in Hgs'.
  unfold toggleSubmit.
  destruct (match prevErrors with
            | Some prev => negb (bool_decide (array_toString [] = array_toString prev))
            | None => true
            end), (disable options);
    unfold bind, trigger, modify, get, ret; simpl;
    (eexists; split; [reflexivity|]); simpl;
    (split; [reflexivity|]); (split; [|exact Hgs']);
    intros key c r Hc; simpl in Hc;
    repeat (apply elem_of_app in Hc as [Hc|Hc];
            [|by apply list_elem_of_singleton in Hc]);
    exact Hc.
Qed.

(** ** What the loop over the validators does *)

Lemma with_log_nil st : with_log (λ l, l ++ []) st = st.
Proof. destruct st. unfold with_log. simpl. by rewrite app_nil_r. Qed.

Lemma with_log_app a b st :
  with_log (λ l, l ++ b) (with_log (λ l, l ++ a) st) = with_log (λ l, l ++ (a ++ b)) st.
Proof. unfold with_log. simpl. by rewrite app_assoc. Qed.

Section Each.

Variables (es : list Element) (el : list nat).

Local Abbreviation applies := (applies es el).
Local Abbreviation throws := (throws es el).
Local Abbreviation call := (call es el).
Local Abbreviation calls := (calls es el).
Local Abbreviation message := (message es el).
Local Abbreviation push := (push es el).

Lemma run_validator_returns kv errors st :
  elements st = es → throws kv = false →
  run_validator el kv errors st
  = Done (push errors kv) (with_log (λ l, l ++ call kv) st).
Proof.
  intros Hes Hthrows. destruct kv as [key validator].
  unfold throws, applies in Hthrows. simpl in Hthrows.
  unfold run_validator, bind at 1, get, push, call, applies.
  simpl. rewrite Hes.
  destruct ((truthy (getValue es el) || attr_required es el)
            && (truthy (data es el key) || bool_decide (key = "native"))).
  - unfold bind, trigger, modify, message in *.
    destruct (validator es el) as [error|]; [|done].
    destruct (truthy error); [|done].
    by destruct (getErrorMessage es el key).
  - by rewrite with_log_nil.
Qed.

Lemma run_validator_throws kv errors st :
  elements st = es → throws kv = true →
  run_validator el kv errors st = Thrown (with_log (λ l, l ++ call kv) st).
Proof.
  intros Hes Hthrows. destruct kv as [key validator].
  unfold throws in Hthrows. simpl in Hthrows.
  apply andb_true_iff in Hthrows as [Happlies Hraise].
  unfold call. simpl. rewrite Happlies. unfold applies in Happlies.
  unfold run_validator, bind at 1, get.
  simpl. rewrite Hes, Happlies.
  unfold bind, trigger, modify, message in *.
  destruct (validator es el) as [error|]; [|done].
  destruct (truthy error); [|done].
  by destruct (getErrorMessage es el key).
Qed.

Lemma each_returns vs errors st :
  elements st = es → Forall (λ kv, throws kv = false) vs →
  each vs el errors st
  = Done (foldl push errors vs) (with_log (λ l, l ++ calls vs) st).
Proof.
  intros Hes Hvs. revert errors st Hes.
  induction Hvs as [|kv vs Hkv Hvs IH]; intros errors st Hes; simpl.
  - unfold ret. by rewrite with_log_nil.
  - unfold bind. rewrite run_validator_returns by done.
    rewrite IH by done. unfold calls. simpl. by rewrite with_log_app.
Qed.

Lemma each_throws pre kv post errors st :
  elements st = es → Forall (λ kv, throws kv = false) pre → throws kv = true →
  each (pre ++ kv :: post) el errors st
  = Thrown (with_log (λ l, l ++ calls pre ++ call kv) st).
Proof.
  intros Hes Hpre Hkv. revert errors st Hes.
  induction Hpre as [|kv' pre Hkv' Hpre IH]; intros errors st Hes; simpl.
  - unfold bind. by rewrite run_validator_throws.
  - unfold bind. rewrite run_validator_returns by done.
    rewrite IH by done. unfold calls. simpl.
    by rewrite with_log_app, app_assoc.
Qed.

Lemma elem_of_calls vs key c r :
  Call key c r ∈ calls vs
  ↔ c = el ∧ applies key = true ∧ ∃ validator, (key, validator) ∈ vs ∧ r = validator es el.
Proof.
  unfold calls. rewrite list_elem_of_join. split.
  - intros (l & Hr & Hl). apply list_elem_of_fmap in Hl as ([k v] & -> & Hkv).
    unfold call in Hr. simpl in Hr. destruct (applies k) eqn:Hk.
    + apply list_elem_of_singleton in Hr. injection Hr as -> -> ->. eauto.
    + by apply elem_of_nil in Hr.
  - intros (-> & Hk & validator & Hkv & ->).
    exists (call (key, validator)). split.
    + unfold call. simpl. rewrite Hk. by apply list_elem_of_singleton.
    + apply list_elem_of_fmap. eauto.
Qed.

Lemma push_subseteq errors kv : errors ⊆ push errors kv.
Proof.
  unfold push. repeat case_match; try done. by apply list_subseteq_app_l.
Qed.

Lemma foldl_push_subseteq vs errors : errors ⊆ foldl push errors vs.
Proof.
  revert errors. induction vs as [|kv vs IH]; intros errors; [done|simpl].
  etrans; [apply push_subseteq|apply IH].
Qed.

Lemma elem_of_foldl_push vs errors key validator error m :
  (key, validator) ∈ vs → applies key = true →
  validator es el = Return error → truthy error = true →
  message key error = Return m →
  m ∈ foldl push errors vs.
Proof.
  intros Hkv Hk Hv Herror Hm. revert errors.
  induction vs as [|kv vs IH]; intros errors; [by apply elem_of_nil in Hkv|].
  apply elem_of_cons in Hkv as [<-|Hkv]; [|by apply IH].
  simpl. apply foldl_push_subseteq.
  unfold push. simpl. rewrite Hk, Hv, Herror, Hm.
  case_bool_decide; [done|]. apply elem_of_app. right. by apply list_elem_of_singleton.
Qed.

(** A validator that gives an error and does not throw has a message. *)
Lemma message_returns kv error :
  throws kv = false → applies kv.1 = true →
  kv.2 es el = Return error → truthy error = true →
  ∃ m, message kv.1 error = Return m.
Proof.
  unfold throws. intros Hthrows Hk Hv Herror.
  rewrite Hk, Hv, Herror in Hthrows. simpl in Hthrows.
  destruct (message kv.1 error) as [m|]; [by exists m|done].
Qed.

End Each.

(** ** What the rest of a pass leaves alone *)

Lemma quiet_no_new_calls st st' : quiet st st' → no_new_calls st st'.
Proof.
  intros (rest & Hlog & Hrest) key c r. rewrite Hlog.
  intros [?|?]%elem_of_app; [done|]. by destruct (Hrest key c r).
Qed.

Lemma quiet_same_log st st' : log st' = log st → quiet st st'.
Proof.
  intros Hlog. exists []. split; [by rewrite app_nil_r|].
  intros key c r. apply not_elem_of_nil.
Qed.

Lemma quiet_trigger type target detail :
  keeps quiet (trigger (Trigger type target detail)).
Proof.
  intros st. exists [Trigger type target detail]. split; [done|].
  by intros key c r ?%list_elem_of_singleton.
Qed.

Lemma quiet_focus input : keeps quiet (trigger (Focus input)).
Proof.
  intros st. exists [Focus input]. split; [done|].
  by intros key c r ?%list_elem_of_singleton.
Qed.

Lemma same_errors_set_timeout el id st :
  same_errors st (with_elements (update el (with_store (set_timeout id))) st).
Proof.
  intros i. simpl. rewrite lookup_update.
  destruct (elements st !! i) as [e|]; [simpl|done].
  by destruct (bool_decide (i ∈ el)).
Qed.

Lemma same_errors_set_deferred el d st st' :
  elements st' = update el (with_store (set_deferred d)) (elements st) →
  same_errors st st'.
Proof.
  intros Hes i. rewrite Hes, lookup_update.
  destruct (elements st !! i) as [e|]; [simpl|done].
  by destruct (bool_decide (i ∈ el)).
Qed.

Ltac quiet_tac := by apply quiet_same_log.

Section Quiet.

Variable options : Options.

Lemma quiet_showErrors el : keeps quiet (showErrors options el).
Proof. unfold showErrors. keeps_with fail by quiet_tac. Qed.

Lemma quiet_clearErrors el : keeps quiet (clearErrors el).
Proof. unfold clearErrors. keeps_with fail by quiet_tac. Qed.

Lemma quiet_toggleSubmit : keeps quiet (toggleSubmit options).
Proof. unfold toggleSubmit. keeps_with fail by quiet_tac. Qed.

Lemma quiet_run_callback cb : keeps quiet (run_callback options cb).
Proof.
  destruct cb; simpl; [apply quiet_showErrors|].
  unfold remote_get. keeps_with fail by quiet_tac.
Qed.

Lemma quiet_defer el cb : keeps quiet (defer options el cb).
Proof.
  unfold defer, clearTimeout, setTimeout.
  keeps_with (apply quiet_run_callback) by quiet_tac.
Qed.

Lemma quiet_run_continuation k errors :
  keeps quiet (run_continuation options k errors).
Proof.
  destruct k; simpl; [|apply quiet_toggleSubmit].
  keeps_with
    (first [ apply quiet_showErrors | apply quiet_clearErrors
           | apply quiet_toggleSubmit | apply quiet_defer
           | apply quiet_trigger ]) by quiet_tac.
Qed.

Lemma quiet_resolve d errors : keeps quiet (resolve options d errors).
Proof.
  unfold resolve. keeps_with (apply quiet_run_continuation) by quiet_tac.
Qed.

Lemma quiet_done d k : keeps quiet (done_ options d k).
Proof.
  unfold done_. keeps_with (apply quiet_run_continuation) by quiet_tac.
Qed.

Lemma errors_showErrors el : keeps same_errors (showErrors options el).
Proof. unfold showErrors. keeps_with fail by done. Qed.

Lemma errors_clearErrors el : keeps same_errors (clearErrors el).
Proof. unfold clearErrors. keeps_with fail by done. Qed.

Lemma errors_toggleSubmit : keeps same_errors (toggleSubmit options).
Proof. unfold toggleSubmit. keeps_with fail by done. Qed.

Lemma errors_trigger a : keeps same_errors (trigger a).
Proof. by intros st i. Qed.

Lemma errors_defer_showErrors el c :
  keeps same_errors (defer options el (ShowErrorsCb c)).
Proof.
  unfold defer, clearTimeout, setTimeout. simpl.
  keeps_with (apply errors_showErrors)
    by (first [ apply same_errors_set_timeout | done ]).
Qed.

(** After the callback of [validateInput] the error list is stored on
    every member of [$el]. *)
Lemma run_continuation_stores el deferErrors prevErrors errors st :
  ∀ i e, i ∈ el →
    elements (state_of (run_continuation options
                (Validated el deferErrors prevErrors) errors st)) !! i = Some e →
    bs_errors (el_store e) = Some errors.
Proof.
  intros i e Hi He.
  unfold run_continuation, bind at 1, modify at 1 in He.
  set (st1 := with_elements _ st) in He.
  match type of He with
  | elements (state_of (?m st1)) !! i = _ => assert (keeps same_errors m) as Hm
  end.
  { keeps_with
      (first [ apply errors_showErrors | apply errors_clearErrors
             | apply errors_toggleSubmit | apply errors_defer_showErrors
             | apply errors_trigger ]) by done. }
  specialize (Hm st1 i). rewrite He in Hm. simpl in Hm.
  rewrite lookup_update in Hm.
  destruct (elements st !! i) as [e0|]; [simpl in Hm|done].
  rewrite bool_decide_eq_true_2 in Hm by done. by injection Hm.
Qed.

End Quiet.

(** ** A pass in which the loop over the validators does not throw *)

Lemma throws_split es el vs :
  Forall (λ kv, throws es el kv = false) vs
  ∨ ∃ pre kv post, vs = pre ++ kv :: post
      ∧ Forall (λ kv, throws es el kv = false) pre ∧ throws es el kv = true.
Proof.
  induction vs as [|kv vs IH]; [by left|].
  destruct (throws es el kv) eqn:Hkv.
  - right. exists [], kv, vs. by repeat split.
  - destruct IH as [IH|(pre & kv' & post & -> & Hpre & Hkv')].
    + left. by constructor.
    + right. exists (kv :: pre), kv', post. repeat split; [|done]. by constructor.
Qed.

Section Pass.

Variable options : Options.
Variable query : string → list nat.
Variable ToNumber : string → number.
Variable vetoes : State → option nat → bool.

Lemma runValidators_started el st :
  runValidators options query ToNumber el st
  = (do errors <- each (validators options query ToNumber) el [];
     do st0 <- get;
     do_ (if bool_decide (errors = []) && truthy (getValue (elements st0) el)
             && truthy (data (elements st0) el "remote")
          then defer options el (RemoteCb el (length (deferreds st)) errors)
          else resolve options (length (deferreds st)) errors);
     ret (length (deferreds st))) (started el st).
Proof.
  unfold runValidators, started, bind at 1 2, get.
  destruct (stored bs_deferred (elements st) el) as [d0|].
  - unfold reject at 1, modify at 1.
    unfold bind at 1, Deferred_new, bind at 1 2, get, modify, ret at 1.
    unfold bind at 1. simpl. by rewrite length_alter.
  - unfold ret at 1.
    unfold bind at 1, Deferred_new, bind at 1 2, get, modify, ret at 1.
    by unfold bind at 1.
Qed.

Lemma started_deferred el st :
  deferreds (started el st) !! length (deferreds st) = Some (mkDeferred Pending []).
Proof.
  unfold started. simpl.
  destruct (stored bs_deferred (elements st) el); simpl.
  - rewrite lookup_app_r; rewrite length_alter; [|done]. by rewrite Nat.sub_diag.
  - rewrite lookup_app_r; [|done]. by rewrite Nat.sub_diag.
Qed.

Lemma started_log el st : log (started el st) = log st.
Proof. unfold started. by destruct (stored bs_deferred (elements st) el). Qed.

Lemma started_elements el st :
  elements (started el st)
  = update el (with_store (set_deferred (Some (length (deferreds st))))) (elements st).
Proof. unfold started. by destruct (stored bs_deferred (elements st) el). Qed.

Lemma started_frame el st :
  groups (started el st) = groups st
  ∧ btn_disabled (started el st) = btn_disabled st
  ∧ timers (started el st) = timers st
  ∧ requests (started el st) = requests st.
Proof. unfold started. by destruct (stored bs_deferred (elements st) el). Qed.

Lemma resolve_fresh d errors st :
  deferreds st !! d = Some (mkDeferred Pending []) →
  resolve options d errors st
  = Done tt (with_deferreds (alter (λ _, mkDeferred (Resolved errors) []) d) st).
Proof. intros Hd. unfold resolve, bind at 1, get. by rewrite Hd. Qed.

Lemma done_resolved d k errors ks st :
  deferreds st !! d = Some (mkDeferred (Resolved errors) ks) →
  done_ options d k st = run_continuation options k errors st.
Proof. intros Hd. unfold done_, bind at 1, get. by rewrite Hd. Qed.

(** A pass that returns its promise: no validator threw; after the
    notification the log holds the calls of the validators that apply, in
    registration order, and then no further call; a non-empty error list is
    stored on every member of [$el]. *)
Lemma validateInput_returns el deferErrors st d st' :
  validateInput options query ToNumber vetoes el deferErrors st = Done (Some d) st' →
  let target :=
    if is_type (elements st) el TRadio
    then inputs_named (elements st) (attr_name (elements st) el)
    else el in
  let es := elements (started target st) in
  let vs := validators options query ToNumber in
  Forall (λ kv, throws es target kv = false) vs
  ∧ (∃ rest,
       log st' = log st ++ Trigger "validate.bs.validator" (head target) None
                        :: calls es target vs ++ rest
       ∧ ∀ key c r, Call key c r ∉ rest)
  ∧ (foldl (push es target) [] vs ≠ [] →
     ∀ i e, i ∈ target → elements st' !! i = Some e →
       bs_errors (el_store e) = Some (foldl (push es target) [] vs)).
Proof.
  intros Hpass target es vs.
  unfold validateInput, bind at 1 2, get, trigger, modify in Hpass.
  simpl in Hpass. fold target in Hpass.
  destruct (vetoes st (head target)); [done|].
  set (st1 := with_log _ st) in Hpass.
  assert (elements (started target st1) = es) as Hes
    by (unfold es; by rewrite !started_elements).
  unfold bind at 1 in Hpass. rewrite runValidators_started in Hpass.
  fold vs in Hpass. unfold bind at 1 in Hpass.
  destruct (throws_split es target vs) as [Hvs|(pre & kv & post & Hsplit & Hpre & Hkv)].
  2:{ rewrite Hsplit, (each_throws es) in Hpass by done. done. }
  split; [done|].
  rewrite (each_returns es) in Hpass by done.
  set (errors := foldl (push es target) [] vs) in *.
  set (st2 := with_log _ (started target st1)) in Hpass.
  split.
  - match type of Hpass with
    | match ?m st2 with Done _ _ => _ | Thrown _ => _ end = _ =>
        assert (keeps quiet (bind m (λ a, do_ done_ options a
                   (Validated target deferErrors (stored bs_errors (elements st) el));
                   ret (Some a)))) as Hquiet
    end.
    { keeps_with (first [ apply quiet_defer | apply quiet_resolve | apply quiet_done ])
        by quiet_tac. }
    specialize (Hquiet st2). unfold bind at 1 in Hquiet. rewrite Hpass in Hquiet.
    destruct Hquiet as (rest & Hlog & Hrest). exists rest. split; [|done].
    change (log st2) with (log (started target st1) ++ calls es target vs) in Hlog.
    rewrite started_log in Hlog. simpl in Hlog. rewrite Hlog.
    by rewrite <- !app_assoc.
  - intros Herrors.
    unfold bind at 1 2, get in Hpass.
    rewrite bool_decide_eq_false_2 in Hpass by done. simpl in Hpass.
    rewrite resolve_fresh in Hpass by exact (started_deferred target st1).
    unfold ret at 1, bind at 1 in Hpass.
    erewrite done_resolved in Hpass.
    2:{ simpl. rewrite list_lookup_alter_eq.
        pose proof (started_deferred target st1) as Hd.
        simpl in Hd. by rewrite Hd. }
    intros i e Hi He.
    destruct (run_continuation _ _ _ _) as [[] st3|st3] eqn:Hrun in Hpass; [|done].
    injection Hpass as _ <-.
    eapply (run_continuation_stores options target deferErrors _ errors _ i e Hi).
    by rewrite Hrun.
Qed.

End Pass.

(** ** The registry and the built-in validators *)

Lemma elem_of_assign_ne key v o k w :
  k ≠ key → (k, w) ∈ assign key v o ↔ (k, w) ∈ o.
Proof.
  intros Hk. induction o as [|[k' w'] o IH]; simpl.
  - rewrite list_elem_of_singleton. split; [congruence|by intros ?%elem_of_nil].
  - case_bool_decide as Hk'.
    + rewrite !elem_of_cons. split; (intros [?|?]; [congruence|by right]).
    + rewrite !elem_of_cons, IH. done.
Qed.

Lemma elem_of_extend base more k w :
  k ∉ more.*1 → (k, w) ∈ extend base more ↔ (k, w) ∈ base.
Proof.
  unfold extend. revert base. induction more as [|[key v] more IH]; intros base Hk; [done|].
  simpl in *. apply not_elem_of_cons in Hk as [Hne Hk].
  rewrite IH by done. by apply elem_of_assign_ne.
Qed.

Lemma indexed_cons {A} (kv : string * A) o :
  indexed (kv :: o)
  = match array_index kv.1 with
    | Some n => insert_index n kv (indexed o)
    | None => indexed o
    end.
Proof. done. Qed.

Lemma insert_index_perm {A} n (a : A) l : insert_index n a l ≡ₚ (n, a) :: l.
Proof.
  induction l as [|[m b] l IH]; [done|]. simpl.
  case_bool_decide; [done|]. rewrite IH. apply Permutation_swap.
Qed.

Lemma indexed_perm {A} (o : list (string * A)) :
  (indexed o).*2 ≡ₚ filter (λ kv, ¬ array_index kv.1 = None) o.
Proof.
  induction o as [|kv o IH]; [done|].
  rewrite indexed_cons, filter_cons.
  destruct (array_index kv.1) as [n|] eqn:Hn.
  - rewrite decide_True by done. rewrite insert_index_perm, fmap_cons.
    by rewrite IH.
  - by rewrite decide_False by (by intros []).
Qed.

(** [for ... in] visits every property, once. *)
Lemma for_in_perm {A} (o : list (string * A)) : for_in o ≡ₚ o.
Proof.
  unfold for_in. rewrite indexed_perm, Permutation_app_comm.
  apply (filter_app_complement (λ kv : string * A, array_index kv.1 = None)).
Qed.

Lemma elem_of_for_in {A} (o : list (string * A)) kv : kv ∈ for_in o ↔ kv ∈ o.
Proof. by rewrite for_in_perm. Qed.

Lemma elem_of_VALIDATORS query ToNumber k w :
  (k, w) ∈ VALIDATORS query ToNumber
  ↔ (k = "native" ∧ w = native) ∨ (k = "match" ∧ w = match_ query)
    ∨ (k = "minlength" ∧ w = minlength ToNumber).
Proof.
  unfold VALIDATORS. rewrite !elem_of_cons, elem_of_nil.
  split; [intros [?|[?|[?|[]]]]|intros [[??]|[[??]|[??]]]]; simplify_eq; auto.
Qed.

Section Builtin.

Variables (c : list nat) (f : Store → Store) (es : list Element).
Variable query : string → list nat.
Variable ToNumber : string → number.

Let es' := update c (with_store f) es.

Lemma getErrorMessage_update el key :
  getErrorMessage es' el key = getErrorMessage es el key.
Proof.
  unfold getErrorMessage, getValidatorSpecificError, getValidityStateError,
    getGenericError.
  unfold es'. rewrite !data_update, first_update.
  destruct (first es el) as [e|]; [simpl|done].
  by destruct (bool_decide (default 0 (head el) ∈ c)).
Qed.

Lemma message_update el key error :
  message es' el key error = message es el key error.
Proof. unfold message. by rewrite getErrorMessage_update. Qed.

Lemma applies_update el key : applies es' el key = applies es el key.
Proof.
  unfold applies, es'.
  by rewrite getValue_update, attr_required_update, data_update.
Qed.

Lemma minlength_update el : minlength ToNumber es' el = minlength ToNumber es el.
Proof. unfold minlength, es'. by rewrite val_update, data_update. Qed.

Lemma match_update el : match_ query es' el = match_ query es el.
Proof. unfold match_, es'. by rewrite !val_update, data_update. Qed.

End Builtin.

(** ** match *)

Section Match.

Variable options : Options.
Variable query : string → list nat.
Variable ToNumber : string → number.
Variable vetoes : State → option nat → bool.
Variable stack : nat.

(** The pass over a field that declares [data-match]. *)
Lemma match_pass el deferErrors st d st' :
  let es := elements st in
  let target :=
    if is_type es el TRadio then inputs_named es (attr_name es el) else el in
  "match" ∉ (custom options).*1 →
  truthy (data es target "match") = true →
  truthy (getValue es target) = true ∨ attr_required es target = true →
  validateInput options query ToNumber vetoes el deferErrors st = Done (Some d) st' →
  ∃ new,
    log st' = log st ++ new
    ∧ ((∃ error, truthy error = true ∧ Call "match" target (Return error) ∈ new)
       ↔ val es target ≠ val es (jq query (data es target "match")))
    ∧ (val es target ≠ val es (jq query (data es target "match")) →
       ∃ m, message es target "match" (JStr "Does not match") = Return m
         ∧ ∀ i e, i ∈ target → elements st' !! i = Some e →
             ∃ errors, bs_errors (el_store e) = Some errors ∧ m ∈ errors).
Proof.
  intros es target Hcustom Hdata Hguard Hpass. subst es.
  destruct (validateInput_returns _ _ _ _ _ _ _ _ _ Hpass)
    as (Hvs & (rest & Hlog & Hrest) & Hstore).
  fold target in Hvs, Hlog, Hstore.
  rewrite started_elements in Hvs, Hlog, Hstore.
  set (es1 := update target _ (elements st)) in *.
  set (vs := validators options query ToNumber) in *.
  set (differ := val (elements st) target
                 ≠ val (elements st) (jq query (data (elements st) target "match"))).
  assert (∀ w, ("match", w) ∈ vs ↔ w = match_ query) as Hreg.
  { intros w. unfold vs, validators. rewrite elem_of_for_in, elem_of_extend by done.
    rewrite elem_of_VALIDATORS. split.
    - by intros [[? _]|[[_ ->]|[? _]]].
    - intros ->. by right; left. }
  assert (applies es1 target "match" = true) as Happlies.
  { unfold es1. rewrite applies_update. unfold applies. rewrite Hdata.
    destruct Hguard as [->| ->]; simpl; by rewrite ?orb_true_r. }
  assert (holds_elements_only (data (elements st) target "match") = true) as Hselector.
  { destruct (holds_elements_only _) eqn:Hselector; [done|].
    assert (throws es1 target ("match", match_ query) = false) as Hno
      by (apply (proj1 (Forall_forall _ _) Hvs); by apply Hreg).
    unfold throws in Hno. simpl in Hno. rewrite Happlies in Hno.
    unfold es1 in Hno. rewrite match_update in Hno. unfold match_ in Hno.
    by rewrite Hselector in Hno. }
  assert (match_ query es1 target
          = Return (if bool_decide differ then JStr "Does not match" else JBool false))
    as Hmatch.
  { unfold es1. rewrite match_update. unfold match_, strict_eq, differ.
    rewrite Hselector.
    by destruct (decide (val (elements st) target
                         = val (elements st) (jq query (data (elements st) target "match"))));
      [rewrite bool_decide_eq_true_2, bool_decide_eq_false_2 by auto
      |rewrite bool_decide_eq_false_2, bool_decide_eq_true_2 by auto]. }
  eexists. split; [exact Hlog|]. split; [split|].
  - intros (error & Herror & Hcall).
    apply elem_of_cons in Hcall as [?|Hcall]; [done|].
    apply elem_of_app in Hcall as [Hcall|Hcall]; [|by apply Hrest in Hcall].
    apply elem_of_calls in Hcall as (_ & _ & w & Hw & Hr).
    apply Hreg in Hw as ->. rewrite Hmatch in Hr. injection Hr as ->.
    by case_bool_decide.
  - intros Hne. exists (JStr "Does not match"). split; [done|].
    apply elem_of_cons. right. apply elem_of_app. left.
    apply elem_of_calls. split; [done|]. split; [done|].
    exists (match_ query). split; [by apply Hreg|].
    by rewrite Hmatch, bool_decide_eq_true_2.
  - intros Hne.
    assert (match_ query es1 target = Return (JStr "Does not match")) as Herror
      by (by rewrite Hmatch, bool_decide_eq_true_2).
    assert (("match", match_ query) ∈ vs) as Hin by (by apply Hreg).
    destruct (message_returns es1 target ("match", match_ query) (JStr "Does not match"))
      as [m Hm]; [by apply (proj1 (Forall_forall _ _) Hvs)|by simpl..|].
    simpl in Hm. exists m. split.
    { rewrite <- Hm. unfold es1. by rewrite message_update. }
    assert (m ∈ foldl (push es1 target) [] vs) as Hpushed
      by (by apply (elem_of_foldl_push es1 target vs [] "match" (match_ query)
                      (JStr "Does not match"))).
    intros i e Hi He. eexists. split; [|exact Hpushed].
    apply (Hstore) with (i := i); [|done|done].
    intros Hnil. rewrite Hnil in Hpushed. by apply elem_of_nil in Hpushed.
Qed.

(** Other events on the target reach [onInput] only. *)
Lemma change_on_target type target st :
  type ≠ "input" →
  state_of (dispatch options query ToNumber vetoes stack type target st)
  = if bool_decide (type ∈ ["input"; "change"; "focusout"])
    then state_of (onInput options query ToNumber vetoes target type st)
    else st.
Proof.
  intros Htype. unfold dispatch.
  rewrite bool_decide_eq_false_2 by done.
  unfold bind at 1, ret at 1.
  by case_bool_decide.
Qed.

End Match.

(** ** The submission gate *)

Lemma not_nil_elem_of {A} `{EqDecision A} (l : list A) :
  negb (bool_decide (l = [])) = true ↔ ∃ x, x ∈ l.
Proof.
  destruct l as [|a l]; simpl.
  - split; [done|]. by intros [x ?%elem_of_nil].
  - split; [|done]. intros _. exists a. by left.
Qed.

Lemma hasErrors_iff es :
  hasErrors es = true
  ↔ ∃ i e errors, es !! i = Some e ∧ el_validated e = true
      ∧ bs_errors (el_store e) = Some errors ∧ errors ≠ [].
Proof.
  unfold hasErrors. rewrite not_nil_elem_of. split.
  - intros (i & Hi). apply elem_of_indices in Hi as (e & He & HP).
    apply andb_true_iff in HP as [Hv Herrors].
    destruct (bs_errors (el_store e)) as [errors|] eqn:Hstored; [|done].
    exists i, e, errors. repeat split; try done.
    intros ->. done.
  - intros (i & e & errors & He & Hv & Hstored & Herrors).
    exists i. apply elem_of_indices. exists e. split; [done|].
    rewrite Hv, Hstored. simpl. by rewrite bool_decide_eq_false_2.
Qed.

Lemma isIncomplete_iff es :
  isIncomplete es = true
  ↔ ∃ i e, es !! i = Some e ∧ el_validated e = true ∧ el_required e = true
      ∧ fieldIncomplete es i = true.
Proof.
  unfold isIncomplete. rewrite not_nil_elem_of. split.
  - intros (i & Hi). apply list_elem_of_filter in Hi as [Hincomplete Hi].
    apply elem_of_indices in Hi as (e & He & HP).
    apply andb_true_iff in HP as [Hv Hr].
    exists i, e. repeat split; try done. by apply Is_true_true.
  - intros (i & e & He & Hv & Hr & Hincomplete).
    exists i. apply list_elem_of_filter. split; [by apply Is_true_true|].
    apply elem_of_indices. exists e. by rewrite Hv, Hr.
Qed.

Lemma rtrim_empty s : rtrim s = "" ↔ blank s = true.
Proof.
  induction s as [|a s IH]; simpl; [done|].
  destruct (rtrim s) eqn:Hs.
  - destruct (js_space a); simpl; [|by split; [|intros ?]].
    by rewrite <- IH.
  - split; [done|]. intros [_ Hb]%andb_true_iff. by apply IH in Hb.
Qed.

Lemma ltrim_blank s : blank (ltrim s) = blank s.
Proof.
  induction s as [|a s IH]; simpl; [done|].
  destruct (js_space a) eqn:Ha; simpl; [done|]. by rewrite Ha.
Qed.

Lemma trim_empty s : trim s = "" ↔ blank s = true.
Proof. unfold trim. by rewrite rtrim_empty, ltrim_blank. Qed.

(** A no-break space is white space. *)
Example no_break_space_is_blank :
  trim (code_units [32; 160; 9]) = "" ∧ blank (code_units [160]) = true.
Proof. split; reflexivity. Qed.

Lemma fieldIncomplete_kind es i e :
  es !! i = Some e →
  fieldIncomplete es i
  = match el_type e with
    | TText => blank (c_value (el_control e))
    | TCheckbox => negb (c_checked (el_control e))
    | TRadio => bool_decide (checked_named es (el_name e) = [])
    end.
Proof.
  intros He. unfold fieldIncomplete, getValue, is_type, prop_checked, val, attr_name.
  simpl. rewrite He. destruct (el_type e); simpl.
  - rewrite negb_involutive.
    destruct (blank (c_value (el_control e))) eqn:Hblank.
    + by apply bool_decide_eq_true, trim_empty.
    + apply bool_decide_eq_false. rewrite trim_empty. congruence.
  - done.
  - by rewrite negb_involutive.
Qed.

(** ** Radio groups *)

Section Group.

Variable options : Options.
Variable query : string → list nat.
Variable ToNumber : string → number.
Variable vetoes : State → option nat → bool.

Lemma deferreds_showErrors el : keeps same_deferreds (showErrors options el).
Proof. unfold showErrors. keeps_with fail by done. Qed.

Lemma deferreds_clearErrors el : keeps same_deferreds (clearErrors el).
Proof. unfold clearErrors. keeps_with fail by done. Qed.

Lemma deferreds_toggleSubmit : keeps same_deferreds (toggleSubmit options).
Proof. unfold toggleSubmit. keeps_with fail by done. Qed.

Lemma deferreds_trigger a : keeps same_deferreds (trigger a).
Proof. by intros st. Qed.

Lemma deferreds_run_callback cb : keeps same_deferreds (run_callback options cb).
Proof.
  destruct cb; simpl; [apply deferreds_showErrors|].
  unfold remote_get. keeps_with fail by done.
Qed.

Lemma deferreds_defer el cb : keeps same_deferreds (defer options el cb).
Proof.
  unfold defer, clearTimeout, setTimeout.
  keeps_with (apply deferreds_run_callback) by done.
Qed.

Lemma deferreds_run_continuation k errors :
  keeps same_deferreds (run_continuation options k errors).
Proof.
  destruct k; simpl; [|apply deferreds_toggleSubmit].
  keeps_with
    (first [ apply deferreds_showErrors | apply deferreds_clearErrors
           | apply deferreds_toggleSubmit | apply deferreds_defer
           | apply deferreds_trigger ]) by done.
Qed.

(** Scheduling the remote check does not throw. *)
Lemma defer_remote el d errors st :
  ∃ st', defer options el (RemoteCb el d errors) st = Done tt st'
         ∧ deferreds st' = deferreds st.
Proof.
  unfold defer. case_bool_decide.
  - simpl. unfold remote_get, bind, get, modify. eauto.
  - unfold bind, get, clearTimeout, setTimeout, bind, get, modify, ret.
    destruct (stored bs_timeout (elements st) el); simpl; eauto.
Qed.

(** A pass that returns its promise either has scheduled the remote check,
    and its callback waits on the promise, or has resolved the promise and
    stored the error list on every member of [$el]. *)
Lemma validateInput_settles el deferErrors st d st' :
  validateInput options query ToNumber vetoes el deferErrors st = Done (Some d) st' →
  let target :=
    if is_type (elements st) el TRadio
    then inputs_named (elements st) (attr_name (elements st) el)
    else el in
  let callback := Validated target deferErrors (stored bs_errors (elements st) el) in
  deferreds st' !! d = Some (mkDeferred Pending [callback])
  ∨ ∃ errors,
      deferreds st' !! d = Some (mkDeferred (Resolved errors) [])
      ∧ ∀ j e, j ∈ target → elements st' !! j = Some e →
          bs_errors (el_store e) = Some errors.
Proof.
  intros Hpass target callback.
  destruct (validateInput_returns _ _ _ _ _ _ _ _ _ Hpass) as (Hvs & _ & _).
  fold target in Hvs.
  unfold validateInput, bind at 1 2, get, trigger, modify in Hpass.
  simpl in Hpass. fold target in Hpass.
  destruct (vetoes st (head target)); [done|].
  set (st1 := with_log _ st) in Hpass.
  set (es := elements (started target st)) in *.
  assert (elements (started target st1) = es) as Hes
    by (unfold es; by rewrite !started_elements).
  unfold bind at 1 in Hpass. rewrite runValidators_started in Hpass.
  unfold bind at 1 in Hpass.
  rewrite (each_returns es) in Hpass by done.
  set (errors := foldl (push es target) [] _) in *.
  set (st2 := with_log _ (started target st1)) in Hpass.
  assert (deferreds st2 !! length (deferreds st) = Some (mkDeferred Pending []))
    as Hd by exact (started_deferred target st1).
  clearbody st2.
  unfold bind at 1 2, get in Hpass.
  destruct (bool_decide (errors = []) && truthy (getValue (elements st2) target)
            && truthy (data (elements st2) target "remote")).
  - destruct (defer_remote target (length (deferreds st1)) errors st2)
      as (st3 & Hdefer & Hds).
    rewrite Hdefer in Hpass. unfold ret at 1, bind at 1 in Hpass.
    unfold done_, bind at 1, get in Hpass.
    change (length (deferreds st1)) with (length (deferreds st)) in Hpass.
    rewrite Hds, Hd in Hpass. unfold modify, ret in Hpass.
    injection Hpass as <- <-. left. simpl.
    rewrite list_lookup_alter_eq, Hds, Hd. done.
  - rewrite resolve_fresh in Hpass by done.
    unfold ret at 1, bind at 1 in Hpass.
    change (length (deferreds st1)) with (length (deferreds st)) in Hpass.
    erewrite done_resolved in Hpass
      by (simpl; by rewrite list_lookup_alter_eq, Hd).
    fold callback in Hpass.
    destruct (run_continuation options callback errors _) as [[] st3|st3] eqn:Hrun
      in Hpass; [|done].
    injection Hpass as <- <-. right. exists errors. split.
    + pose proof (deferreds_run_continuation callback errors) as Hk.
      match type of Hrun with ?m ?s = _ => specialize (Hk s) end.
      rewrite Hrun in Hk. unfold same_deferreds in Hk. simpl in Hk.
      by rewrite Hk, list_lookup_alter_eq, Hd.
    + intros j e Hj He.
      match type of Hrun with
      | run_continuation _ _ _ ?s = _ =>
          pose proof (run_continuation_stores options target deferErrors
                        (stored bs_errors (elements st) el) errors s j e Hj) as Hstore
      end.
      fold callback in Hstore. rewrite Hrun in Hstore. by apply Hstore.
Qed.

End Group.

(** ** Passes that return *)

Section Completes.

Variable options : Options.
Variable query : string → list nat.
Variable ToNumber : string → number.
Variable vetoes : State → option nat → bool.

Lemma showErrors_returns el st :
  is_Some (stored bs_errors (elements st) el) →
  ∃ st', showErrors options el st = Done tt st'.
Proof.
  intros [errors Hstored]. unfold showErrors, bind at 1, get. rewrite Hstored.
  destruct errors; [by eexists|].
  unfold bind, modify, ret. destruct (hasClass_feedback _ _); by eexists.
Qed.

Lemma clearErrors_returns el st : ∃ st', clearErrors el st = Done tt st'.
Proof.
  unfold clearErrors, bind, get, modify, ret.
  destruct (hasClass_feedback _ _); [|by eexists].
  destruct (truthy _); by eexists.
Qed.

Lemma toggleSubmit_returns st : ∃ st', toggleSubmit options st = Done tt st'.
Proof.
  unfold toggleSubmit, bind, get, modify, ret. destruct (disable options); by eexists.
Qed.

Lemma defer_showErrors_returns el st :
  is_Some (stored bs_errors (elements st) el) →
  ∃ st', defer options el (ShowErrorsCb el) st = Done tt st'.
Proof.
  intros Hstored. unfold defer. case_bool_decide; [by apply showErrors_returns|].
  unfold bind, get, clearTimeout, setTimeout, bind, get, modify, ret.
  destruct (stored bs_timeout (elements st) el); by eexists.
Qed.

(** The callback of [validateInput] returns when the collection has a
    first element. *)
Lemma run_continuation_returns el deferErrors prevErrors errors st :
  is_Some (first (elements st) el) →
  ∃ st', run_continuation options (Validated el deferErrors prevErrors) errors st
         = Done tt st'.
Proof.
  intros [e He]. unfold run_continuation, bind at 1, modify at 1.
  set (st1 := with_elements _ st).
  assert (is_Some (stored bs_errors (elements st1) el)) as Hstored.
  { unfold stored, st1. destruct el as [|i c]; [done|]. simpl in *.
    rewrite lookup_update, He. simpl.
    rewrite bool_decide_eq_true_2 by (by left). by eexists. }
  assert (∃ st2, match errors with
                 | [] => clearErrors el
                 | _ => if deferErrors then defer options el (ShowErrorsCb el)
                        else showErrors options el
                 end st1 = Done tt st2) as [st2 Hshow].
  { destruct errors; [apply clearErrors_returns|].
    destruct deferErrors; [by apply defer_showErrors_returns|by apply showErrors_returns]. }
  unfold bind at 1. rewrite Hshow.
  unfold bind at 1.
  match goal with
  | |- context [(if ?b then ?m else ret tt) st2] =>
      assert (∃ st3, (if b then m else ret tt) st2 = Done tt st3) as [st3 ->]
  end.
  { destruct prevErrors; repeat case_match; by eexists. }
  unfold bind at 1. destruct (toggleSubmit_returns st3) as [st4 ->].
  by eexists.
Qed.

(** A pass returns its promise when no subscriber cancels it, no validator
    throws and the collection has a first element. *)
Lemma validateInput_completes el deferErrors st :
  let target :=
    if is_type (elements st) el TRadio
    then inputs_named (elements st) (attr_name (elements st) el)
    else el in
  let es := elements (started target st) in
  vetoes st (head target) = false →
  Forall (λ kv, throws es target kv = false) (validators options query ToNumber) →
  is_Some (first (elements st) target) →
  ∃ st', validateInput options query ToNumber vetoes el deferErrors st
         = Done (Some (length (deferreds st))) st'.
Proof.
  intros target es Hveto Hvs Hfirst.
  unfold validateInput, bind at 1 2, get, trigger, modify. simpl.
  fold target. rewrite Hveto.
  set (st1 := with_log _ st).
  assert (elements (started target st1) = es) as Hes
    by (unfold es; by rewrite !started_elements).
  unfold bind at 1. rewrite runValidators_started.
  unfold bind at 1. rewrite (each_returns es) by done.
  set (errors := foldl (push es target) [] _).
  set (st2 := with_log _ (started target st1)).
  assert (deferreds st2 !! length (deferreds st) = Some (mkDeferred Pending []))
    as Hd by exact (started_deferred target st1).
  assert (is_Some (first (elements st2) target)) as Hfirst2.
  { change (elements st2) with (elements (started target st1)).
    rewrite started_elements, first_update.
    change (elements st1) with (elements st).
    destruct Hfirst as [e ->]. by eexists. }
  clearbody st2.
  unfold bind at 1 2, get.
  change (length (deferreds st1)) with (length (deferreds st)).
  destruct (bool_decide (errors = []) && truthy (getValue (elements st2) target)
            && truthy (data (elements st2) target "remote")).
  - destruct (defer_remote options target (length (deferreds st)) errors st2)
      as (st3 & -> & Hds).
    unfold ret at 1, bind at 1. unfold done_, bind at 1, get.
    rewrite Hds, Hd. unfold bind, modify, ret. by eexists.
  - rewrite resolve_fresh by done.
    unfold ret at 1, bind at 1.
    erewrite done_resolved by (simpl; by rewrite list_lookup_alter_eq, Hd).
    match goal with
    | |- context [run_continuation options ?k errors ?s] =>
        destruct (run_continuation_returns target deferErrors
                    (stored bs_errors (elements st) el) errors s Hfirst2) as [st3 Hrun]
    end.
    unfold bind. rewrite Hrun. by eexists.
Qed.

End Completes.

Lemma data_first es el key : truthy (data es el key) = true → is_Some (first es el).
Proof. unfold data. by destruct (first es el). Qed.

Lemma val_first es el s : val es el = JStr s → is_Some (first es el).
Proof. unfold val. by destruct (first es el). Qed.

Lemma inputs_named_first es i e :
  es !! i = Some e → is_Some (first es (inputs_named es (el_name e))).
Proof.
  intros He. unfold first.
  destruct (inputs_named es (el_name e)) as [|j c] eqn:Hnamed.
  - assert (i ∈ inputs_named es (el_name e)) as Hi.
    { apply elem_of_indices. exists e. by rewrite bool_decide_eq_true_2. }
    rewrite Hnamed in Hi. by apply elem_of_nil in Hi.
  - assert (j ∈ inputs_named es (el_name e)) as Hj by (rewrite Hnamed; by left).
    apply elem_of_indices in Hj as (e' & -> & _). by eexists.
Qed.

(** ** Superseded remote checks *)

(** A rejected deferred ignores [resolve]: the callbacks of a superseded
    pass never run. *)
Lemma resolve_rejected options d errors ks st :
  deferreds st !! d = Some (mkDeferred Rejected ks) →
  resolve options d errors st = Done tt st.
Proof. intros Hd. unfold resolve, bind, get. by rewrite Hd. Qed.

(** A new pass rejects the deferred stored on the field. *)
Lemma started_rejects el st d ks :
  stored bs_deferred (elements st) el = Some d →
  deferreds st !! d = Some (mkDeferred Pending ks) →
  deferreds (started el st) !! d = Some (mkDeferred Rejected ks).
Proof.
  intros Hstored Hd. unfold started. rewrite Hstored. simpl.
  rewrite lookup_app_l by (rewrite length_alter; by eapply lookup_lt_Some).
  by rewrite list_lookup_alter_eq, Hd.
Qed.

(** ** reset *)

(** [reset] clears the timer recorded on every field. *)
Lemma clear_timeouts l st :
  ∃ st',
    forM l (λ i, do st0 <- get; clearTimeout (stored bs_timeout (elements st0) [i])) st
    = Done tt st'
    ∧ elements st' = elements st
    ∧ groups st' = groups st
    ∧ btn_disabled st' = btn_disabled st
    ∧ (∀ id cb, timers st' !! id = Some cb → timers st !! id = Some cb)
    ∧ (∀ i id, i ∈ l → stored bs_timeout (elements st) [i] = Some id →
         timers st' !! id = None).
Proof.
  revert st. induction l as [|i l IH]; intros st.
  - exists st. repeat split; try done. by intros i id ?%elem_of_nil.
  - set (f := λ i, do st0 <- get; clearTimeout (stored bs_timeout (elements st0) [i])).
    fold f in IH.
    change (forM (i :: l) f st) with (bind (f i) (λ _, forM l f) st).
    unfold bind at 1.
    assert (f i st = Done tt match stored bs_timeout (elements st) [i] with
                             | Some t => with_timers (delete t) st
                             | None => st
                             end) as ->.
    { unfold f, bind, get, clearTimeout.
      by destruct (stored bs_timeout (elements st) [i]). }
    destruct (stored bs_timeout (elements st) [i]) as [t|] eqn:Ht.
    + destruct (IH (with_timers (delete t) st))
        as (st' & -> & Hes & Hgs & Hbtn & Hsub & Hcleared).
      exists st'. repeat split; try done.
      * intros id cb Hid. apply Hsub in Hid. simpl in Hid.
        by apply lookup_delete_Some in Hid as [_ ?].
      * intros j id [->|Hj]%elem_of_cons Hstored.
        -- rewrite Ht in Hstored. injection Hstored as ->.
           destruct (timers st' !! id) as [cb|] eqn:Hid; [|done].
           apply Hsub in Hid. simpl in Hid. by rewrite lookup_delete_eq in Hid.
        -- by eapply Hcleared.
    + destruct (IH st) as (st' & -> & Hes & Hgs & Hbtn & Hsub & Hcleared).
      exists st'. repeat split; try done.
      intros j id [->|Hj]%elem_of_cons Hstored.
      * by rewrite Ht in Hstored.
      * by eapply Hcleared.
Qed.

(** What [reset] does, in every state: it removes the stored error list
    and deferred of every field and clears the field's timer, removes the
    markings of every group and the classes of every feedback icon, gives
    every error-display region the content saved for it, if any, and
    enables the submit control. *)
Lemma reset_clears st :
  ∃ st',
    reset st = Done tt st'
    ∧ (∀ i e, elements st' !! i = Some e → el_validated e = true →
         bs_errors (el_store e) = None ∧ bs_deferred (el_store e) = None
         ∧ ∀ id, bs_timeout (el_store e) = Some id → timers st' !! id = None)
    ∧ (∀ g G', groups st' !! g = Some G' →
         ∃ G, groups st !! g = Some G
           ∧ has_error G' = false ∧ has_danger G' = false ∧ has_success G' = false
           ∧ g_feedback G' = (λ _, mkFeedback false false) <$> g_feedback G
           ∧ g_blocks G'
             = (λ b, mkBlock (default (b_content b) (b_original b)) None) <$> g_blocks G)
    ∧ btn_disabled st' = false.
Proof.
  unfold reset, bind at 1 2, modify at 1 2.
  set (st2 := with_elements _ _).
  unfold bind at 1 2, get at 1.
  destruct (clear_timeouts (inputs (elements st2)) st2)
    as (st3 & -> & Hes & Hgs & Hbtn & Hsub & Hcleared).
  unfold bind, modify. eexists. split; [reflexivity|]. simpl.
  split; [|split; [|done]].
  - intros i e He Hvalidated. rewrite Hes in He. unfold st2 in He. simpl in He.
    rewrite lookup_update in He.
    destruct (elements st !! i) as [e0|] eqn:He0; [simpl in He|done].
    assert (i ∈ inputs (elements st)) as Hi.
    { apply elem_of_indices. exists e0. split; [done|].
      injection He as <-. by destruct (bool_decide _). }
    rewrite bool_decide_eq_true_2 in He by done. injection He as <-.
    repeat split. intros id Hid. apply (Hcleared i).
    + unfold st2. simpl. by rewrite inputs_update.
    + unfold stored, st2. simpl. rewrite lookup_update, He0. simpl.
      by rewrite bool_decide_eq_true_2.
  - intros g G'. rewrite Hgs. unfold st2. simpl.
    rewrite !list_lookup_fmap.
    destruct (groups st !! g) as [G|]; [simpl|done].
    intros [= <-]. exists G. simpl. repeat split.
    apply list_fmap_ext. intros k b _. by destruct (b_original b).
Qed.

(** ** Supersession in runs without [reset] *)

(** ** Supersession *)

Lemma fmap_update {A B} (g : A → B) el (f : A → A) (l : list A) :
  (∀ a, g (f a) = g a) → g <$> update el f l = g <$> l.
Proof.
  intros Hg. apply list_eq. intros i.
  rewrite !list_lookup_fmap, lookup_update.
  destruct (l !! i) as [a|]; [simpl|done].
  destruct (bool_decide (i ∈ el)); by rewrite ?Hg.
Qed.

#[global] Instance same_handles_preorder : PreOrder same_handles.
Proof.
  split.
  - by intros st.
  - intros s1 s2 s3 [H1 H1'] [H2 H2']. split; congruence.
Qed.

Lemma handles_lookup (es es' : list Element) i e' :
  handle <$> es' = handle <$> es → es' !! i = Some e' →
  ∃ e, es !! i = Some e ∧ handle e = handle e'.
Proof.
  intros Hh He'.
  assert ((handle <$> es) !! i = Some (handle e')) as Hi
    by (by rewrite <- Hh, list_lookup_fmap, He').
  rewrite list_lookup_fmap in Hi.
  destruct (es !! i) as [e|]; [|done].
  exists e. split; [done|]. simpl in Hi. congruence.
Qed.

Lemma same_handles_lookup st st' i e' :
  same_handles st st' → elements st' !! i = Some e' →
  ∃ e, elements st !! i = Some e ∧ handle e = handle e'.
Proof. intros [_ Hh]. by apply handles_lookup. Qed.

Lemma supersession_frame st st' :
  same_handles st st' → supersession st → supersession st'.
Proof.
  intros Hh [Hex Hsh Hcur]. split.
  - intros i j e e' He He' Ht Hn.
    destruct (same_handles_lookup _ _ _ _ Hh He) as (e0 & He0 & [= Ht0 Hn0 Hd0]).
    destruct (same_handles_lookup _ _ _ _ Hh He') as (e0' & He0' & [= Ht0' Hn0' Hd0']).
    rewrite <- Ht0'. eapply (Hex i j e0 e0'); congruence.
  - intros i j e e' He He' Ht Hn.
    destruct (same_handles_lookup _ _ _ _ Hh He) as (e0 & He0 & [= Ht0 Hn0 Hd0]).
    destruct (same_handles_lookup _ _ _ _ Hh He') as (e0' & He0' & [= Ht0' Hn0' Hd0']).
    rewrite <- Hd0, <- Hd0'. eapply (Hsh i j e0 e0'); congruence.
  - intros d D el deferErrors prevErrors i e Hd Hp Hk Hi He.
    destruct (same_handles_lookup _ _ _ _ Hh He) as (e0 & He0 & [= Ht0 Hn0 Hd0]).
    rewrite <- Hd0. destruct Hh as [Hds _]. rewrite Hds in Hd.
    by eapply Hcur.
Qed.

Ltac handles_tac :=
  split; [done|]; simpl; first [ done | by apply fmap_update ].

Section Handles.

Variable options : Options.

Lemma handles_showErrors el : keeps same_handles (showErrors options el).
Proof. unfold showErrors. keeps_with fail by handles_tac. Qed.

Lemma handles_clearErrors el : keeps same_handles (clearErrors el).
Proof. unfold clearErrors. keeps_with fail by handles_tac. Qed.

Lemma handles_toggleSubmit : keeps same_handles (toggleSubmit options).
Proof. unfold toggleSubmit. keeps_with fail by handles_tac. Qed.

Lemma handles_trigger a : keeps same_handles (trigger a).
Proof. by intros st. Qed.

Lemma handles_focusError : keeps same_handles (focusError options).
Proof. unfold focusError. keeps_with (apply handles_trigger) by handles_tac. Qed.

Lemma handles_run_callback cb : keeps same_handles (run_callback options cb).
Proof.
  destruct cb; simpl; [apply handles_showErrors|].
  unfold remote_get. keeps_with fail by handles_tac.
Qed.

Lemma handles_defer el cb : keeps same_handles (defer options el cb).
Proof.
  unfold defer, clearTimeout, setTimeout.
  keeps_with (apply handles_run_callback) by handles_tac.
Qed.

Lemma handles_run_continuation k errors :
  keeps same_handles (run_continuation options k errors).
Proof.
  destruct k; simpl; [|apply handles_toggleSubmit].
  keeps_with
    (first [ apply handles_showErrors | apply handles_clearErrors
           | apply handles_toggleSubmit | apply handles_defer
           | apply handles_trigger ]) by handles_tac.
Qed.

Lemma handles_each vs el errors : keeps same_handles (each vs el errors).
Proof.
  revert errors. induction vs as [|[key v] vs IH]; intros errors; simpl.
  - apply keeps_ret; tc_solve.
  - apply keeps_bind; [tc_solve| |auto].
    keeps_with (apply handles_trigger) by handles_tac.
Qed.

End Handles.

Section Supersession.

Variable options : Options.
Variable query : string → list nat.
Variable ToNumber : string → number.
Variable vetoes : State → option nat → bool.
Variable stack : nat.

#[local] Instance supersedes_preorder P : PreOrder (supersedes P).
Proof.
  split.
  - intros st H. exact H.
  - intros s1 s2 s3 H1 H2 H. apply H2, H1, H.
Qed.

Lemma stored_on_frame el d st st' :
  same_handles st st' → stored_on el d st → stored_on el d st'.
Proof.
  intros Hh Hon j e' Hj He'.
  destruct (same_handles_lookup _ _ _ _ Hh He') as (e & He & [= _ _ Hd]).
  rewrite <- Hd. by apply (Hon j e).
Qed.

Lemma supersedes_frame {A} el d (m : M A) :
  keeps same_handles m → keeps (supersedes (stored_on el d)) m.
Proof.
  intros Hm st [Hs Hon]. split.
  - apply (supersession_frame st); [apply Hm|done].
  - apply (stored_on_frame el d st); [apply Hm|done].
Qed.

Lemma supersedes_resolve el dn d errors :
  keeps (supersedes (stored_on el dn)) (resolve options d errors).
Proof.
  unfold resolve. apply keeps_bind; [tc_solve|apply keeps_get; tc_solve|].
  intros st. destruct (deferreds st !! d) as [[[] ks]|] eqn:Hd;
    try (apply keeps_ret; tc_solve).
  apply keeps_bind; [tc_solve| |].
  - apply keeps_modify. intros st0 [[Hex Hsh Hcur] Hon]. split; [split|]; try done.
    intros d' D el' deferErrors prevErrors i e Hd' Hp Hk Hi He. simpl in *.
    destruct (decide (d = d')) as [->|Hne].
    + rewrite list_lookup_alter_eq in Hd'.
      destruct (deferreds st0 !! d'); simpl in Hd'; [|done].
      injection Hd' as <-. done.
    + rewrite list_lookup_alter_ne in Hd' by done. by eapply Hcur.
  - intros []. apply keeps_forM; [tc_solve|]. intros k.
    apply supersedes_frame, handles_run_continuation.
Qed.

Lemma supersedes_done el d k :
  (∀ c deferErrors prevErrors, k = Validated c deferErrors prevErrors → c = el) →
  keeps (supersedes (stored_on el d)) (done_ options d k).
Proof.
  intros Hk st. unfold done_, bind, get.
  destruct (deferreds st !! d) as [[[] ks]|] eqn:Hd; try (by intros ?).
  - intros [[Hex Hsh Hcur] Hon]. split; [split|]; try done.
    intros d' D el' deferErrors prevErrors i e Hd' Hp Hin Hi He. simpl in *.
    destruct (decide (d = d')) as [<-|Hne].
    + rewrite list_lookup_alter_eq, Hd in Hd'. injection Hd' as <-. simpl in Hin.
      apply elem_of_app in Hin as [Hin|Hin%list_elem_of_singleton].
      * by eapply (Hcur d).
      * apply eq_sym, Hk in Hin as ->. by eapply Hon.
    + rewrite list_lookup_alter_ne in Hd' by done. by eapply Hcur.
  - apply (supersedes_frame el d _ (handles_run_continuation options k errors)).
Qed.

(** The members of a target share their stored deferred, and the inputs of
    a radio's name are all in the target or all out of it. *)
Lemma target_shape i st :
  supersession st →
  let es := elements st in
  let target := target_of es i in
  (∀ j e, j ∈ target → es !! j = Some e →
     bs_deferred (el_store e) = stored bs_deferred es target)
  ∧ (∀ i' j' e e', es !! i' = Some e → es !! j' = Some e' →
       el_type e = TRadio → el_name e' = el_name e → (i' ∈ target ↔ j' ∈ target)).
Proof.
  intros [Hex Hsh _] es target. unfold target, target_of, is_type, attr_name. simpl.
  fold es. destruct (es !! i) as [ei|] eqn:Hei.
  - case_bool_decide as Hti; simpl.
    + assert (∀ j, j ∈ inputs_named es (el_name ei)
                   ↔ ∃ e, es !! j = Some e ∧ el_name e = el_name ei) as Hin.
      { intros j. unfold inputs_named. rewrite elem_of_indices.
        by setoid_rewrite bool_decide_eq_true. }
      split.
      * intros j e Hj He. unfold stored, first.
        destruct (inputs_named es (el_name ei)) as [|j0 rest] eqn:Hnamed;
          [by apply elem_of_nil in Hj|].
        assert (j0 ∈ j0 :: rest) as Hj0 by (by left).
        apply Hin in Hj0 as (e0 & He0 & Hn0).
        apply Hin in Hj as (e' & He' & Hn). rewrite He0.
        assert (e' = e) as -> by congruence.
        rewrite (Hsh i j ei e), (Hsh i j0 ei e0); done.
      * intros i' j' e e' He He' Ht Hn. rewrite !Hin.
        split; intros (? & ? & ?); eexists; split; try done; congruence.
    + split.
      * intros j e Hj%list_elem_of_singleton He. subst j.
        unfold stored, first. by rewrite He.
      * intros i' j' e e' He He' Ht Hn.
        split; intros ?%list_elem_of_singleton; subst; exfalso.
        -- congruence.
        -- apply Hti. assert (e' = ei) as -> by congruence.
           exact (Hex i' i e ei He Hei Ht Hn).
  - simpl. split.
    + intros j e Hj%list_elem_of_singleton He. subst j. congruence.
    + intros i' j' e e' He He' Ht Hn.
      split; intros ?%list_elem_of_singleton; subst; congruence.
Qed.

Lemma supersedes_started i st :
  supersession st →
  let target := target_of (elements st) i in
  supersession (started target st)
  ∧ stored_on target (length (deferreds st)) (started target st).
Proof.
  intros Hs target.
  destruct (target_shape i st Hs) as [Hsame Hmember]. fold target in Hsame, Hmember.
  destruct Hs as [Hex Hsh Hcur].
  assert (∀ j e', elements (started target st) !! j = Some e' →
            ∃ e, elements st !! j = Some e
              ∧ el_type e' = el_type e ∧ el_name e' = el_name e
              ∧ bs_deferred (el_store e')
                = if bool_decide (j ∈ target) then Some (length (deferreds st))
                  else bs_deferred (el_store e)) as Hlook.
  { intros j e'. rewrite started_elements, lookup_update.
    destruct (elements st !! j) as [e|]; [simpl|done].
    intros [= <-]. exists e. by destruct (bool_decide (j ∈ target)). }
  split; [split|].
  - intros i' j' e e' He He' Ht Hn.
    apply Hlook in He as (e0 & He0 & Ht0 & Hn0 & _).
    apply Hlook in He' as (e0' & He0' & Ht0' & Hn0' & _).
    rewrite Ht0'. eapply (Hex i' j' e0 e0'); congruence.
  - intros i' j' e e' He He' Ht Hn.
    apply Hlook in He as (e0 & He0 & Ht0 & Hn0 & Hd0).
    apply Hlook in He' as (e0' & He0' & Ht0' & Hn0' & Hd0').
    rewrite Hd0, Hd0'.
    assert (i' ∈ target ↔ j' ∈ target) as Hiff
      by (eapply (Hmember i' j' e0 e0'); congruence).
    destruct (decide (i' ∈ target)) as [Hi'|Hi'].
    + by rewrite !bool_decide_eq_true_2 by tauto.
    + rewrite !bool_decide_eq_false_2 by tauto.
      eapply (Hsh i' j' e0 e0'); congruence.
  - intros d D el deferErrors prevErrors j e Hd Hp Hk Hj He.
    apply Hlook in He as (e0 & He0 & _ & _ & Hd0). rewrite Hd0.
    assert (d < length (deferreds st)) as Hlt.
    { destruct (decide (d < length (deferreds st))) as [|Hge]; [done|].
      pose proof (started_deferred target st) as Hnew.
      assert (d = length (deferreds st) ∨ length (deferreds st) < d) as [->|Hgt] by lia.
      - rewrite Hnew in Hd. injection Hd as <-. by apply elem_of_nil in Hk.
      - apply lookup_lt_Some in Hd. unfold started in Hd. simpl in Hd.
        rewrite length_app in Hd. simpl in Hd.
        destruct (stored bs_deferred (elements st) target); simpl in Hd;
          rewrite ?length_alter in Hd; lia. }
    assert (∃ D0, deferreds st !! d = Some D0 ∧ d_state D0 = Pending
                  ∧ d_done D0 = d_done D
                  ∧ stored bs_deferred (elements st) target ≠ Some d)
      as (D0 & HD0 & Hp0 & Hk0 & Hne).
    { unfold started in Hd. simpl in Hd.
      destruct (stored bs_deferred (elements st) target) as [d0|] eqn:Hd0'; simpl in Hd.
      - rewrite lookup_app_l in Hd by (by rewrite length_alter).
        destruct (decide (d0 = d)) as [->|Hne].
        + rewrite list_lookup_alter_eq in Hd.
          destruct (deferreds st !! d) as [D0|]; [simpl in Hd|done].
          injection Hd as <-. destruct (d_state D0) eqn:HD0; simpl in Hp; congruence.
        + rewrite list_lookup_alter_ne in Hd by done.
          exists D. repeat split; try done. congruence.
      - rewrite lookup_app_l in Hd by done. exists D. by repeat split. }
    rewrite <- Hk0 in Hk.
    pose proof (Hcur d D0 el deferErrors prevErrors j e0 HD0 Hp0 Hk Hj He0) as Hstored.
    case_bool_decide as Hjt; [|done].
    exfalso. apply Hne. by rewrite <- (Hsame j e0).
  - intros j e' Hj He'.
    apply Hlook in He' as (e & _ & _ & _ & ->). by rewrite bool_decide_eq_true_2.
Qed.

Lemma runValidators_result el st d st' :
  runValidators options query ToNumber el st = Done d st' → d = length (deferreds st).
Proof.
  rewrite runValidators_started. unfold bind, get, ret.
  intros Hrun. repeat case_match; congruence.
Qed.

Lemma supersedes_runValidators i st :
  supersession st →
  let target := target_of (elements st) i in
  let st' := state_of (runValidators options query ToNumber target st) in
  supersession st' ∧ stored_on target (length (deferreds st)) st'.
Proof.
  intros Hs target. simpl. rewrite runValidators_started.
  set (dn := length (deferreds st)).
  match goal with
  | |- context [state_of (?m (started target st))] =>
      assert (keeps (supersedes (stored_on target dn)) m) as Hm
  end.
  { keeps_with
      (first [ apply supersedes_frame, handles_each
             | apply supersedes_frame, handles_defer
             | apply supersedes_resolve ]) by done. }
  apply Hm. by apply supersedes_started.
Qed.

#[local] Instance sustained_preorder : PreOrder sustained.
Proof.
  split.
  - intros st H. exact H.
  - intros s1 s2 s3 H1 H2 H. apply H2, H1, H.
Qed.

Lemma sustained_frame {A} (m : M A) : keeps same_handles m → keeps sustained m.
Proof. intros Hm st Hs. apply (supersession_frame st); [apply Hm|done]. Qed.

Lemma validateInput_target i deferErrors st :
  let target := target_of (elements st) i in
  validateInput options query ToNumber vetoes [i] deferErrors st
  = (if vetoes st (head target) then ret None
     else
       do d <- runValidators options query ToNumber target;
       do_ done_ options d
             (Validated target deferErrors (stored bs_errors (elements st) [i]));
       ret (Some d))
      (with_log (λ l, l ++ [Trigger "validate.bs.validator" (head target) None]) st).
Proof. reflexivity. Qed.

(** A pass keeps the invariant, and the promise it returns is the deferred
    stored on every field of the pass. *)
Lemma supersedes_validateInput i deferErrors st :
  supersession st →
  supersession (state_of (validateInput options query ToNumber vetoes [i] deferErrors st))
  ∧ ∀ d st', validateInput options query ToNumber vetoes [i] deferErrors st = Done (Some d) st' →
      stored_on (target_of (elements st) i) d st'.
Proof.
  intros Hs.
  set (r := validateInput options query ToNumber vetoes [i] deferErrors st).
  pose proof (validateInput_target i deferErrors st) as Hr. fold r in Hr.
  clearbody r. cbv zeta in Hr.
  set (target := target_of (elements st) i) in *.
  set (st1 := with_log _ st) in Hr.
  assert (supersession st1) as Hs1 by (by apply (supersession_frame st)).
  destruct (vetoes st (head target)); [by subst r|].
  pose proof (supersedes_runValidators i st1 Hs1) as Hrun.
  simpl in Hrun. fold target in Hrun.
  unfold bind at 1 in Hr.
  destruct (runValidators options query ToNumber target st1) as [d st2|st2] eqn:Hpass;
    simpl in Hrun; [|subst r; by destruct Hrun].
  apply runValidators_result in Hpass as ->.
  match type of Hr with
  | context [done_ options ?d ?k] =>
      pose proof (supersedes_done target d k) as Hdone
  end.
  destruct (Hdone (λ c dE pE H, eq_sym (f_equal
              (λ k, match k with Validated c _ _ => c | ToggleSubmit => target end) H))
              st2 Hrun) as [Hs3 Hon].
  unfold bind in Hr. destruct (done_ _ _ _ st2) as [[] st3|st3]; subst r; [|done].
  split; [done|]. by intros d st' [= <- <-].
Qed.

Lemma sustained_validateInput i deferErrors :
  keeps sustained (validateInput options query ToNumber vetoes [i] deferErrors).
Proof. intros st Hs. by apply supersedes_validateInput. Qed.

Lemma sustained_done_toggle d : keeps sustained (done_ options d ToggleSubmit).
Proof.
  intros st Hs. apply (supersedes_done [] d ToggleSubmit); [done|].
  split; [done|]. intros j e Hj. by apply elem_of_nil in Hj.
Qed.

Lemma sustained_resolve d errors : keeps sustained (resolve options d errors).
Proof.
  intros st Hs. apply (supersedes_resolve [] d d errors).
  split; [done|]. intros j e Hj. by apply elem_of_nil in Hj.
Qed.

Ltac sustained_tac :=
  first [ apply sustained_validateInput | apply sustained_done_toggle
        | apply sustained_resolve
        | apply sustained_frame, handles_toggleSubmit
        | apply sustained_frame, handles_focusError
        | apply sustained_frame, handles_run_callback
        | lazymatch goal with
          | |- keeps _ (listener _) => apply keeps_listener
          end ].

Lemma sustained_onInput target type :
  keeps sustained (onInput options query ToNumber vetoes target type).
Proof. unfold onInput. keeps_with sustained_tac by done. Qed.

Lemma sustained_validate : keeps sustained (validate options query ToNumber vetoes).
Proof. unfold validate. keeps_with sustained_tac by done. Qed.

Lemma sustained_onSubmit : keeps sustained (onSubmit options query ToNumber vetoes).
Proof.
  unfold onSubmit. keeps_with (first [apply sustained_validate | sustained_tac]) by done.
Qed.

Lemma sustained_trigger_input fuel target :
  keeps sustained (trigger_input options query ToNumber vetoes fuel target).
Proof.
  revert target. induction fuel as [|fuel IH]; intros target; simpl.
  - apply keeps_throw; tc_solve.
  - keeps_with (first [apply IH | apply sustained_onInput]) by done.
Qed.

Lemma sustained_dispatch type target :
  keeps sustained (dispatch options query ToNumber vetoes stack type target).
Proof.
  unfold dispatch.
  keeps_with (first [ apply sustained_trigger_input | apply sustained_onInput
                    | sustained_tac ]) by done.
Qed.

Lemma sustained_Validator : keeps sustained (Validator options query ToNumber vetoes).
Proof.
  unfold Validator.
  keeps_with (first [apply sustained_onInput | sustained_tac]) by done.
Qed.

Lemma sustained_fire id : keeps sustained (fire options id).
Proof.
  unfold fire.
  keeps_with sustained_tac
    by (intros Hs; eapply supersession_frame; [|exact Hs]; handles_tac).
Qed.

Lemma sustained_respond id failure : keeps sustained (respond options id failure).
Proof.
  unfold respond.
  keeps_with sustained_tac
    by (intros Hs; eapply supersession_frame; [|exact Hs]; handles_tac).
Qed.

Lemma handles_edit i c st :
  same_handles st (with_elements (alter (with_control c) i) st).
Proof.
  split; [done|]. simpl. apply list_eq. intros j.
  rewrite !list_lookup_fmap. destruct (decide (i = j)) as [->|Hne].
  - rewrite list_lookup_alter_eq. by destruct (elements st !! j).
  - by rewrite list_lookup_alter_ne.
Qed.

(** Every event but the form's reset keeps the invariant. *)
Lemma supersession_step e st :
  e ≠ FormReset → supersession st →
  supersession (step options query ToNumber vetoes stack e st).
Proof.
  intros He Hs. destruct e; simpl; [| | | done | |].
  - apply (supersession_frame st); [apply handles_edit|done].
  - by apply sustained_dispatch.
  - by apply sustained_onSubmit.
  - by apply sustained_fire.
  - by apply sustained_respond.
Qed.

Lemma supersession_run evs st :
  Forall (λ e, e ≠ FormReset) evs → supersession st →
  supersession (run options query ToNumber vetoes stack evs st).
Proof.
  intros Hevs. revert st. induction Hevs as [|e evs He _ IH]; intros st Hs; [done|].
  apply IH. by apply supersession_step.
Qed.

#[local] Instance errors_outside_preorder d : PreOrder (errors_outside d).
Proof.
  split.
  - intros st. split; [done|]. intros i e e' He He' _. congruence.
  - intros s1 s2 s3 [Hh1 H1] [Hh2 H2]. split; [congruence|].
    intros i e e'' He He'' Hd.
    destruct (handles_lookup _ _ _ _ Hh2 He'') as (e' & He' & [= _ _ Hd']).
    destruct (handles_lookup _ _ _ _ Hh1 He') as (e0 & He0 & [= _ _ Hd0]).
    assert (e0 = e) as -> by congruence.
    rewrite (H2 i e' e''), (H1 i e e'); congruence.
Qed.

Lemma errors_outside_frame d st st' :
  same_handles st st' → same_errors st st' → errors_outside d st st'.
Proof.
  intros [_ Hh] Herr. split; [done|]. intros i e e' He He' _.
  specialize (Herr i). rewrite He, He' in Herr. simpl in Herr. congruence.
Qed.

Lemma outside_run_continuation d k errors st :
  (∀ el deferErrors prevErrors, k = Validated el deferErrors prevErrors →
     stored_on el d st) →
  errors_outside d st (state_of (run_continuation options k errors st)).
Proof.
  intros Hk. destruct k as [el deferErrors prevErrors|].
  2:{ apply errors_outside_frame;
        [apply handles_run_continuation|apply errors_toggleSubmit]. }
  split; [apply (handles_run_continuation options)|].
  intros i e e' He He' Hd.
  unfold run_continuation, bind at 1, modify at 1 in He'.
  set (st1 := with_elements _ st) in He'.
  match type of He' with
  | elements (state_of (?m st1)) !! i = _ => assert (keeps same_errors m) as Hm
  end.
  { keeps_with
      (first [ apply errors_showErrors | apply errors_clearErrors
             | apply errors_toggleSubmit | apply errors_defer_showErrors
             | apply errors_trigger ]) by done. }
  specialize (Hm st1 i). rewrite He' in Hm. simpl in Hm.
  rewrite lookup_update, He in Hm. simpl in Hm.
  destruct (decide (i ∈ el)) as [Hi|Hi].
  - destruct Hd. by apply (Hk el deferErrors prevErrors eq_refl i e).
  - rewrite bool_decide_eq_false_2 in Hm by done. congruence.
Qed.

Lemma outside_continuations d ks errors st :
  (∀ el deferErrors prevErrors, Validated el deferErrors prevErrors ∈ ks →
     stored_on el d st) →
  errors_outside d st
    (state_of (forM ks (λ k, run_continuation options k errors) st)).
Proof.
  revert st. induction ks as [|k ks IH]; intros st Hks; [done|].
  simpl. unfold bind.
  assert (errors_outside d st (state_of (run_continuation options k errors st))) as Hk.
  { apply outside_run_continuation. intros el dE pE ->. apply (Hks el dE pE). by left. }
  destruct (run_continuation options k errors st) as [[] st1|st1]; [|done].
  simpl in Hk. etrans; [exact Hk|]. apply IH.
  intros el dE pE Hel j e1 Hj He1.
  destruct (handles_lookup _ _ _ _ (proj1 Hk) He1) as (e & He & [= _ _ Hd]).
  rewrite <- Hd. apply (Hks el dE pE (list_elem_of_further _ _ _ Hel) j e Hj He).
Qed.

(** Under the invariant, resolving [d] leaves the error list of every field
    that does not store [d] as it is. *)
Lemma outside_resolve d errors st :
  supersession st →
  errors_outside d st (state_of (resolve options d errors st)).
Proof.
  intros [_ _ Hcur]. unfold resolve, bind at 1, get.
  destruct (deferreds st !! d) as [[[] ks]|] eqn:Hd; try reflexivity.
  unfold bind, modify.
  apply (outside_continuations d ks errors
           (with_deferreds (alter (λ _, mkDeferred (Resolved errors) ks) d) st)).
  intros el dE pE Hel j e Hj He. by apply (Hcur d _ el dE pE j e Hd).
Qed.

(** Before any pass no deferred exists. *)
Lemma supersession_fresh st :
  deferreds st = [] →
  (∀ i j e e', elements st !! i = Some e → elements st !! j = Some e' →
     el_type e = TRadio → el_name e' = el_name e →
     el_type e' = TRadio
     ∧ bs_deferred (el_store e') = bs_deferred (el_store e)) →
  supersession st.
Proof.
  intros Hds Hes. split.
  - intros i j e e' He He' Ht Hn. by apply (Hes i j e e').
  - intros i j e e' He He' Ht Hn. by apply (Hes i j e e').
  - intros d D el dE pE i e Hd. by rewrite Hds in Hd.
Qed.

(** In a run without [reset], the response to a remote check changes the
    stored error list of no field whose stored deferred, the one of the
    pass most recently started on the field, is another one. *)
Theorem superseded_response_discarded evs st0 id failure rq i e e' :
  supersession st0 → Forall (λ ev, ev ≠ FormReset) evs →
  let st := run options query ToNumber vetoes stack evs st0 in
  requests st !! id = Some rq →
  elements st !! i = Some e →
  elements (step options query ToNumber vetoes stack (Response id failure) st) !! i = Some e' →
  bs_deferred (el_store e) ≠ Some (rq_deferred rq) →
  bs_errors (el_store e') = bs_errors (el_store e).
Proof.
  intros Hs0 Hevs st Hrq He He' Hd.
  assert (supersession st) as Hs by (by apply supersession_run).
  clearbody st. simpl in He'.
  unfold respond, bind at 1, get in He'. rewrite Hrq in He'.
  unfold bind at 1, modify in He'.
  set (st1 := with_requests _ st) in He'.
  assert (supersession st1) as Hs1.
  { apply (supersession_frame st); [|done]. by split. }
  assert (∀ errors,
            elements (state_of (resolve options (rq_deferred rq) errors st1)) !! i = Some e' →
            bs_errors (el_store e') = bs_errors (el_store e)) as Hresolve.
  { intros errors He1.
    destruct (outside_resolve (rq_deferred rq) errors st1 Hs1) as [_ Hout].
    by apply (Hout i e e'). }
  destruct failure as [error|]; [|by apply (Hresolve _ He')].
  destruct (getErrorMessage (elements st) (rq_el rq) "remote") as [m|];
    [by apply (Hresolve _ He')|].
  change (elements st !! i = Some e') in He'. congruence.
Qed.

End Supersession.

(** The sample form with the remote check: two passes, the second of
    which supersedes the first, and the late response to the first
    request, whose deferred is no longer the stored one. *)
Example user_form_supersession :
  let step := step Sample.no_delay Sample.no_target Sample.numeral Sample.nobody 1 in
  let st := run Sample.no_delay Sample.no_target Sample.numeral Sample.nobody 1
              [Dom "input" 0; Dom "input" 0] Sample.user_form in
  supersession st
  ∧ (rq_deferred <$> requests st !! 0) = Some 0
  ∧ stored bs_deferred (elements st) [0] = Some 1
  ∧ ∀ e e', elements st !! 0 = Some e →
      elements (step (Response 0 (Some "Not Found")) st) !! 0 = Some e' →
      bs_errors (el_store e') = bs_errors (el_store e).
Proof.
  intros step st.
  assert (supersession Sample.user_form) as Hfresh.
  { apply supersession_fresh; [done|].
    intros [|i] j e e' He He' Ht Hn; simpl in He; [|done].
    injection He as <-. done. }
  assert (Forall (λ ev, ev ≠ FormReset) [Dom "input" 0; Dom "input" 0]) as Hevs
    by (by repeat constructor).
  split; [by apply supersession_run|].
  split; [by vm_compute|]. split; [by vm_compute|].
  intros e e' He He'.
  set (rq := mkRequest (JStr "/check") "user" (JStr "x") [0] 0 []).
  assert (requests st !! 0 = Some rq) as Hrq by (by vm_compute).
  apply (superseded_response_discarded Sample.no_delay Sample.no_target Sample.numeral
             Sample.nobody 1 [Dom "input" 0; Dom "input" 0] Sample.user_form
             0 (Some "Not Found") rq 0 e e' Hfresh Hevs Hrq He He').
  vm_compute in He. injection He as <-. by vm_compute.
Defined.

(** ** The regions in forms with one region per field *)

Lemma indices_from_fmap {A B} (Q : B → bool) (f : A → B) n (l : list A) :
  indices_from (Q ∘ f) n l = indices_from Q n (f <$> l).
Proof. revert n. induction l as [|a l IH]; intros n; [done|simpl]. by rewrite IH. Qed.

#[global] Instance same_layout_preorder : PreOrder same_layout.
Proof.
  split.
  - by intros st.
  - intros s1 s2 s3 [H1 H1'] [H2 H2']. split; congruence.
Qed.

#[global] Instance same_regions_preorder : PreOrder same_regions.
Proof.
  split.
  - by intros st.
  - intros s1 s2 s3 (H1 & H1' & H1'' & H1''') (H2 & H2' & H2'' & H2''').
    split; [by etrans|]. repeat split; congruence.
Qed.

#[global] Instance upholds_preorder st0 : PreOrder (upholds st0).
Proof.
  split.
  - intros st H. exact H.
  - intros s1 s2 s3 H1 H2 H. apply H2, H1, H.
Qed.

(** What a collection reaches depends on the layout only. *)
Lemma layout_lookup (es es' : list Element) i :
  layout <$> es' = layout <$> es →
  layout <$> es' !! i = layout <$> es !! i.
Proof. intros Hl. by rewrite <- !list_lookup_fmap, Hl. Qed.

Lemma layout_target_of (es es' : list Element) i :
  layout <$> es' = layout <$> es → target_of es' i = target_of es i.
Proof.
  intros Hl. unfold target_of, is_type, attr_name, inputs_named, indices. simpl.
  pose proof (layout_lookup es es' i Hl) as Hi.
  change (λ e, bool_decide (el_name e = ?n))
    with ((λ p : input_type * string * option nat, bool_decide (p.1.2 = n)) ∘ layout).
  destruct (es' !! i) as [e'|], (es !! i) as [e|]; simpl in Hi; [|done..].
  unfold layout in Hi. injection Hi as Ht Hn _. rewrite Ht, Hn.
  destruct (bool_decide _); [|done]. simpl.
  change (λ e0, bool_decide (el_name e0 = el_name e))
    with ((λ p : input_type * string * option nat, bool_decide (p.1.2 = el_name e)) ∘ layout).
  by rewrite !indices_from_fmap, Hl.
Qed.

Lemma layout_closest (es es' : list Element) (gs gs' : list Group) el :
  layout <$> es' = layout <$> es → length gs' = length gs →
  closest es' gs' el = closest es gs el.
Proof.
  intros Hl Hlen. unfold closest. rewrite Hlen.
  assert (∀ g i, match es' !! i with
                 | Some e => bool_decide (el_group e = Some g)
                 | None => false
                 end
                 = match es !! i with
                   | Some e => bool_decide (el_group e = Some g)
                   | None => false
                   end) as Hi.
  { intros g i. pose proof (layout_lookup es es' i Hl) as Hi.
    destruct (es' !! i) as [e'|], (es !! i) as [e|]; simpl in Hi; [|done..].
    unfold layout in Hi. injection Hi as _ _ Hg. by rewrite Hg. }
  apply list_filter_iff. intros g.
  replace (existsb (λ i, match es' !! i with
                         | Some e => bool_decide (el_group e = Some g)
                         | None => false
                         end) el)
    with (existsb (λ i, match es !! i with
                        | Some e => bool_decide (el_group e = Some g)
                        | None => false
                        end) el); [done|].
  induction el as [|i el IH]; [done|]. simpl. by rewrite Hi, IH.
Qed.

Lemma blocks_of_cons (gs : list Group) g group :
  blocks_of gs (g :: group)
  = match gs !! g with Some G => g_blocks G | None => [] end ++ blocks_of gs group.
Proof. done. Qed.

Lemma layout_blocks_of (gs gs' : list Group) group :
  length ∘ g_blocks <$> gs' = length ∘ g_blocks <$> gs →
  length (blocks_of gs' group) = length (blocks_of gs group).
Proof.
  intros Hl. induction group as [|g group IH]; [done|].
  rewrite !blocks_of_cons, !length_app, IH. f_equal.
  assert (length ∘ g_blocks <$> gs' !! g = length ∘ g_blocks <$> gs !! g) as Hg
    by (by rewrite <- !list_lookup_fmap, Hl).
  destruct (gs' !! g), (gs !! g); simpl in Hg; try done. by injection Hg.
Qed.

Lemma narrow_layout st st' el : same_layout st st' → narrow st el → narrow st' el.
Proof.
  intros [Hes Hgs]. unfold narrow.
  rewrite (layout_closest (elements st) (elements st') (groups st) (groups st'))
    by (try done; by rewrite <- (length_fmap (length ∘ g_blocks)), Hgs, length_fmap).
  by rewrite (layout_blocks_of (groups st) (groups st')).
Qed.

(** A form group of a collection with at most one region holds no region,
    or the first and only one. *)
Lemma narrow_block (gs : list Group) group g G :
  length (blocks_of gs group) ≤ 1 → g ∈ group → gs !! g = Some G →
  g_blocks G = [] ∨ ∃ b, g_blocks G = [b] ∧ first_block gs group = Some b.
Proof.
  unfold first_block.
  induction group as [|g' group IH]; intros Hlen Hg HG; [by apply elem_of_nil in Hg|].
  rewrite blocks_of_cons in *. rewrite length_app in Hlen.
  apply elem_of_cons in Hg as [->|Hg].
  - rewrite HG in *. destruct (g_blocks G) as [|b [|b' bs]]; [by left| |simpl in Hlen; lia].
    right. by exists b.
  - destruct IH as [?|(b & Hb & Hhead)]; [lia|done|done|by left|].
    right. exists b. split; [done|].
    destruct (match gs !! g' with Some G' => g_blocks G' | None => [] end) as [|b' bs];
      [done|].
    destruct (blocks_of gs group) as [|? ?]; [done|]. simpl in Hlen. lia.
Qed.

Lemma originals_update group (f : Group → Group) (gs : list Group) :
  (∀ g G, g ∈ group → gs !! g = Some G →
     original <$> g_blocks (f G) = original <$> g_blocks G) →
  originals (update group f gs) = originals gs.
Proof.
  intros Hf. apply list_eq. intros g. unfold originals.
  rewrite !list_lookup_fmap, lookup_update.
  destruct (gs !! g) as [G|] eqn:HG; [simpl|done].
  case_bool_decide; [|done]. f_equal. by apply (Hf g).
Qed.

Lemma layout_update_groups group (f : Group → Group) (st : State) :
  (∀ G, length (g_blocks (f G)) = length (g_blocks G)) →
  same_layout st (with_groups (update group f) st).
Proof.
  intros Hf. split; [done|]. simpl. apply fmap_update. intros G. simpl. apply Hf.
Qed.

Lemma originals_classes group (f : Group → Group) (gs : list Group) :
  (∀ G, g_blocks (f G) = g_blocks G) →
  originals (update group f gs) = originals gs.
Proof. intros Hf. apply originals_update. intros g G _ _. by rewrite Hf. Qed.

(** Saving the original content and showing the error list, on at most
    one region. *)
Lemma originals_shown (gs : list Group) group list :
  length (blocks_of gs group) ≤ 1 →
  let save (b : Block) :=
    match first_block gs group with
    | Some b0 =>
        match b_original b0 with
        | None => mkBlock (b_content b) (Some (b_content b0))
        | Some _ => b
        end
    | None => b
    end in
  originals (update group (with_blocks (λ b, mkBlock list (b_original b)))
               (update group (with_blocks save) gs))
  = originals gs.
Proof.
  intros Hnarrow save.
  rewrite originals_update.
  - apply originals_update. intros g G Hg HG. simpl.
    destruct (narrow_block gs group g G Hnarrow Hg HG) as [->|(b & -> & Hb)]; [done|].
    simpl. unfold save, original. rewrite ?Hb. by destruct b as [c []].
  - intros g G1 Hg. rewrite lookup_update, bool_decide_eq_true_2 by done.
    destruct (gs !! g) as [G|] eqn:HG; [|done]. intros [= <-]. simpl.
    destruct (narrow_block gs group g G Hnarrow Hg HG) as [->|(b & -> & Hb)]; [done|].
    simpl. unfold save, original. rewrite ?Hb. by destruct b as [c []].
Qed.

(** Putting the original content back, on at most one region. *)
Lemma originals_cleared (gs : list Group) group :
  length (blocks_of gs group) ≤ 1 →
  let restore (b : Block) :=
    match first_block gs group with
    | Some b0 =>
        match b_original b0 with
        | Some c => mkBlock c (b_original b)
        | None => b
        end
    | None => b
    end in
  originals (update group (with_blocks restore) gs) = originals gs.
Proof.
  intros Hnarrow restore. apply originals_update. intros g G Hg HG. simpl.
  destruct (narrow_block gs group g G Hnarrow Hg HG) as [->|(b & -> & Hb)]; [done|].
  simpl. unfold restore, original. rewrite ?Hb. by destruct b as [c []].
Qed.

Section Regions.

Variable options : Options.
Variable query : string → list nat.
Variable ToNumber : string → number.
Variable vetoes : State → option nat → bool.
Variable stack : nat.

Ltac blocks_tac :=
  repeat first [ rewrite fmap_update by (intros ?; simpl; by rewrite ?length_fmap)
               | rewrite originals_classes by done ].

Lemma showErrors_regions el st :
  narrow st el → same_regions st (state_of (showErrors options el st)).
Proof.
  intros Hnarrow. unfold showErrors, bind at 1, get.
  destruct (stored bs_errors (elements st) el) as [[|error errors]|]; [done| |done].
  unfold bind, modify, ret.
  destruct (hasClass_feedback _ _); simpl;
    (split; [split; [done|]; simpl; by blocks_tac|]);
    (split; [|done]); simpl; blocks_tac; by apply originals_shown.
Qed.

Lemma clearErrors_regions el st :
  narrow st el → same_regions st (state_of (clearErrors el st)).
Proof.
  intros Hnarrow. unfold clearErrors, bind, get, modify, ret.
  destruct (hasClass_feedback _ _); [destruct (truthy _)|]; simpl;
    (split; [split; [done|]; simpl; by blocks_tac|]);
    (split; [|done]); simpl; blocks_tac; by apply originals_cleared.
Qed.

Lemma regular_frame st0 st st' :
  same_regions st st' → regular st0 st → regular st0 st'.
Proof.
  intros (Hl & Ho & Ht & Hd) [Hl0 Ho0 Ht0 Hd0]. split.
  - by etrans.
  - by rewrite Ho.
  - rewrite Ht. apply Ht0.
  - rewrite Hd. apply Hd0.
Qed.

Lemma upholds_frame {A} st0 (m : M A) :
  keeps same_regions m → keeps (upholds st0) m.
Proof. intros Hm st HJ. apply (regular_frame st0 st); [apply Hm|done]. Qed.

Ltac regions_tac :=
  split; [split; simpl; first [ done | by apply fmap_update ]|]; simpl;
  split; [|done]; first [ done | by apply originals_classes ].

Lemma regions_toggleSubmit : keeps same_regions (toggleSubmit options).
Proof. unfold toggleSubmit. keeps_with fail by regions_tac. Qed.

Lemma regions_trigger a : keeps same_regions (trigger a).
Proof. by intros st. Qed.

Lemma regions_focusError : keeps same_regions (focusError options).
Proof. unfold focusError. keeps_with (apply regions_trigger) by regions_tac. Qed.

Lemma regions_remote_get el d errors : keeps same_regions (remote_get el d errors).
Proof. unfold remote_get. keeps_with fail by regions_tac. Qed.

Lemma regions_each vs el errors : keeps same_regions (each vs el errors).
Proof.
  revert errors. induction vs as [|[key v] vs IH]; intros errors; simpl.
  - apply keeps_ret; tc_solve.
  - apply keeps_bind; [tc_solve| |auto].
    keeps_with (apply regions_trigger) by regions_tac.
Qed.

(** The store of the elements is no part of the invariant. *)
Lemma regions_store el (f : Store → Store) st :
  same_regions st (with_elements (update el (with_store f)) st).
Proof. regions_tac. Qed.

Section Upholds.

Variable st0 : State.

Lemma upholds_showErrors el :
  narrow st0 el → keeps (upholds st0) (showErrors options el).
Proof.
  intros Hnarrow st HJ. apply (regular_frame st0 st); [|done].
  apply showErrors_regions. apply (narrow_layout st0); [apply (laid_out _ _ HJ)|done].
Qed.

Lemma upholds_clearErrors el :
  narrow st0 el → keeps (upholds st0) (clearErrors el).
Proof.
  intros Hnarrow st HJ. apply (regular_frame st0 st); [|done].
  apply clearErrors_regions. apply (narrow_layout st0); [apply (laid_out _ _ HJ)|done].
Qed.

Lemma upholds_run_callback cb :
  (∀ el, cb = ShowErrorsCb el → narrow st0 el) →
  keeps (upholds st0) (run_callback options cb).
Proof.
  intros Hcb. destruct cb as [el|el d errors]; simpl.
  - by apply upholds_showErrors, Hcb.
  - apply upholds_frame, regions_remote_get.
Qed.

Lemma upholds_timers (f : gmap nat callback → gmap nat callback) st :
  (∀ id el, f (timers st) !! id = Some (ShowErrorsCb el) →
     timers st !! id = Some (ShowErrorsCb el) ∨ narrow st0 el) →
  upholds st0 st (with_timers f st).
Proof.
  intros Hf [Hl Ho Ht Hd]. split; try done. simpl.
  intros id el Hid. destruct (Hf id el Hid) as [?|?]; [by eapply Ht|done].
Qed.

Lemma upholds_clearTimeout id : keeps (upholds st0) (clearTimeout id).
Proof.
  destruct id as [t|]; simpl; [|apply keeps_ret; tc_solve].
  apply keeps_modify. intros st. apply upholds_timers. intros id el.
  rewrite lookup_delete. case_decide; [done|by left].
Qed.

Lemma upholds_setTimeout cb :
  (∀ c, cb = ShowErrorsCb c → narrow st0 c) →
  keeps (upholds st0) (setTimeout cb).
Proof.
  intros Hcb. unfold setTimeout.
  apply keeps_bind; [tc_solve|apply keeps_get; tc_solve|intros st].
  apply keeps_bind; [tc_solve| |intros _].
  { apply keeps_modify. intros st1. apply upholds_timers. intros id el.
    rewrite lookup_insert. case_decide; [|by left].
    intros [= ->]. right. by apply Hcb. }
  apply keeps_bind; [tc_solve| |intros _; apply keeps_ret; tc_solve].
  apply keeps_modify. by intros st1 [].
Qed.

Lemma upholds_store el (f : Store → Store) :
  keeps (upholds st0) (modify (with_elements (update el (with_store f)))).
Proof.
  apply keeps_modify. intros st HJ. apply (regular_frame st0 st); [apply regions_store|done].
Qed.

Lemma upholds_defer el cb :
  (∀ c, cb = ShowErrorsCb c → narrow st0 c) →
  keeps (upholds st0) (defer options el cb).
Proof.
  intros Hcb. unfold defer. case_bool_decide; [by apply upholds_run_callback|].
  keeps_with (first [ apply upholds_clearTimeout | by apply upholds_setTimeout
                    | apply upholds_store ]) by fail.
Qed.

Ltac upholds_tac :=
  first [ apply upholds_store
        | apply upholds_frame, regions_toggleSubmit
        | apply upholds_frame, regions_trigger
        | apply upholds_frame, regions_focusError ].

Lemma upholds_run_continuation k errors :
  (∀ el deferErrors prevErrors, k = Validated el deferErrors prevErrors →
     narrow st0 el) →
  keeps (upholds st0) (run_continuation options k errors).
Proof.
  intros Hk. destruct k as [el deferErrors prevErrors|]; simpl;
    [|apply upholds_frame, regions_toggleSubmit].
  specialize (Hk el deferErrors prevErrors eq_refl).
  keeps_with (first [ upholds_tac
                    | by apply upholds_showErrors
                    | by apply upholds_clearErrors
                    | apply upholds_defer; by intros c [= <-] ]) by fail.
Qed.

Lemma upholds_deferreds (f : list Deferred → list Deferred) st :
  (∀ d D el deferErrors prevErrors,
     f (deferreds st) !! d = Some D →
     Validated el deferErrors prevErrors ∈ d_done D →
     narrow st0 el
     ∨ ∃ D', deferreds st !! d = Some D'
          ∧ Validated el deferErrors prevErrors ∈ d_done D') →
  upholds st0 st (with_deferreds f st).
Proof.
  intros Hf [Hl Ho Ht Hd]. split; try done. simpl.
  intros d D el dE pE HD Hk.
  destruct (Hf d D el dE pE HD Hk) as [?|(D' & HD' & Hk')]; [done|by eapply Hd].
Qed.

(** Altering a deferred without touching its callbacks. *)
Lemma upholds_alter (h : Deferred → Deferred) d st :
  (∀ D, d_done (h D) = d_done D) →
  upholds st0 st (with_deferreds (alter h d) st).
Proof.
  intros Hh. apply upholds_deferreds. intros d' D el dE pE HD Hk. right.
  destruct (decide (d = d')) as [->|Hne].
  - rewrite list_lookup_alter_eq in HD.
    destruct (deferreds st !! d') as [D'|]; [|done].
    injection HD as <-. rewrite Hh in Hk. by exists D'.
  - rewrite list_lookup_alter_ne in HD by done. by exists D.
Qed.

Lemma upholds_resolve d errors : keeps (upholds st0) (resolve options d errors).
Proof.
  intros st HJ. unfold resolve, bind at 1, get.
  destruct (deferreds st !! d) as [[[] ks]|] eqn:HD; try done.
  unfold bind at 1, modify.
  set (st1 := with_deferreds _ st).
  assert (regular st0 st1) as HJ1.
  { apply upholds_deferreds; [|done]. intros d' D el dE pE HD' Hk. right.
    destruct (decide (d = d')) as [->|Hne].
    - rewrite list_lookup_alter_eq, HD in HD'. injection HD' as <-. by eexists.
    - rewrite list_lookup_alter_ne in HD' by done. by exists D. }
  clearbody st1.
  assert (∀ el dE pE, Validated el dE pE ∈ ks → narrow st0 el) as Hks.
  { intros el dE pE Hk. by apply (awaited _ _ HJ d _ el dE pE HD). }
  clear HD HJ. revert st1 HJ1.
  induction ks as [|k ks IH]; intros st1 HJ1; [done|].
  simpl. unfold bind.
  assert (regular st0 (state_of (run_continuation options k errors st1))) as HJ2.
  { apply upholds_run_continuation; [|done]. intros el dE pE ->.
    apply (Hks el dE pE). by left. }
  destruct (run_continuation options k errors st1) as [[] st2|st2]; [|done].
  apply IH; [|done]. intros el dE pE Hk. apply (Hks el dE pE). by right.
Qed.

Lemma upholds_done d k :
  (∀ el deferErrors prevErrors, k = Validated el deferErrors prevErrors →
     narrow st0 el) →
  keeps (upholds st0) (done_ options d k).
Proof.
  intros Hk st HJ. unfold done_, bind, get.
  destruct (deferreds st !! d) as [[[] ks]|] eqn:HD; try done.
  - unfold modify. apply upholds_deferreds; [|done].
    intros d' D el dE pE HD' Hk'.
    destruct (decide (d = d')) as [->|Hne].
    + rewrite list_lookup_alter_eq, HD in HD'. injection HD' as <-. simpl in Hk'.
      apply elem_of_app in Hk' as [Hk'|Hk'%list_elem_of_singleton].
      * right. by eexists.
      * left. by apply (Hk el dE pE).
    + rewrite list_lookup_alter_ne in HD' by done. right. by exists D.
  - by apply upholds_run_continuation.
Qed.

Lemma upholds_runValidators el : keeps (upholds st0) (runValidators options query ToNumber el).
Proof.
  unfold runValidators, reject, Deferred_new.
  keeps_with (first [ upholds_tac
                    | apply upholds_frame, regions_each
                    | apply upholds_resolve
                    | apply upholds_defer; by intros c [=] ])
    by (first [ apply upholds_alter; intros D; by destruct (d_state D)
              | apply upholds_deferreds; intros d D c dE pE HD Hk;
                apply lookup_app_Some in HD as [HD|[_ HD]];
                [right; by exists D|];
                apply list_lookup_singleton_Some in HD as [_ <-];
                by apply elem_of_nil in Hk ]).
Qed.

Hypothesis st0_tidy : tidy st0.

Lemma upholds_validateInput i deferErrors :
  keeps (upholds st0) (validateInput options query ToNumber vetoes [i] deferErrors).
Proof.
  intros st HJ. rewrite validateInput_target.
  assert (narrow st0 (target_of (elements st) i)) as Hnarrow.
  { rewrite (layout_target_of (elements st0) (elements st))
      by apply (laid_out _ _ HJ).
    apply st0_tidy. }
  set (target := target_of (elements st) i) in *. clearbody target.
  set (st1 := with_log _ st).
  assert (regular st0 st1) as HJ1 by (by apply (regular_frame st0 st)).
  clearbody st1. revert st1 HJ1.
  change (keeps (upholds st0)
            (if vetoes st (head target) then ret None
             else
               do d <- runValidators options query ToNumber target;
               do_ done_ options d
                     (Validated target deferErrors (stored bs_errors (elements st) [i]));
               ret (Some d))).
  keeps_with (first [ apply upholds_runValidators
                    | apply upholds_done; by intros c dE pE [= <-] ]) by fail.
Qed.

Ltac upholds_events :=
  first [ apply upholds_validateInput
        | apply upholds_done; by intros c dE pE [=]
        | apply upholds_resolve
        | upholds_tac
        | lazymatch goal with
          | |- keeps _ (listener _) => apply keeps_listener
          end ].

Lemma upholds_onInput target type :
  keeps (upholds st0) (onInput options query ToNumber vetoes target type).
Proof. unfold onInput. keeps_with upholds_events by fail. Qed.

Lemma upholds_validate : keeps (upholds st0) (validate options query ToNumber vetoes).
Proof. unfold validate. keeps_with upholds_events by fail. Qed.

Lemma upholds_onSubmit : keeps (upholds st0) (onSubmit options query ToNumber vetoes).
Proof.
  unfold onSubmit. keeps_with (first [apply upholds_validate | upholds_events]) by fail.
Qed.

Lemma upholds_trigger_input fuel target :
  keeps (upholds st0) (trigger_input options query ToNumber vetoes fuel target).
Proof.
  revert target. induction fuel as [|fuel IH]; intros target; simpl.
  - apply keeps_throw; tc_solve.
  - keeps_with (first [apply IH | apply upholds_onInput]) by fail.
Qed.

Lemma upholds_dispatch type target :
  keeps (upholds st0) (dispatch options query ToNumber vetoes stack type target).
Proof.
  unfold dispatch.
  keeps_with (first [ apply upholds_trigger_input | apply upholds_onInput
                    | upholds_events ]) by fail.
Qed.

Lemma upholds_Validator : keeps (upholds st0) (Validator options query ToNumber vetoes).
Proof.
  unfold Validator.
  keeps_with (first [apply upholds_onInput | upholds_events]) by fail.
Qed.

Lemma upholds_fire id : keeps (upholds st0) (fire options id).
Proof.
  intros st HJ. unfold fire, bind at 1, get.
  destruct (timers st !! id) as [cb|] eqn:Hcb; [|done].
  unfold bind, modify.
  apply upholds_run_callback.
  - intros el ->. by apply (timed _ _ HJ id).
  - apply upholds_timers; [|done]. intros id' el.
    rewrite lookup_delete. case_decide; [done|by left].
Qed.

Lemma upholds_respond id failure : keeps (upholds st0) (respond options id failure).
Proof.
  unfold respond.
  keeps_with upholds_events by (by intros []).
Qed.

Lemma regions_fmap (h : Group → Group) st :
  (∀ G, original <$> g_blocks (h G) = original <$> g_blocks G) →
  same_regions st (with_groups (fmap h) st).
Proof.
  intros Hh. split; [split; [done|]|split; [|done]]; simpl.
  - rewrite <- list_fmap_compose. apply list_fmap_ext. intros g G _. simpl.
    by rewrite <- (length_fmap original), Hh, length_fmap.
  - unfold originals. rewrite <- list_fmap_compose. apply list_fmap_ext.
    intros g G _. apply Hh.
Qed.

Lemma upholds_reset : keeps (upholds st0) reset.
Proof.
  unfold reset.
  keeps_with (first [ apply upholds_clearTimeout | apply upholds_store ])
    by (first [ by intros []
              | intros HJ; eapply regular_frame; [|exact HJ];
                first [ apply regions_store
                      | apply regions_fmap; intros G; simpl; try done;
                        rewrite <- list_fmap_compose; apply list_fmap_ext;
                        intros k b _; simpl; by destruct b as [c []] ] ]).
Qed.

Lemma upholds_edit i c st :
  upholds st0 st (with_elements (alter (with_control c) i) st).
Proof.
  intros HJ. apply (regular_frame st0 st); [|done].
  split; [split; [|done]|done]. simpl. apply list_eq. intros j.
  rewrite !list_lookup_fmap. destruct (decide (i = j)) as [->|Hne].
  - rewrite list_lookup_alter_eq. by destruct (elements st !! j).
  - by rewrite list_lookup_alter_ne.
Qed.

(** Every event keeps the invariant. *)
Lemma regular_step e st :
  regular st0 st → regular st0 (step options query ToNumber vetoes stack e st).
Proof.
  intros HJ. destruct e; simpl.
  - by apply upholds_edit.
  - by apply upholds_dispatch.
  - by apply upholds_onSubmit.
  - by apply upholds_reset.
  - by apply upholds_fire.
  - by apply upholds_respond.
Qed.

Lemma regular_run evs st :
  regular st0 st → regular st0 (run options query ToNumber vetoes stack evs st).
Proof.
  revert st. induction evs as [|e evs IH]; intros st HJ; [done|].
  apply IH. by apply regular_step.
Qed.

End Upholds.

(** What the regions show after [reset] is what it had to put back. *)
Lemma reset_contents st :
  contents (groups (state_of (reset st))) = originals (groups st).
Proof.
  unfold reset, bind at 1 2, modify at 1 2.
  set (st2 := with_elements _ _).
  unfold bind at 1 2, get at 1.
  destruct (clear_timeouts (inputs (elements st2)) st2)
    as (st3 & -> & _ & Hgs & _).
  unfold bind, modify. simpl. rewrite Hgs. unfold st2. simpl.
  unfold contents, originals. rewrite <- !list_fmap_compose.
  apply list_fmap_ext. intros g G _. simpl. rewrite <- list_fmap_compose.
  apply list_fmap_ext. intros k b _. simpl. by destruct b as [c []].
Qed.

(** On a page that shows its regions as loaded, holds no timer and no
    deferred, and gives every field at most one region, [reset] after any
    events puts back what the page showed. *)
Theorem reset_restores_regions evs st0 :
  originals (groups st0) = contents (groups st0) →
  timers st0 = ∅ → deferreds st0 = [] → tidy st0 →
  contents (groups (run options query ToNumber vetoes stack (evs ++ [FormReset]) st0))
  = contents (groups st0).
Proof.
  intros Ho Ht Hd Htidy. unfold run. rewrite foldl_app. simpl.
  rewrite reset_contents. apply (restorable st0).
  apply regular_run; [done|]. split; try done.
  - by rewrite Ht.
  - by rewrite Hd.
Qed.


End Regions.

(** The sign-up form gives each of its two fields one region; the form
    with two regions in one form group does not. *)
Example signup_regions :
  tidy (Sample.signup "abc" "y")
  ∧ ¬ tidy Sample.name_form
  ∧ ∀ evs,
      contents (groups (run Sample.DEFAULTS Sample.by_id Sample.numeral Sample.nobody 1
                          (evs ++ [FormReset]) (Sample.signup "abc" "y")))
      = contents (groups (Sample.signup "abc" "y")).
Proof.
  assert (tidy (Sample.signup "abc" "y")) as Htidy.
  { intros [|[|i]]; vm_compute; lia. }
  split; [done|]. split.
  - intros H. specialize (H 0). vm_compute in H. lia.
  - intros evs. by apply reset_restores_regions.
Defined.

(** ** Events on the target of [data-match] *)

#[global] Instance same_attributes_preorder : PreOrder same_attributes.
Proof.
  split; [done|]. intros st1 st2 st3 H1 H2. unfold same_attributes in *. congruence.
Qed.

Lemma dependents_attributes query (es es' : list Element) target :
  el_data <$> es' = el_data <$> es →
  dependents query es' target = dependents query es target.
Proof.
  intros Hes. unfold dependents, indices.
  change (λ e : Element, match el_data e !! "match" with
                         | Some t => bool_decide (target ∈ jq query t)
                         | None => false
                         end)
    with ((λ d : gmap string jsval, match d !! "match" with
                                    | Some t => bool_decide (target ∈ jq query t)
                                    | None => false
                                    end) ∘ el_data).
  by rewrite !indices_from_fmap, Hes.
Qed.

Ltac attributes_tac :=
  unfold same_attributes; simpl; first [ done | by apply fmap_update ].

Section Attributes.

Variable options : Options.
Variable query : string → list nat.
Variable ToNumber : string → number.
Variable vetoes : State → option nat → bool.
Variable stack : nat.

Lemma attributes_showErrors el : keeps same_attributes (showErrors options el).
Proof. unfold showErrors. keeps_with fail by attributes_tac. Qed.

Lemma attributes_clearErrors el : keeps same_attributes (clearErrors el).
Proof. unfold clearErrors. keeps_with fail by attributes_tac. Qed.

Lemma attributes_toggleSubmit : keeps same_attributes (toggleSubmit options).
Proof. unfold toggleSubmit. keeps_with fail by attributes_tac. Qed.

Lemma attributes_trigger a : keeps same_attributes (trigger a).
Proof. by intros st. Qed.

Lemma attributes_run_callback cb : keeps same_attributes (run_callback options cb).
Proof.
  destruct cb; simpl; [apply attributes_showErrors|].
  unfold remote_get. keeps_with fail by attributes_tac.
Qed.

Lemma attributes_defer el cb : keeps same_attributes (defer options el cb).
Proof.
  unfold defer, clearTimeout, setTimeout.
  keeps_with (apply attributes_run_callback) by attributes_tac.
Qed.

Ltac attributes_steps :=
  first [ apply attributes_showErrors | apply attributes_clearErrors
        | apply attributes_toggleSubmit | apply attributes_defer
        | apply attributes_trigger ].

Lemma attributes_run_continuation k errors :
  keeps same_attributes (run_continuation options k errors).
Proof. destruct k; simpl; keeps_with attributes_steps by attributes_tac. Qed.

Lemma attributes_each vs el errors : keeps same_attributes (each vs el errors).
Proof.
  revert errors. induction vs as [|[key v] vs IH]; intros errors; simpl.
  - apply keeps_ret; tc_solve.
  - apply keeps_bind; [tc_solve| |auto].
    keeps_with attributes_steps by attributes_tac.
Qed.

Lemma attributes_resolve d errors : keeps same_attributes (resolve options d errors).
Proof.
  unfold resolve.
  keeps_with (first [apply attributes_run_continuation | attributes_steps])
    by attributes_tac.
Qed.

Lemma attributes_done d k : keeps same_attributes (done_ options d k).
Proof.
  unfold done_.
  keeps_with (first [apply attributes_run_continuation | attributes_steps])
    by attributes_tac.
Qed.

Lemma attributes_runValidators el :
  keeps same_attributes (runValidators options query ToNumber el).
Proof.
  unfold runValidators, reject, Deferred_new.
  keeps_with (first [apply attributes_each | apply attributes_resolve | attributes_steps])
    by attributes_tac.
Qed.

Lemma attributes_validateInput el deferErrors :
  keeps same_attributes (validateInput options query ToNumber vetoes el deferErrors).
Proof.
  unfold validateInput.
  keeps_with (first [ apply attributes_runValidators | apply attributes_done
                    | attributes_steps ]) by attributes_tac.
Qed.

Lemma attributes_onInput target type :
  keeps same_attributes (onInput options query ToNumber vetoes target type).
Proof.
  unfold onInput.
  keeps_with (first [ apply attributes_validateInput | apply attributes_done
                    | attributes_steps ]) by attributes_tac.
Qed.

(** The handler bound on the target for a dependent field that is the
    target of no field. *)
Lemma trigger_input_leaf fuel this st :
  dependents query (elements st) this = [] →
  trigger_input options query ToNumber vetoes (S fuel) this st
  = onInput options query ToNumber vetoes this "input" st.
Proof. intros Hthis. simpl. unfold bind at 1 2, get. by rewrite Hthis. Qed.

Lemma handlers_of_leaves fuel st0 fields st :
  same_attributes st0 st →
  (∀ this, this ∈ fields → dependents query (elements st0) this = []) →
  forM fields (λ this,
    do st' <- get;
    if truthy (getValue (elements st') [this])
    then trigger_input options query ToNumber vetoes (S fuel) this
    else ret tt) st
  = forM fields (λ this,
      do st' <- get;
      if truthy (getValue (elements st') [this])
      then onInput options query ToNumber vetoes this "input"
      else ret tt) st.
Proof.
  revert st. induction fields as [|this fields IH]; intros st Hst Hfields; [done|].
  assert (dependents query (elements st) this = []) as Hthis.
  { rewrite (dependents_attributes query (elements st0)) by done.
    apply Hfields. by left. }
  cbn [forM]. unfold bind at 1 2 4 5, get.
  destruct (truthy (getValue (elements st) [this])).
  - rewrite trigger_input_leaf by done.
    pose proof (attributes_onInput this "input" st) as Hstep.
    destruct (onInput options query ToNumber vetoes this "input" st) as [[] st1|st1];
      [|done].
    apply IH; [by etrans|]. intros this' Hin. apply Hfields. by right.
  - unfold ret at 1 3. apply IH; [done|].
    intros this' Hin. apply Hfields. by right.
Qed.

(** An [input] event on the target of fields that are themselves the
    target of no field. *)
Lemma input_on_target target st :
  0 < stack →
  (∀ this, this ∈ dependents query (elements st) target →
           dependents query (elements st) this = []) →
  state_of (dispatch options query ToNumber vetoes stack "input" target st)
  = state_of (onInput options query ToNumber vetoes target "input"
       (state_of (forM (dependents query (elements st) target) (λ this,
          do st' <- get;
          if truthy (getValue (elements st') [this])
          then onInput options query ToNumber vetoes this "input"
          else ret tt) st))).
Proof.
  intros Hstack Hleaves. destruct stack as [|fuel]; [lia|].
  unfold dispatch.
  rewrite (bool_decide_eq_true_2 ("input" = "input")) by done.
  rewrite (bool_decide_eq_true_2 ("input" ∈ _)) by (by left).
  unfold bind at 1, listener. cbn [state_of]. unfold bind at 1, get at 1.
  by rewrite (handlers_of_leaves fuel st) by done.
Qed.

End Attributes.

(** * Claims *)

(** C1, as stated, fails: on the coupon form the custom validator [a]
    throws; the pass over the coupon field then ends with the exception,
    [b] is never called and no error list is stored; a full-form
    [validate] ends there too, before it reaches the second field. *)
Lemma throwing_validator_is_not_isolated :
  let st := Sample.coupon_form in
  (∃ st',
     validateInput Sample.coupon_options Sample.no_target Sample.numeral Sample.nobody [0] false st
     = Thrown st'
     ∧ log st' = [Trigger "validate.bs.validator" (Some 0) None;
                  Call "native" [0] (Return (JBool false));
                  Call "a" [0] Raise]
     ∧ stored bs_errors (elements st') [0] = None)
  ∧ (∃ st',
       validate Sample.coupon_options Sample.no_target Sample.numeral Sample.nobody st = Thrown st'
       ∧ log st' = [Trigger "validate.bs.validator" (Some 0) None;
                    Call "native" [0] (Return (JBool false));
                    Call "a" [0] Raise]
       ∧ stored bs_errors (elements st') [1] = None).
Proof.
  split; eexists; (split; [vm_compute; reflexivity|]); split; vm_compute; reflexivity.
Qed.

(** C1, amended.  When a registered validator throws during a pass, the
    exception leaves [validateInput]: the validators that [$.each] visits
    before it have been called, those it would visit after it are not, the
    deferred of the pass stays pending with no callback, and nothing else
    changed since the pass began but the field's stored deferred: the stored
    error list of every field, the display, the submit control, the timers
    and the requests are as before.  The same holds when the exception comes
    from the look-up of the message for an error the validator gives.  The
    order of [$.each] is that of [for ... in]: the keys that are array
    indices first. *)
Theorem throwing_validator_aborts options query ToNumber vetoes el deferErrors st
        pre key validator post :
  let target :=
    if is_type (elements st) el TRadio
    then inputs_named (elements st) (attr_name (elements st) el)
    else el in
  let es := elements (started target st) in
  validators options query ToNumber = pre ++ (key, validator) :: post →
  Forall (λ kv, throws es target kv = false) pre →
  throws es target (key, validator) = true →
  vetoes st (head target) = false →
  ∃ st',
    validateInput options query ToNumber vetoes el deferErrors st = Thrown st'
    ∧ log st' = log st ++ Trigger "validate.bs.validator" (head target) None
                     :: calls es target pre ++ [Call key target (validator es target)]
    ∧ deferreds st' !! length (deferreds st) = Some (mkDeferred Pending [])
    ∧ same_errors st st'
    ∧ groups st' = groups st
    ∧ btn_disabled st' = btn_disabled st
    ∧ timers st' = timers st
    ∧ requests st' = requests st.
Proof.
  intros target es Hsplit Hpre Hthrows Hveto.
  unfold validateInput, bind at 1 2, get, trigger, modify. simpl.
  fold target. rewrite Hveto.
  set (st1 := with_log _ st).
  assert (elements (started target st1) = es) as Hes
    by (unfold es; by rewrite !started_elements).
  assert (call es target (key, validator) = [Call key target (validator es target)])
    as Hcall.
  { unfold call. apply andb_true_iff in Hthrows as [Happlies _].
    simpl in *. by rewrite Happlies. }
  unfold bind at 1. rewrite runValidators_started.
  unfold bind at 1. rewrite Hsplit.
  rewrite (each_throws es) by done. rewrite Hcall.
  destruct (started_frame target st1) as (Hgroups & Hbtn & Htimers & Hrequests).
  eexists. split; [reflexivity|]. repeat split.
  - change (log (started target st1)
              ++ calls es target pre ++ [Call key target (validator es target)]
            = log st ++ Trigger "validate.bs.validator" (head target) None
                :: calls es target pre ++ [Call key target (validator es target)]).
    rewrite started_log. simpl. by rewrite <- app_assoc.
  - exact (started_deferred target st1).
  - apply (same_errors_set_deferred target (Some (length (deferreds st)))).
    exact (started_elements target st1).
  - done.
  - done.
  - done.
  - done.
Qed.

Lemma throwing_validator_aborts_witness :
  let st := Sample.numbered_form in
  ∃ st',
    validateInput (Sample.numbered_options true) Sample.no_target Sample.numeral
      Sample.nobody [0] false st = Thrown st'
    ∧ log st' = log st ++ [Trigger "validate.bs.validator" (Some 0) None;
                           Call "7" [0] Raise]
    ∧ deferreds st' !! length (deferreds st) = Some (mkDeferred Pending [])
    ∧ same_errors st st'
    ∧ groups st' = groups st
    ∧ btn_disabled st' = btn_disabled st
    ∧ timers st' = timers st
    ∧ requests st' = requests st.
Proof.
  apply (throwing_validator_aborts (Sample.numbered_options true) Sample.no_target
           Sample.numeral Sample.nobody [0] false Sample.numbered_form
           [] "7" (λ _ _, Raise)
           (VALIDATORS Sample.no_target Sample.numeral
            ++ [("zed", λ _ _, Return (JStr "zed"))])).
  - reflexivity.
  - constructor.
  - reflexivity.
  - reflexivity.
Defined.




(** A required field that holds a no-break space is incomplete. *)
Example no_break_space_prevents_submission :
  ∃ st',
    onSubmit Sample.DEFAULTS Sample.no_target Sample.numeral Sample.nobody
      (Sample.page [Sample.text "name" true [] (Some 0) (code_units [160])]
                   [Sample.form_group [Sample.help "your name"]])
    = Done true st'
    ∧ hasErrors (elements st') = false.
Proof. eexists. split; vm_compute; reflexivity. Qed.

(** C3: the code at the failing input.  With [delay] 0 a pass over the
    field requests the remote check at once; [reset] then removes the
    stored deferred without rejecting it, so the next pass finds nothing to
    reject and two checks are outstanding.  The response to the first one
    then stores its error list on the field, although the second check is
    the most recently started and is still pending.  Without the [reset] the
    first deferred is rejected and its response changes nothing. *)
Lemma stale_remote_result_applied_after_reset :
  let go := run Sample.no_delay Sample.no_target Sample.numeral Sample.nobody 1 in
  let st := go [Dom "input" 0; FormReset; Dom "input" 0] Sample.user_form in
  let st' := go [Response 0 (Some "Not Found")] st in
  let ok := go [Dom "input" 0; Dom "input" 0] Sample.user_form in
  let ok' := go [Response 0 (Some "Not Found")] ok in
  (d_state <$> deferreds st = [Pending; Pending]
   ∧ stored bs_deferred (elements st) [0] = Some 1
   ∧ stored bs_errors (elements st) [0] = None)
  ∧ (d_state <$> deferreds st' = [Resolved [JStr "Not Found"]; Pending]
     ∧ stored bs_errors (elements st') [0] = Some [JStr "Not Found"])
  ∧ (d_state <$> deferreds ok = [Rejected; Pending]
     ∧ d_state <$> deferreds ok' = [Rejected; Pending]
     ∧ stored bs_errors (elements ok') [0] = None).
Proof. repeat split; vm_compute; reflexivity. Qed.

(** Two fields that match each other: the handler of each triggers the
    other until the call stack is exhausted. *)
Lemma mutual_match_exhausts options ToNumber vetoes fuel :
  trigger_input options Sample.by_name ToNumber vetoes fuel 0 Sample.mutual_form
  = Thrown Sample.mutual_form
  ∧ trigger_input options Sample.by_name ToNumber vetoes fuel 1 Sample.mutual_form
    = Thrown Sample.mutual_form.
Proof.
  induction fuel as [|fuel [IH0 IH1]]; [done|].
  split; cbn [trigger_input]; unfold bind at 1, get.
  - change (dependents Sample.by_name (elements Sample.mutual_form) 0) with [1].
    cbn [forM]. unfold bind at 1 2 3, get.
    change (truthy (getValue (elements Sample.mutual_form) [1])) with true.
    cbv iota. by rewrite IH1.
  - change (dependents Sample.by_name (elements Sample.mutual_form) 1) with [0].
    cbn [forM]. unfold bind at 1 2 3, get.
    change (truthy (getValue (elements Sample.mutual_form) [0])) with true.
    cbv iota. by rewrite IH0.
Qed.







(** Numerals that [.data] leaves as strings, and strings that are no
    numerals, as the sample conversion reads them. *)
Example numerals_left_as_strings :
  Sample.numeral <$> ["05"; "+5"; "1e1"; " 5 "; "0x10"; ""; "abc"; "5px"]
  = [Finite 5 1; Finite 5 1; Finite 10 1; Finite 5 1; Finite 16 1; Finite 0 1; NaN; NaN].
Proof. reflexivity. Qed.

(** C6, as stated, fails on a field that is empty and not required: its
    length 0 is below the threshold 5, and the pass calls no validator,
    stores the empty error list and announces the field valid. *)
Lemma minlength_unreported_on_empty_optional_field :
  let es := elements Sample.nick_form in
  data es [0] "minlength" = JNum 5
  ∧ val es [0] = JStr ""
  ∧ (Z.of_nat (String.length "") < 5)%Z
  ∧ ∃ st',
      validateInput Sample.DEFAULTS Sample.no_target Sample.numeral
        Sample.nobody [0] false Sample.nick_form
      = Done (Some 0) st'
      ∧ stored bs_errors (elements st') [0] = Some []
      ∧ log st' = [Trigger "validate.bs.validator" (Some 0) None;
                   Trigger "valid.bs.validator" (Some 0) None;
                   Trigger "validated.bs.validator" (Some 0) None].
Proof.
  split; [by vm_compute|]. split; [done|]. split; [done|].
  eexists. split; [vm_compute; reflexivity|]. split; vm_compute; reflexivity.
Qed.

(** C6, amended.  Take a field that has a non-empty value or is required,
    and the threshold that [.data('minlength')] reads on it.  A pass over
    the field returns its promise when no subscriber cancels it and nothing
    throws in the loop over the validators.  A pass that returns its promise
    reports the minlength error, that is it calls the [minlength] validator
    and the validator gives an error, if and only if the threshold is truthy
    and the length of the value is below it, as [<] compares them; the
    message is then in the error list stored on the field.  For a threshold
    that is a number [n] this is: the length is below [n], so that a value
    of length [n] passes; a threshold that [.data] left as a string, such as
    [05], is converted to a number by the comparison. *)
Theorem minlength_reported options query ToNumber vetoes el deferErrors st s :
  let es := elements st in
  let target :=
    if is_type es el TRadio then inputs_named es (attr_name es el) else el in
  let threshold := data es target "minlength" in
  let short := truthy threshold && js_lt_len ToNumber (String.length s) threshold in
  "minlength" ∉ (custom options).*1 →
  val es target = JStr s →
  truthy (getValue es target) = true ∨ attr_required es target = true →
  (vetoes st (head target) = false →
   Forall (λ kv, throws (elements (started target st)) target kv = false)
          (validators options query ToNumber) →
   ∃ d st', validateInput options query ToNumber vetoes el deferErrors st
            = Done (Some d) st')
  ∧ (∀ d st',
       validateInput options query ToNumber vetoes el deferErrors st = Done (Some d) st' →
       ∃ new,
         log st' = log st ++ new
         ∧ ((∃ error, truthy error = true
               ∧ Call "minlength" target (Return error) ∈ new)
            ↔ short = true)
         ∧ (short = true →
            ∃ m, message es target "minlength" (JStr "Not long enough") = Return m
              ∧ ∀ i e, i ∈ target → elements st' !! i = Some e →
                  ∃ errors, bs_errors (el_store e) = Some errors ∧ m ∈ errors))
  ∧ (∀ n, threshold = JNum n →
       short = true ↔ (Z.of_nat (String.length s) < n)%Z)
  ∧ (∀ numeral, threshold = JStr numeral → numeral ≠ "" →
       short = lt_number (String.length s) (ToNumber numeral)).
Proof.
  intros es target threshold short Hcustom Hval Hguard.
  split; [|split; [|split]].
  { intros Hveto Hvs. eexists.
    apply validateInput_completes; [done..|]. by eapply val_first. }
  2:{ intros n Hn. unfold short. rewrite Hn. simpl.
      rewrite andb_true_iff, negb_true_iff, !bool_decide_eq_true, bool_decide_eq_false.
      lia. }
  2:{ intros numeral Hn Hne. unfold short. rewrite Hn. simpl.
      by rewrite bool_decide_eq_false_2. }
  intros d st' Hpass. subst es.
  destruct (validateInput_returns _ _ _ _ _ _ _ _ _ Hpass)
    as (Hvs & (rest & Hlog & Hrest) & Hstore).
  fold target in Hvs, Hlog, Hstore.
  rewrite started_elements in Hvs, Hlog, Hstore.
  set (es1 := update target _ (elements st)) in *.
  set (vs := validators options query ToNumber) in *.
  assert (∀ w, ("minlength", w) ∈ vs ↔ w = minlength ToNumber) as Hreg.
  { intros w. unfold vs, validators. rewrite elem_of_for_in, elem_of_extend by done.
    rewrite elem_of_VALIDATORS. split.
    - by intros [[? _]|[[? _]|[_ ->]]].
    - intros ->. by right; right. }
  assert (minlength ToNumber es1 target
          = Return (if js_lt_len ToNumber (String.length s) threshold
                    then JStr "Not long enough" else JBool false)) as Hmin.
  { unfold es1. rewrite minlength_update. unfold minlength. by rewrite Hval. }
  assert (applies es1 target "minlength"
          = truthy threshold) as Happlies.
  { unfold es1. rewrite applies_update. unfold applies. fold threshold.
    rewrite orb_false_r.
    destruct Hguard as [->| ->]; simpl; by rewrite ?orb_true_r. }
  eexists. split; [exact Hlog|]. split; [split|].
  - intros (error & Herror & Hcall).
    apply elem_of_cons in Hcall as [?|Hcall]; [done|].
    apply elem_of_app in Hcall as [Hcall|Hcall]; [|by apply Hrest in Hcall].
    apply elem_of_calls in Hcall as (_ & Hk & w & Hw & Hr).
    apply Hreg in Hw as ->. rewrite Hmin in Hr. injection Hr as ->.
    unfold short. rewrite <- Happlies, Hk. simpl.
    by destruct (js_lt_len ToNumber (String.length s) threshold).
  - intros [Ht Hlt]%andb_true_iff. exists (JStr "Not long enough"). split; [done|].
    apply elem_of_cons. right. apply elem_of_app. left.
    apply elem_of_calls. split; [done|]. split; [by rewrite Happlies|].
    exists (minlength ToNumber). split; [by apply Hreg|].
    by rewrite Hmin, Hlt.
  - intros [Ht Hlt]%andb_true_iff.
    assert (minlength ToNumber es1 target = Return (JStr "Not long enough")) as Herror
      by (by rewrite Hmin, Hlt).
    assert (("minlength", minlength ToNumber) ∈ vs) as Hin by (by apply Hreg).
    rewrite <- Happlies in Ht.
    destruct (message_returns es1 target ("minlength", minlength ToNumber)
                (JStr "Not long enough"))
      as [m Hm]; [by apply (proj1 (Forall_forall _ _) Hvs)|by simpl..|].
    simpl in Hm. exists m. split.
    { rewrite <- Hm. unfold es1. by rewrite message_update. }
    assert (m ∈ foldl (push es1 target) [] vs) as Hpushed
      by (by apply (elem_of_foldl_push es1 target vs [] "minlength"
                      (minlength ToNumber) (JStr "Not long enough"))).
    intros i e Hi He. eexists. split; [|exact Hpushed].
    apply (Hstore) with (i := i); [|done|done].
    intros Hnil. rewrite Hnil in Hpushed. by apply elem_of_nil in Hpushed.
Qed.

Lemma minlength_reported_witness :
  let st := Sample.padded_form in
  lt_number (String.length "abc") (Sample.numeral "05") = true
  ∧ ∃ d st',
      validateInput Sample.DEFAULTS Sample.no_target Sample.numeral Sample.nobody
        [0] false st = Done (Some d) st'
      ∧ ∃ new,
          log st' = log st ++ new
          ∧ (∃ error, truthy error = true ∧ Call "minlength" [0] (Return error) ∈ new)
          ∧ ∀ i e, i ∈ [0] → elements st' !! i = Some e →
              ∃ errors, bs_errors (el_store e) = Some errors
                ∧ JStr "Not long enough" ∈ errors.
Proof.
  split; [reflexivity|].
  destruct (minlength_reported Sample.DEFAULTS Sample.no_target Sample.numeral
              Sample.nobody [0] false Sample.padded_form "abc")
    as (Hcompletes & Hreports & _).
  - apply not_elem_of_nil.
  - reflexivity.
  - left. reflexivity.
  - destruct Hcompletes as (d & st' & Hrun); [reflexivity| |].
    + repeat (apply Forall_cons; split; [reflexivity|]). by apply Forall_nil.
    + exists d, st'. split; [exact Hrun|].
      destruct (Hreports d st' Hrun) as (new & Hlog & Hcall & Hstored).
      exists new. split; [exact Hlog|]. split; [by apply Hcall|].
      destruct Hstored as (m & Hm & Hall); [reflexivity|].
      injection Hm as <-. exact Hall.
Defined.

(** C7: the code at the failing input.  The form group of the field holds
    two error-display regions.  [showErrors] saves the content of the first
    one as the original content of both, so after [reset] the second region
    shows the content of the first, not its own.  Where every field has at
    most one region, [reset] puts back what the page showed. *)
Lemma reset_restores_content_of_first_region :
  let go := run Sample.DEFAULTS Sample.no_target Sample.numeral Sample.nobody 1 in
  contents (groups Sample.name_form) = [[Markup "first name"; Markup "last name"]]
  ∧ contents (groups (go [Dom "focusout" 0] Sample.name_form))
    = [[ErrorList false [JStr "Not long enough"];
        ErrorList false [JStr "Not long enough"]]]
  ∧ contents (groups (go [Dom "focusout" 0; FormReset] Sample.name_form))
    = [[Markup "first name"; Markup "first name"]].
Proof. repeat split; vm_compute; reflexivity. Qed.

(** C8.  A per-field validation pass first fires the cancelable
    [validate.bs.validator] notification: the first entry it adds to the
    log is that notification, so every validator call comes after it.  If a
    subscriber cancels the notification the pass returns at once: the
    resulting state is the starting state with the notification logged, so
    the stored error lists, the display, the submit control, the timers,
    the deferreds and the requests are all unchanged. *)
Theorem validateInput_cancelable options query ToNumber vetoes el deferErrors st :
  let target :=
    if is_type (elements st) el TRadio
    then inputs_named (elements st) (attr_name (elements st) el)
    else el in
  let notification := Trigger "validate.bs.validator" (head target) None in
  (∃ rest, log (state_of (validateInput options query ToNumber vetoes el deferErrors st))
           = log st ++ notification :: rest)
  ∧ (vetoes st (head target) = true →
     validateInput options query ToNumber vetoes el deferErrors st
     = Done None (with_log (λ l, l ++ [notification]) st)).
Proof.
  intros target notification. split.
  - unfold validateInput, bind at 1 2, get, trigger, modify. simpl.
    fold target. fold notification.
    destruct (vetoes st (head target)).
    + by exists [].
    + set (st1 := with_log _ st).
      assert (keeps log_grows
                (do d <- runValidators options query ToNumber target;
                 do_ done_ options d (Validated target deferErrors
                                       (stored bs_errors (elements st) el));
                 ret (Some d))) as Hk.
      { keeps_with (first [ apply log_runValidators | apply log_done ]) by idtac. }
      destruct (Hk st1) as [l Hl]. exists l.
      rewrite Hl. unfold st1. simpl. by rewrite <- app_assoc.
  - intros Hveto.
    unfold validateInput, bind, get, trigger, modify. simpl.
    fold target. by rewrite Hveto.
Qed.

Lemma validateInput_cancelable_witness :
  validateInput Sample.DEFAULTS Sample.no_target Sample.numeral
    Sample.censor [0] true Sample.user_form
  = Done None (with_log (λ l, l ++ [Trigger "validate.bs.validator" (Some 0) None])
                        Sample.user_form).
Proof.
  apply (proj2 (validateInput_cancelable Sample.DEFAULTS Sample.no_target Sample.numeral
                  Sample.censor [0] true Sample.user_form)).
  reflexivity.
Defined.


(** [$el.is('[type="t"]')]: some member has the type. *)
Lemma is_type_true es el t :
  is_type es el t = true ↔ ∃ j e, j ∈ el ∧ es !! j = Some e ∧ el_type e = t.
Proof.
  unfold is_type. rewrite existsb_exists. split.
  - intros (j & Hj%list_elem_of_In & Ht).
    destruct (es !! j) as [e|] eqn:He; [|done].
    apply bool_decide_eq_true in Ht. by exists j, e.
  - intros (j & e & Hj%list_elem_of_In & He & Ht). exists j. split; [done|].
    rewrite He. by apply bool_decide_eq_true.
Qed.



(** C10.  With [delay] 0, [defer] calls its callback synchronously and
    creates no timer: deferred error display is immediate display, and the
    remote check is requested at once. *)
Theorem defer_without_delay options el cb st :
  delay options = 0 →
  defer options el cb st = run_callback options cb st
  ∧ same_timers st (state_of (defer options el cb st))
  ∧ (∀ prevErrors errors,
       run_continuation options (Validated el true prevErrors) errors st
       = run_continuation options (Validated el false prevErrors) errors st)
  ∧ (∀ d errors,
       requests (state_of (defer options el (RemoteCb el d errors) st)) !! next_request st
       = Some (mkRequest (data (elements st) el "remote") (attr_name (elements st) el)
                         (getValue (elements st) el) el d errors)).
Proof.
  intros Hdelay.
  assert (∀ el cb, defer options el cb = run_callback options cb) as Hdefer.
  { intros el' cb'. unfold defer. by rewrite Hdelay. }
  split; [by rewrite Hdefer|]. split; [|split].
  - rewrite Hdefer. apply timers_run_callback.
  - intros prevErrors errors. simpl. by rewrite Hdefer.
  - intros d errors. rewrite Hdefer. simpl.
    unfold remote_get, bind, get, modify. simpl. apply lookup_insert_eq.
Qed.

Lemma defer_without_delay_witness :
  defer Sample.no_delay [0] (RemoteCb [0] 0 []) Sample.user_form
  = run_callback Sample.no_delay (RemoteCb [0] 0 []) Sample.user_form.
Proof.
  apply (defer_without_delay Sample.no_delay [0] (RemoteCb [0] 0 []) Sample.user_form).
  reflexivity.
Defined.

(** * Further properties of the validator *)

(** ** The error list of a pass *)

Section ErrorList.

Variables (es : list Element) (el : list nat).

Lemma NoDup_push errors kv : NoDup errors → NoDup (push es el errors kv).
Proof.
  intros Hnd. unfold push. repeat case_match; try done.
  apply NoDup_app. split; [done|]. split; [|apply NoDup_singleton].
  intros m Hm ->%list_elem_of_singleton. by case_bool_decide.
Qed.

Lemma NoDup_foldl_push vs errors :
  NoDup errors → NoDup (foldl (push es el) errors vs).
Proof.
  revert errors. induction vs as [|kv vs IH]; intros errors Hnd; [done|].
  simpl. by apply IH, NoDup_push.
Qed.

Lemma elem_of_push errors kv m :
  m ∈ push es el errors kv →
  m ∈ errors
  ∨ ∃ error, applies es el kv.1 = true ∧ kv.2 es el = Return error
      ∧ truthy error = true ∧ message es el kv.1 error = Return m.
Proof.
  unfold push. destruct (applies es el kv.1) eqn:Hk; [|by left].
  destruct (kv.2 es el) as [error|] eqn:Hv; [|by left].
  destruct (truthy error) eqn:Herror; [|by left].
  destruct (message es el kv.1 error) as [m'|] eqn:Hmessage; [|by left].
  case_bool_decide; [by left|].
  intros [?|Hm]%elem_of_app; [by left|].
  apply list_elem_of_singleton in Hm as ->. right. by exists error.
Qed.

Lemma elem_of_foldl_push_inv vs errors m :
  m ∈ foldl (push es el) errors vs →
  m ∈ errors
  ∨ ∃ key validator error,
      (key, validator) ∈ vs ∧ applies es el key = true
      ∧ validator es el = Return error ∧ truthy error = true
      ∧ message es el key error = Return m.
Proof.
  revert errors. induction vs as [|[key validator] vs IH]; intros errors Hm; [by left|].
  simpl in Hm. apply IH in Hm as [Hm|(k & v & e & Hkv & ?)].
  - apply elem_of_push in Hm as [?|(error & ? & ? & ? & ?)]; [by left|].
    right. exists key, validator, error. split; [by left|done].
  - right. exists k, v, e. split; [by right|done].
Qed.

End ErrorList.

Section PassOutcome.

Variable options : Options.
Variable query : string → list nat.
Variable ToNumber : string → number.
Variable vetoes : State → option nat → bool.

(** A pass that no subscriber cancels and whose loop over the validators
    does not throw, after that loop. *)
Lemma validateInput_after_loop el deferErrors st :
  let target :=
    if is_type (elements st) el TRadio
    then inputs_named (elements st) (attr_name (elements st) el)
    else el in
  let es := elements (started target st) in
  let vs := validators options query ToNumber in
  let errors := foldl (push es target) [] vs in
  let d := length (deferreds st) in
  let st2 :=
    with_log (λ l, l ++ calls es target vs)
      (started target
         (with_log (λ l, l ++ [Trigger "validate.bs.validator" (head target) None]) st)) in
  vetoes st (head target) = false →
  Forall (λ kv, throws es target kv = false) vs →
  validateInput options query ToNumber vetoes el deferErrors st
  = (do_ (if bool_decide (errors = []) && truthy (getValue es target)
             && truthy (data es target "remote")
          then defer options target (RemoteCb target d errors)
          else resolve options d errors);
     do_ done_ options d (Validated target deferErrors (stored bs_errors (elements st) el));
     ret (Some d)) st2.
Proof.
  intros target es vs errors d st2 Hveto Hvs.
  unfold validateInput, bind at 1 2, get, trigger, modify. simpl.
  fold target. rewrite Hveto.
  set (st1 := with_log _ st).
  assert (elements (started target st1) = es) as Hes
    by (unfold es; by rewrite !started_elements).
  unfold bind at 1. rewrite runValidators_started.
  unfold bind at 1. rewrite (each_returns es) by done.
  fold vs errors. unfold bind at 1 2, get, ret at 1.
  change (with_log (λ l, l ++ calls es target vs) (started target st1)) with st2.
  change (elements st2) with (elements (started target st1)). rewrite Hes.
  change (length (deferreds st1)) with d.
  unfold bind. by destruct (_ st2).
Qed.

(** The callback of [validateInput] ends with the submit control set from
    the form as it then is. *)
Lemma run_continuation_toggles el deferErrors prevErrors errors st st' :
  disable options = true →
  run_continuation options (Validated el deferErrors prevErrors) errors st = Done tt st' →
  btn_disabled st' = isIncomplete (elements st') || hasErrors (elements st').
Proof.
  intros Hdisable Hrun.
  unfold run_continuation, toggleSubmit in Hrun. rewrite Hdisable in Hrun.
  unfold bind at 1, modify at 1 in Hrun.
  unfold bind at 1 in Hrun.
  destruct (match errors with [] => clearErrors el | _ => _ end _) as [[] s2|];
    [|done].
  unfold bind at 1 in Hrun.
  match type of Hrun with
  | match ?m s2 with Done _ _ => _ | Thrown _ => _ end = _ =>
      destruct (m s2) as [[] s3|]; [|done]
  end.
  unfold bind, get, modify, trigger, modify in Hrun. by injection Hrun as <-.
Qed.

(** Without a remote check to wait for, the pass ends in its callback. *)
Lemma validateInput_resolves el deferErrors st :
  let target :=
    if is_type (elements st) el TRadio
    then inputs_named (elements st) (attr_name (elements st) el)
    else el in
  let es := elements (started target st) in
  let vs := validators options query ToNumber in
  let errors := foldl (push es target) [] vs in
  vetoes st (head target) = false →
  Forall (λ kv, throws es target kv = false) vs →
  is_Some (first (elements st) target) →
  bool_decide (errors = []) && truthy (getValue es target)
    && truthy (data es target "remote") = false →
  ∃ s st',
    validateInput options query ToNumber vetoes el deferErrors st
    = Done (Some (length (deferreds st))) st'
    ∧ run_continuation options
        (Validated target deferErrors (stored bs_errors (elements st) el)) errors s
      = Done tt st'.
Proof.
  intros target es vs errors Hveto Hvs Hfirst Hremote.
  rewrite validateInput_after_loop by done.
  fold target es vs errors. rewrite Hremote.
  set (st2 := with_log _ (started _ _)).
  assert (deferreds st2 !! length (deferreds st) = Some (mkDeferred Pending []))
    as Hd by exact (started_deferred target _).
  assert (is_Some (first (elements st2) target)) as Hfirst2.
  { change (elements st2) with (elements (started target
      (with_log (λ l, l ++ [Trigger "validate.bs.validator" (head target) None]) st))).
    rewrite started_elements, first_update. simpl.
    destruct Hfirst as [e ->]. by eexists. }
  clearbody st2. unfold bind at 1.
  rewrite resolve_fresh by done. unfold bind at 1.
  erewrite done_resolved by (simpl; by rewrite list_lookup_alter_eq, Hd).
  match goal with
  | |- context [run_continuation options ?k errors ?s] =>
      destruct (run_continuation_returns options target deferErrors
                  (stored bs_errors (elements st) el) errors s Hfirst2) as [st3 Hrun];
      exists s, st3
  end.
  rewrite Hrun. by split.
Qed.

End PassOutcome.



(** On an element without constraint validation the look-up of the message
    reads [validity] of undefined and throws, unless the field has a message
    of its own for the validator. *)
Example message_lookup_on_legacy_element :
  (∃ st',
     validateInput Sample.DEFAULTS Sample.no_target Sample.numeral Sample.nobody
       [0] false (Sample.legacy_form false) = Thrown st'
     ∧ log st' = [Trigger "validate.bs.validator" (Some 0) None;
                  Call "native" [0] (Return JUndefined);
                  Call "minlength" [0] (Return (JStr "Not long enough"))]
     ∧ stored bs_errors (elements st') [0] = None)
  ∧ (∃ st',
       validateInput Sample.DEFAULTS Sample.no_target Sample.numeral Sample.nobody
         [0] false (Sample.legacy_form true) = Done (Some 0) st'
       ∧ stored bs_errors (elements st') [0] = Some [JStr "Too short"]).
Proof.
  split; eexists; (split; [vm_compute; reflexivity|]); repeat split; vm_compute; reflexivity.
Qed.



(** [defer] with a delay: the timer stored on the field is cleared, a new
    one is set and stored on every member of the collection. *)
Lemma defer_delayed options el cb st :
  delay options ≠ 0 →
  defer options el cb st
  = Done tt
      (with_elements (update el (with_store (set_timeout (Some (next_timer st)))))
         (set_next_timer (S (next_timer st))
            (with_timers (insert (next_timer st) cb)
               match stored bs_timeout (elements st) el with
               | Some old => with_timers (delete old) st
               | None => st
               end))).
Proof.
  intros Hdelay. unfold defer. rewrite bool_decide_eq_false_2 by done.
  unfold bind, get, clearTimeout, setTimeout, bind, get, modify, ret.
  by destruct (stored bs_timeout (elements st) el).
Qed.

(** Debouncing: of two deferred callbacks for the same field only the
    second stays scheduled; its timer is the one stored on the field, and no
    other timer is created. *)
Theorem defer_debounces options el cb1 cb2 st :
  delay options ≠ 0 →
  is_Some (first (elements st) el) →
  let t := next_timer st in
  ∃ st1 st2,
    defer options el cb1 st = Done tt st1
    ∧ defer options el cb2 st1 = Done tt st2
    ∧ timers st1 !! t = Some cb1
    ∧ timers st2 !! t = None
    ∧ timers st2 !! S t = Some cb2
    ∧ (∀ i e, i ∈ el → elements st2 !! i = Some e →
         bs_timeout (el_store e) = Some (S t))
    ∧ (∀ id cb, id ≠ S t → timers st2 !! id = Some cb → timers st !! id = Some cb).
Proof.
  intros Hdelay [e0 Hfirst] t.
  pose proof (defer_delayed options el cb1 st Hdelay) as H1. fold t in H1.
  set (st1 := with_elements _ _) in H1. exists st1.
  assert (elements st1 = update el (with_store (set_timeout (Some t))) (elements st))
    as Hes by (unfold st1; simpl; by destruct (stored bs_timeout (elements st) el)).
  assert (timers st1
          = <[t:=cb1]> match stored bs_timeout (elements st) el with
                       | Some old => delete old (timers st)
                       | None => timers st
                       end)
    as Hts by (unfold st1; simpl; by destruct (stored bs_timeout (elements st) el)).
  assert (next_timer st1 = S t) as Hnext by done.
  assert (stored bs_timeout (elements st1) el = Some t) as Hstored.
  { rewrite Hes. unfold stored. destruct el as [|i c]; [done|]. simpl in *.
    rewrite lookup_update, Hfirst. simpl.
    by rewrite bool_decide_eq_true_2 by (by left). }
  clearbody st1.
  pose proof (defer_delayed options el cb2 st1 Hdelay) as H2.
  rewrite Hstored, Hnext in H2. eexists. split; [done|]. split; [exact H2|]. simpl.
  rewrite Hts, Hes.
  split; [by rewrite lookup_insert_eq|].
  split; [rewrite lookup_insert_ne by lia; by rewrite lookup_delete_eq|].
  split; [by rewrite lookup_insert_eq|]. split.
  - intros i e Hi He. rewrite !lookup_update in He.
    destruct (elements st !! i) as [e1|]; [simpl in He|done].
    rewrite bool_decide_eq_true_2 in He by done. by injection He as <-.
  - intros id cb Hid. rewrite lookup_insert_ne by done.
    rewrite lookup_delete. case_decide; [done|].
    rewrite lookup_insert_ne by done.
    destruct (stored bs_timeout (elements st) el); [|done].
    rewrite lookup_delete. by case_decide.
Qed.

Lemma defer_debounces_witness :
  ∃ st1 st2,
    defer Sample.DEFAULTS [0] (ShowErrorsCb [0]) Sample.user_form = Done tt st1
    ∧ defer Sample.DEFAULTS [0] (RemoteCb [0] 0 []) st1 = Done tt st2
    ∧ timers st1 !! 0 = Some (ShowErrorsCb [0])
    ∧ timers st2 !! 0 = None
    ∧ timers st2 !! 1 = Some (RemoteCb [0] 0 []).
Proof.
  destruct (defer_debounces Sample.DEFAULTS [0] (ShowErrorsCb [0]) (RemoteCb [0] 0 [])
              Sample.user_form) as (st1 & st2 & H1 & H2 & H3 & H4 & H5 & _).
  - done.
  - by eexists.
  - by exists st1, st2.
Defined.

Section Response.

Variable options : Options.

Lemma requests_showErrors el : keeps same_requests (showErrors options el).
Proof. unfold showErrors. keeps_with fail by done. Qed.

Lemma requests_run_continuation k errors :
  keeps same_requests (run_continuation options k errors).
Proof.
  destruct k; simpl; unfold clearErrors, toggleSubmit, defer, run_callback,
    clearTimeout, setTimeout, trigger.
  all: keeps_with (apply requests_showErrors) by done.
Qed.

Lemma toggleSubmit_state st :
  toggleSubmit options st
  = Done tt (if disable options
             then set_btn_disabled (isIncomplete (elements st) || hasErrors (elements st)) st
             else st).
Proof. unfold toggleSubmit. by destruct (disable options). Qed.

Lemma forM_toggles rest errors st :
  Forall (λ k, k = ToggleSubmit) rest →
  ∃ st', forM rest (λ k, run_continuation options k errors) st = Done tt st'
         ∧ elements st' = elements st
         ∧ deferreds st' = deferreds st
         ∧ requests st' = requests st.
Proof.
  intros Hrest. revert st. induction Hrest as [|k rest -> _ IH]; intros st.
  - by exists st.
  - simpl. unfold bind. rewrite toggleSubmit_state.
    destruct (IH (if disable options
                  then set_btn_disabled
                         (isIncomplete (elements st) || hasErrors (elements st)) st
                  else st)) as (st' & -> & Hes & Hds & Hrq).
    exists st'. split; [done|]. by destruct (disable options).
Qed.

End Response.

(** The answer to the remote check of the pass a field is waiting for
    consumes the request.  On success, and on failure when the message is
    found, the deferred is resolved and the callback of the pass stores the
    error list on every field of the pass: the errors the request carried,
    and on failure the [data-remote-error] message or else the status text;
    a second answer to the request changes nothing.  On failure of the check
    of a field without constraint validation and without a
    [data-remote-error], the look-up of the message throws: the deferred
    stays pending and nothing else changes. *)
Theorem remote_answer_settles_the_pass options id failure rq el deferErrors
        prevErrors rest st :
  requests st !! id = Some rq →
  deferreds st !! rq_deferred rq
  = Some (mkDeferred Pending (Validated el deferErrors prevErrors :: rest)) →
  Forall (λ k, k = ToggleSubmit) rest →
  is_Some (first (elements st) el) →
  let answer :=
    match failure with
    | Some error =>
        match message (elements st) (rq_el rq) "remote" (JStr error) with
        | Return m => Return (rq_errors rq ++ [m])
        | Raise => Raise
        end
    | None => Return (rq_errors rq)
    end in
  (∀ errors, answer = Return errors →
     ∃ st',
       respond options id failure st = Done tt st'
       ∧ requests st' = delete id (requests st)
       ∧ d_state <$> deferreds st' !! rq_deferred rq = Some (Resolved errors)
       ∧ (∀ i e, i ∈ el → elements st' !! i = Some e →
            bs_errors (el_store e) = Some errors)
       ∧ ∀ failure', respond options id failure' st' = Done tt st')
  ∧ (answer = Raise →
     respond options id failure st = Thrown (with_requests (delete id) st)).
Proof.
  intros Hrq Hd Hrest Hfirst answer.
  assert (respond options id failure st
          = match answer with
            | Return errors =>
                resolve options (rq_deferred rq) errors (with_requests (delete id) st)
            | Raise => Thrown (with_requests (delete id) st)
            end) as Hrespond.
  { unfold respond, bind at 1, get. rewrite Hrq.
    unfold bind at 1, modify, answer, message.
    destruct failure as [error|]; [|done].
    by destruct (getErrorMessage (elements st) (rq_el rq) "remote"). }
  split; [|by intros Hanswer; rewrite Hrespond, Hanswer].
  intros errors Hanswer. rewrite Hrespond, Hanswer. clear Hrespond Hanswer answer.
  set (st1 := with_requests _ st).
  unfold resolve, bind at 1, get.
  change (deferreds st1) with (deferreds st). rewrite Hd.
  unfold bind at 1, modify.
  set (st2 := with_deferreds _ st1).
  set (k := Validated el deferErrors prevErrors).
  change (forM (k :: rest) (λ k, run_continuation options k errors) st2)
    with (bind (run_continuation options k errors)
            (λ _, forM rest (λ k, run_continuation options k errors)) st2).
  destruct (run_continuation_returns options el deferErrors prevErrors errors st2 Hfirst)
    as [st3 Hrun].
  fold k in Hrun. unfold bind at 1. rewrite Hrun.
  destruct (forM_toggles options rest errors st3 Hrest)
    as (st' & -> & Hes & Hds & Hrqs).
  pose proof (requests_run_continuation options k errors st2) as Hrq3.
  pose proof (deferreds_run_continuation options k errors st2) as Hd3.
  rewrite Hrun in Hrq3, Hd3. unfold same_requests, same_deferreds in *.
  simpl in Hrq3, Hd3.
  assert (requests st' = delete id (requests st)) as Hgone by congruence.
  exists st'. split; [done|]. split; [done|]. split; [|split].
  - rewrite Hds, Hd3. by rewrite list_lookup_alter_eq, Hd.
  - intros i e Hi He. rewrite Hes in He.
    apply (run_continuation_stores options el deferErrors prevErrors errors st2 i e Hi).
    fold k. by rewrite Hrun.
  - intros failure'. unfold respond, bind, get.
    by rewrite Hgone, lookup_delete_eq.
Qed.

Lemma remote_answer_settles_the_pass_witness :
  let st := run Sample.no_delay Sample.no_target Sample.numeral Sample.nobody 1
              [Dom "input" 0] Sample.user_form in
  ∃ st',
    respond Sample.no_delay 0 (Some "Not Found") st = Done tt st'
    ∧ ∀ i e, i ∈ [0] → elements st' !! i = Some e →
        bs_errors (el_store e) = Some [JStr "Not Found"].
Proof.
  intros st.
  destruct (remote_answer_settles_the_pass Sample.no_delay 0 (Some "Not Found")
              (mkRequest (JStr "/check") "user" (JStr "x") [0] 0 [])
              [0] true None [ToggleSubmit] st)
    as [Hsettles _].
  - by vm_compute.
  - by vm_compute.
  - by repeat constructor.
  - vm_compute. by eexists.
  - destruct (Hsettles [JStr "Not Found"]) as (st' & Hrun & _ & _ & Hstored & _).
    + by vm_compute.
    + exists st'. split; [exact Hrun|]. exact Hstored.
Defined.

(** A pass started by an event and cancelled by a subscriber: [validateInput]
    returns undefined, so [onInput] throws on its [.done]; nothing but the
    notification has happened. *)
Theorem cancelled_pass_breaks_onInput options query ToNumber vetoes target type st :
  let notification :=
    Trigger "validate.bs.validator" (head (target_of (elements st) target)) None in
  target ∈ inputs (elements st) →
  vetoes st (head (target_of (elements st) target)) = true →
  onInput options query ToNumber vetoes target type st
  = Thrown (with_log (λ l, l ++ [notification]) st).
Proof.
  intros notification Hinput Hveto.
  unfold onInput, bind at 1, get.
  rewrite bool_decide_eq_true_2 by done. cbn [negb].
  unfold bind at 1. rewrite validateInput_target. cbv zeta. by rewrite Hveto.
Qed.

Lemma cancelled_pass_breaks_onInput_witness :
  onInput Sample.DEFAULTS Sample.no_target Sample.numeral Sample.censor 0 "change" Sample.user_form
  = Thrown (with_log (λ l, l ++ [Trigger "validate.bs.validator" (Some 0) None])
                      Sample.user_form).
Proof.
  apply (cancelled_pass_breaks_onInput Sample.DEFAULTS Sample.no_target Sample.numeral Sample.censor
           0 "change" Sample.user_form).
  - by vm_compute; left.
  - reflexivity.
Defined.

(** ** The registry *)

Lemma assign_keys key v o :
  (assign key v o).*1 = if bool_decide (key ∈ o.*1) then o.*1 else o.*1 ++ [key].
Proof.
  induction o as [|[k w] o IH]; [done|].
  cbn [assign]. rewrite fmap_cons. cbn [fst].
  destruct (decide (k = key)) as [->|Hk].
  - rewrite !bool_decide_eq_true_2; [done|by left|done].
  - rewrite (bool_decide_eq_false_2 (k = key)) by done.
    rewrite fmap_cons, IH. cbn [fst].
    destruct (decide (key ∈ o.*1)) as [Hin|Hin].
    + rewrite !bool_decide_eq_true_2; [done|by right|done].
    + rewrite !bool_decide_eq_false_2; [done| |done].
      intros [?|?]%elem_of_cons; congruence.
Qed.

Lemma NoDup_assign key v o : NoDup o.*1 → NoDup (assign key v o).*1.
Proof.
  intros Hnd. rewrite assign_keys. case_bool_decide as Hin; [done|].
  apply NoDup_app. split; [done|]. split; [|apply NoDup_singleton].
  by intros k Hk ->%list_elem_of_singleton.
Qed.

(** In a registry without repeated keys, [assign] leaves one binding of
    [key], the new one. *)
Lemma elem_of_assign key v o k w :
  NoDup o.*1 →
  (k, w) ∈ assign key v o ↔ (k ≠ key ∧ (k, w) ∈ o) ∨ (k = key ∧ w = v).
Proof.
  intros Hnd. destruct (decide (k = key)) as [->|Hk].
  - split; [|intros [[? _]|[_ ->]]; [done|]].
    + intros Hin. right. split; [done|].
      induction o as [|[k' w'] o IH]; simpl in *.
      * by apply list_elem_of_singleton in Hin as [= ->].
      * apply NoDup_cons in Hnd as [Hk' Hnd].
        destruct (decide (k' = key)) as [->|Hne].
        -- rewrite bool_decide_eq_true_2 in Hin by done.
           apply elem_of_cons in Hin as [[= ->]|Hin]; [done|].
           destruct Hk'. apply list_elem_of_fmap. by exists (key, w).
        -- rewrite bool_decide_eq_false_2 in Hin by done.
           apply elem_of_cons in Hin as [[= -> _]|Hin]; [done|by apply IH].
    + clear Hnd. induction o as [|[k' w'] o IH]; simpl; [by left|].
      case_bool_decide as Hk'; [subst; by left|by right].
  - rewrite elem_of_assign_ne by done. split; [by left|].
    by intros [[_ ?]|[? _]].
Qed.

Lemma extend_keys base more :
  ∃ new, (extend base more).*1 = base.*1 ++ new ∧ new `sublist_of` more.*1.
Proof.
  unfold extend. revert base. induction more as [|[key v] more IH]; intros base.
  - exists []. by rewrite app_nil_r.
  - simpl. destruct (IH (assign key v base)) as (new & -> & Hnew).
    rewrite assign_keys. case_bool_decide.
    + exists new. split; [done|]. by apply sublist_cons.
    + exists (key :: new). rewrite <- app_assoc. split; [done|]. by apply sublist_skip.
Qed.

Lemma NoDup_extend base more : NoDup base.*1 → NoDup (extend base more).*1.
Proof.
  unfold extend. revert base. induction more as [|[key v] more IH]; intros base Hnd;
    [done|].
  simpl. by apply IH, NoDup_assign.
Qed.

(** A key of [more] ends up bound to a value [more] gives it. *)
Lemma elem_of_extend_custom base more k w :
  NoDup base.*1 → k ∈ more.*1 → (k, w) ∈ extend base more → (k, w) ∈ more.
Proof.
  unfold extend. revert base. induction more as [|[key v] more IH]; intros base Hnd Hk Hin.
  - by apply elem_of_nil in Hk.
  - simpl in *. destruct (decide (k ∈ more.*1)) as [Hmore|Hmore].
    + right. by apply (IH (assign key v base)); [apply NoDup_assign|..].
    + apply elem_of_cons in Hk as [->|?]; [|done].
      apply (elem_of_extend (assign key v base) more key w Hmore) in Hin.
      apply elem_of_assign in Hin as [[? _]|[_ ->]]; [done|by left|done].
Qed.

(** What [for ... in] visits first. *)
Lemma elem_of_indexed {A} (o : list (string * A)) n kv :
  (n, kv) ∈ indexed o → array_index kv.1 = Some n.
Proof.
  induction o as [|kv' o IH]; [by intros ?%elem_of_nil|].
  rewrite indexed_cons. destruct (array_index kv'.1) as [n'|] eqn:Hn'; [|done].
  rewrite insert_index_perm. by intros [[= -> ->]|?]%elem_of_cons; [|apply IH].
Qed.

Lemma insert_index_sorted {A} n (a : A) l :
  StronglySorted N.le l.*1 → StronglySorted N.le (insert_index n a l).*1.
Proof.
  induction l as [|[m b] l IH]; intros Hl; simpl.
  - repeat constructor.
  - apply StronglySorted_inv in Hl as [Hl Hm]. simpl in *.
    case_bool_decide as Hn; simpl.
    + constructor; [by constructor|]. constructor; [lia|].
      eapply Forall_impl; [exact Hm|]. simpl. lia.
    + constructor; [by apply IH|].
      rewrite insert_index_perm. constructor; [simpl; lia|done].
Qed.

Lemma indexed_sorted {A} (o : list (string * A)) : StronglySorted N.le (indexed o).*1.
Proof.
  induction o as [|kv o IH]; [constructor|].
  rewrite indexed_cons. destruct (array_index kv.1); [|done].
  by apply insert_index_sorted.
Qed.

Lemma elem_of_indexed_inv {A} (o : list (string * A)) n kv :
  (n, kv) ∈ indexed o → kv ∈ o.
Proof.
  induction o as [|kv' o IH]; [by intros ?%elem_of_nil|].
  rewrite indexed_cons. destruct (array_index kv'.1) as [n'|].
  - rewrite insert_index_perm. intros [[= -> ->]|?]%elem_of_cons; [by left|].
    right. by apply IH.
  - intros ?. right. by apply IH.
Qed.

(** A key is the numeral of its index. *)
Lemma array_index_inj key key' n :
  array_index key = Some n → array_index key' = Some n → key = key'.
Proof.
  unfold array_index. intros Hkey Hkey'.
  destruct (digits_value key 0) as [m|]; [|done].
  destruct (digits_value key' 0) as [m'|]; [|done].
  destruct (bool_decide (pretty m = key)) eqn:Hm; [|done].
  destruct (bool_decide (pretty m' = key')) eqn:Hm'; [|done].
  apply bool_decide_eq_true in Hm, Hm'. simpl in *.
  repeat case_bool_decide; simplify_eq. done.
Qed.

Lemma indexed_NoDup {A} (o : list (string * A)) : NoDup o.*1 → NoDup (indexed o).*1.
Proof.
  induction o as [|kv o IH]; [constructor|].
  rewrite fmap_cons, NoDup_cons. intros [Hkv Ho].
  rewrite indexed_cons. destruct (array_index kv.1) as [n|] eqn:Hn; [|by apply IH].
  rewrite insert_index_perm, fmap_cons. apply NoDup_cons. split; [|by apply IH].
  intros ([n' kv'] & Heq & Hin)%list_elem_of_fmap. simpl in Heq. subst n'.
  apply Hkv.
  apply list_elem_of_fmap. exists kv'. split; [|by apply (elem_of_indexed_inv o n)].
  apply (array_index_inj _ _ n); [done|]. by apply (elem_of_indexed o).
Qed.

Lemma sorted_NoDup (l : list N) :
  StronglySorted N.le l → NoDup l → StronglySorted N.lt l.
Proof.
  induction 1 as [|n l Hl IH Hn]; [constructor|].
  intros [Hnotin Hnd]%NoDup_cons. constructor; [by apply IH|].
  apply Forall_forall. intros m Hm.
  assert (n ≠ m) by (by intros ->).
  pose proof (proj1 (Forall_forall _ _) Hn m Hm). lia.
Qed.

Lemma for_in_keys {A} (o : list (string * A)) :
  (for_in o).*1
  = (indexed o).*2.*1 ++ filter (λ key, array_index key = None) o.*1.
Proof.
  unfold for_in. rewrite fmap_app. f_equal.
  induction o as [|kv o IH]; [done|].
  rewrite fmap_cons, !filter_cons. case_decide; [|done]. by rewrite fmap_cons, IH.
Qed.

(** [this.validators], as [$.each] visits it: every key is registered
    once; the keys that are array indices come first, by ascending index,
    then [native], [match] and [minlength], then the other keys of
    [options.custom] in the order in which [options.custom] lists them; a
    key that [options.custom] does not name keeps its built-in validator,
    and a key it names is bound to a validator of [options.custom], also
    when the key is that of a built-in. *)
Theorem custom_validators_override options query ToNumber :
  let vs := validators options query ToNumber in
  NoDup vs.*1
  ∧ (∃ (numbered : list (N * string)) named,
       vs.*1 = numbered.*2 ++ ["native"; "match"; "minlength"] ++ named
       ∧ Forall (λ nk, array_index nk.2 = Some nk.1) numbered
       ∧ StronglySorted N.lt numbered.*1
       ∧ Forall (λ key, array_index key = None) named
       ∧ named `sublist_of` (custom options).*1)
  ∧ (∀ key w, key ∉ (custom options).*1 →
       (key, w) ∈ vs ↔ (key, w) ∈ VALIDATORS query ToNumber)
  ∧ (∀ key, key ∈ (custom options).*1 →
       (∃ w, (key, w) ∈ vs) ∧ ∀ w, (key, w) ∈ vs → (key, w) ∈ custom options).
Proof.
  intros vs. unfold vs, validators.
  set (o := extend (VALIDATORS query ToNumber) (custom options)).
  assert (NoDup (VALIDATORS query ToNumber).*1) as Hnd.
  { unfold VALIDATORS. simpl. by apply (bool_decide_unpack _). }
  split; [|split; [|split]].
  - rewrite for_in_perm. by apply NoDup_extend.
  - exists ((λ p, (p.1, p.2.1)) <$> indexed o).
    destruct (extend_keys (VALIDATORS query ToNumber) (custom options))
      as (new & Hkeys & Hnew).
    exists (filter (λ key, array_index key = None) new).
    split; [|split; [|split; [|split]]].
    + rewrite for_in_keys. fold o in Hkeys. rewrite Hkeys, filter_app.
      f_equal. by rewrite <- !list_fmap_compose.
    + apply Forall_fmap, Forall_forall. intros [n kv] Hin. simpl.
      by apply (elem_of_indexed o).
    + rewrite <- list_fmap_compose. apply sorted_NoDup; [apply indexed_sorted|].
      by apply indexed_NoDup, NoDup_extend.
    + apply Forall_forall. by intros key [? _]%list_elem_of_filter.
    + etrans; [apply sublist_filter|exact Hnew].
  - intros key w Hkey. rewrite elem_of_for_in. by apply elem_of_extend.
  - intros key Hkey. split;
      [|intros w; rewrite elem_of_for_in; by apply elem_of_extend_custom].
    assert (key ∈ o.*1) as Hin.
    { subst o. clear Hnd. unfold extend. generalize (VALIDATORS query ToNumber) as base.
      induction (custom options) as [|[k v] more IH]; intros base;
        [by apply elem_of_nil in Hkey|].
      simpl in *. destruct (decide (key ∈ more.*1)) as [?|Hmore]; [by apply IH|].
      apply elem_of_cons in Hkey as [->|?]; [|done].
      destruct (extend_keys (assign k v base) more) as (new & Hnew & _).
      unfold extend in Hnew. rewrite Hnew. apply elem_of_app. left.
      rewrite assign_keys. case_bool_decide; [done|].
      apply elem_of_app. right. by apply list_elem_of_singleton. }
    apply list_elem_of_fmap in Hin as ([k w] & -> & Hin). exists w.
    by rewrite elem_of_for_in.
Qed.

(** On the sample with the custom keys [zed] and [7]. *)
Example numbered_validators_order :
  (validators (Sample.numbered_options false) Sample.no_target Sample.numeral).*1
  = ["7"; "native"; "match"; "minlength"; "zed"].
Proof. reflexivity. Qed.

(** ** The display of the errors *)

(** [showErrors] on a field that holds errors: every form group of the
    field is marked and every region in it shows the list. *)
Lemma showErrors_shows options el errors st :
  stored bs_errors (elements st) el = Some errors → errors ≠ [] →
  ∃ gs',
    showErrors options el st = Done tt (with_groups (λ _, gs') st)
    ∧ (∀ g G', g ∈ closest (elements st) (groups st) el → gs' !! g = Some G' →
         has_error G' = true ∧ has_danger G' = true
         ∧ Forall (λ b, b_content b = ErrorList (html options) errors) (g_blocks G'))
    ∧ (∀ g, g ∉ closest (elements st) (groups st) el → gs' !! g = groups st !! g).
Proof.
  intros Hstored Herrors. unfold showErrors, bind at 1, get. rewrite Hstored.
  destruct errors as [|error errors]; [done|].
  set (group := closest (elements st) (groups st) el).
  unfold bind, modify, ret.
  destruct (hasClass_feedback (groups st) group); simpl;
    (eexists; split; [reflexivity|]); (split; [intros g G' Hg HG|intros g Hg]).
  - repeat (apply lookup_update_elem_of in HG as (? & HG & ->); [|done]).
    simpl. repeat split. by apply Forall_fmap, Forall_true.
  - repeat (rewrite lookup_update; rewrite bool_decide_eq_false_2 by done; simpl;
            rewrite option_fmap_id).
    done.
  - repeat (apply lookup_update_elem_of in HG as (? & HG & ->); [|done]).
    simpl. repeat split. by apply Forall_fmap, Forall_true.
  - repeat (rewrite lookup_update; rewrite bool_decide_eq_false_2 by done; simpl;
            rewrite option_fmap_id).
    done.
Qed.

Lemma stored_update_first {A} (h : Store → option A) (f : Store → Store) el es :
  stored h (update el (with_store f) es) el
  = match first es el with Some e => h (f (el_store e)) | None => None end.
Proof.
  unfold stored. destruct el as [|i el]; [done|]. simpl.
  rewrite lookup_update. destruct (es !! i); [simpl|done].
  by rewrite bool_decide_eq_true_2 by (by left).
Qed.

Section Display.

Variable options : Options.
Variable query : string → list nat.
Variable ToNumber : string → number.
Variable vetoes : State → option nat → bool.

(** A pass that no subscriber cancels, whose loop over the validators
    does not throw and which has no remote check to wait for, is its
    callback run on the error
    list, in the state [s] the resolution of the promise leaves. *)
Lemma validateInput_callback el deferErrors st :
  let target :=
    if is_type (elements st) el TRadio
    then inputs_named (elements st) (attr_name (elements st) el)
    else el in
  let es := elements (started target st) in
  let vs := validators options query ToNumber in
  let errors := foldl (push es target) [] vs in
  let d := length (deferreds st) in
  let s :=
    with_deferreds (alter (λ _, mkDeferred (Resolved errors) []) d)
      (with_log (λ l, l ++ calls es target vs)
         (started target
            (with_log (λ l, l ++ [Trigger "validate.bs.validator" (head target) None])
               st))) in
  vetoes st (head target) = false →
  Forall (λ kv, throws es target kv = false) vs →
  bool_decide (errors = []) && truthy (getValue es target)
    && truthy (data es target "remote") = false →
  validateInput options query ToNumber vetoes el deferErrors st
  = (do_ run_continuation options
           (Validated target deferErrors (stored bs_errors (elements st) el)) errors;
     ret (Some d)) s.
Proof.
  intros target es vs errors d s Hveto Hvs Hremote. subst d.
  rewrite validateInput_after_loop by done.
  fold target es vs errors. rewrite Hremote.
  set (st2 := with_log _ (started _ _)) in *.
  assert (deferreds st2 !! length (deferreds st) = Some (mkDeferred Pending [])) as Hd
    by exact (started_deferred target _).
  clearbody st2.
  unfold bind at 1. rewrite resolve_fresh by done. unfold bind at 1.
  erewrite done_resolved by (simpl; by rewrite list_lookup_alter_eq, Hd).
  fold s. unfold bind. by destruct (run_continuation _ _ _ _).
Qed.

(** The callback of a pass with errors whose display is deferred: the
    display is left as it is and a timer is set for it. *)
Lemma run_continuation_deferred el prevErrors errors st :
  delay options ≠ 0 → errors ≠ [] →
  ∃ st',
    run_continuation options (Validated el true prevErrors) errors st = Done tt st'
    ∧ groups st' = groups st
    ∧ elements st'
      = update el (with_store (set_timeout (Some (next_timer st))))
          (update el (with_store (set_errors (Some errors))) (elements st))
    ∧ timers st'
      = <[next_timer st:=ShowErrorsCb el]>
          match stored bs_timeout (elements st) el with
          | Some old => delete old (timers st)
          | None => timers st
          end.
Proof.
  intros Hdelay Herrors. unfold run_continuation, bind at 1, modify at 1.
  set (st1 := with_elements _ st).
  destruct errors as [|error errors]; [done|].
  unfold bind at 1. rewrite defer_delayed by done.
  assert (stored bs_timeout (elements st1) el = stored bs_timeout (elements st) el)
    as ->.
  { unfold st1. simpl. rewrite stored_update_first. unfold stored.
    by destruct (first (elements st) el). }
  set (st2 := with_elements _ _).
  assert (groups st2 = groups st) as Hgs
    by (unfold st2; simpl; by destruct (stored bs_timeout (elements st) el)).
  assert (elements st2
          = update el (with_store (set_timeout (Some (next_timer st))))
              (update el (with_store (set_errors (Some (error :: errors))))
                 (elements st))) as Hes
    by (unfold st2; simpl; by destruct (stored bs_timeout (elements st) el)).
  assert (timers st2
          = <[next_timer st:=ShowErrorsCb el]>
              match stored bs_timeout (elements st) el with
              | Some old => delete old (timers st)
              | None => timers st
              end) as Hts
    by (unfold st2; simpl; by destruct (stored bs_timeout (elements st) el)).
  clearbody st2. rewrite <- Hgs, <- Hes, <- Hts.
  unfold toggleSubmit.
  destruct (match prevErrors with
            | Some prev => _
            | None => true
            end), (disable options);
    unfold bind, trigger, modify, get, ret; simpl; by eexists.
Qed.

End Display.

Lemma started_next_timer el st : next_timer (started el st) = next_timer st.
Proof. unfold started. by destruct (stored bs_deferred (elements st) el). Qed.

(** With a delay, a pass started while the user edits the field (its errors
    are deferred) that no subscriber cancels, whose loop over the validators
    does not throw and that finds errors leaves the display as it is and
    sets a timer; when the timer fires, every form group of the field is marked
    has-error and has-danger and every region in it shows the list of the
    errors; the other form groups are as they were. *)
Theorem errors_displayed_after_delay options query ToNumber vetoes el st :
  let target :=
    if is_type (elements st) el TRadio
    then inputs_named (elements st) (attr_name (elements st) el)
    else el in
  let es := elements (started target st) in
  let vs := validators options query ToNumber in
  let errors := foldl (push es target) [] vs in
  let group := closest (elements st) (groups st) target in
  let t := next_timer st in
  delay options ≠ 0 →
  vetoes st (head target) = false →
  Forall (λ kv, throws es target kv = false) vs →
  is_Some (first (elements st) target) →
  errors ≠ [] →
  ∃ d st' st'',
    validateInput options query ToNumber vetoes el true st = Done (Some d) st'
    ∧ groups st' = groups st
    ∧ timers st' !! t = Some (ShowErrorsCb target)
    ∧ fire options t st' = Done tt st''
    ∧ timers st'' !! t = None
    ∧ (∀ g G, g ∈ group → groups st'' !! g = Some G →
         has_error G = true ∧ has_danger G = true
         ∧ Forall (λ b, b_content b = ErrorList (html options) errors) (g_blocks G))
    ∧ (∀ g, g ∉ group → groups st'' !! g = groups st !! g).
Proof.
  intros target es vs errors group t Hdelay Hveto Hvs [e0 Hfirst] Herrors.
  rewrite validateInput_callback by (done || by rewrite bool_decide_eq_false_2).
  fold target es vs errors.
  set (s := with_deferreds _ _).
  assert (groups s = groups st) as Hgs.
  { unfold s. cbn [groups with_deferreds with_log].
    by destruct (started_frame target
          (with_log (λ l, l ++ [Trigger "validate.bs.validator" (head target) None]) st))
          as (-> & _). }
  assert (next_timer s = t) as Hnext.
  { unfold s. cbn [next_timer with_deferreds with_log].
    by rewrite started_next_timer. }
  assert (elements s = es) as Hes.
  { unfold s, es. cbn [elements with_deferreds with_log].
    by rewrite !started_elements. }
  clearbody s.
  destruct (run_continuation_deferred options target
              (stored bs_errors (elements st) el) errors s Hdelay Herrors)
    as (st' & Hrun & Hgs' & Hes' & Hts').
  rewrite Hnext in Hes', Hts'. rewrite Hes in Hes'. rewrite Hgs in Hgs'.
  unfold bind at 1. rewrite Hrun. unfold ret.
  assert (timers st' !! t = Some (ShowErrorsCb target)) as Ht
    by (rewrite Hts'; apply lookup_insert_eq).
  set (st3 := with_timers (delete t) st').
  assert (fire options t st' = showErrors options target st3) as Hfire.
  { unfold fire, bind at 1, get. rewrite Ht. by unfold bind at 1, modify at 1. }
  assert (stored bs_errors (elements st3) target = Some errors) as Hstored.
  { unfold st3. simpl. rewrite Hes'. unfold es. rewrite started_elements.
    unfold stored. destruct target as [|i c]; [done|]. simpl in *.
    rewrite !lookup_update, Hfirst. simpl.
    by rewrite bool_decide_eq_true_2 by (by left). }
  assert (closest (elements st3) (groups st3) target = group) as Hclosest.
  { unfold st3. simpl. rewrite Hes', Hgs'. unfold es. rewrite started_elements.
    by rewrite !closest_update. }
  destruct (showErrors_shows options target errors st3 Hstored Herrors)
    as (gs' & Hshow & Hmarked & Hothers).
  rewrite Hclosest in Hmarked, Hothers.
  exists (length (deferreds st)), st', (with_groups (λ _, gs') st3).
  split; [done|]. split; [done|]. split; [done|].
  split; [by rewrite Hfire|]. split; [apply lookup_delete_eq|].
  split; [done|].
  intros g Hg. rewrite Hothers by done. unfold st3. simpl. by rewrite Hgs'.
Qed.

Lemma errors_displayed_after_delay_witness :
  ∃ d st' st'',
    validateInput Sample.DEFAULTS Sample.by_id Sample.numeral Sample.nobody [0] true
      (Sample.signup "abc" "y") = Done (Some d) st'
    ∧ groups st' = groups (Sample.signup "abc" "y")
    ∧ fire Sample.DEFAULTS 0 st' = Done tt st''
    ∧ contents (groups st'')
      = [[ErrorList false [JStr "Not long enough"]]; [Markup "once more"]].
Proof.
  destruct (errors_displayed_after_delay Sample.DEFAULTS Sample.by_id Sample.numeral
    Sample.nobody [0]
              (Sample.signup "abc" "y"))
    as (d & st' & st'' & Hpass & Hgs & _ & Hfire & _ & Hshown & Hothers).
  - done.
  - reflexivity.
  - repeat (apply Forall_cons; split; [reflexivity|]). by apply Forall_nil.
  - by eexists.
  - done.
  - exists d, st', st''. split; [exact Hpass|]. split; [exact Hgs|].
    split; [exact Hfire|].
    vm_compute in Hpass. injection Hpass as <- <-.
    vm_compute in Hfire. injection Hfire as <-. reflexivity.
Defined.

Section Notifications.

Variable options : Options.
Variable query : string → list nat.
Variable ToNumber : string → number.
Variable vetoes : State → option nat → bool.

Lemma same_log_showErrors el : keeps same_log (showErrors options el).
Proof. unfold showErrors. keeps_with fail by done. Qed.

Lemma same_log_clearErrors el : keeps same_log (clearErrors el).
Proof. unfold clearErrors. keeps_with fail by done. Qed.

Lemma same_log_defer_showErrors el : keeps same_log (defer options el (ShowErrorsCb el)).
Proof.
  unfold defer, run_callback, clearTimeout, setTimeout.
  keeps_with (apply same_log_showErrors) by done.
Qed.

(** What the callback of [validateInput] adds to the log. *)
Lemma run_continuation_log el deferErrors prevErrors errors st :
  is_Some (first (elements st) el) →
  ∃ st',
    run_continuation options (Validated el deferErrors prevErrors) errors st = Done tt st'
    ∧ log st'
      = log st
        ++ (if match prevErrors with
               | None => true
               | Some prev => negb (bool_decide (array_toString errors = array_toString prev))
               end
            then
              match errors with
              | [] => [Trigger "valid.bs.validator" (head el) prevErrors]
              | _ => [Trigger "invalid.bs.validator" (head el) (Some errors)]
              end
            else [])
        ++ [Trigger "validated.bs.validator" (head el) None].
Proof.
  intros [e He]. unfold run_continuation, bind at 1, modify at 1.
  set (st1 := with_elements _ st).
  assert (is_Some (stored bs_errors (elements st1) el)) as Hstored.
  { unfold stored, st1. destruct el as [|i c]; [done|]. simpl in *.
    rewrite lookup_update, He. simpl.
    rewrite bool_decide_eq_true_2 by (by left). by eexists. }
  assert (∃ st2, match errors with
                 | [] => clearErrors el
                 | _ => if deferErrors then defer options el (ShowErrorsCb el)
                        else showErrors options el
                 end st1 = Done tt st2 ∧ log st2 = log st) as (st2 & Hshow & Hlog).
  { destruct errors as [|error errors].
    - destruct (clearErrors_returns el st1) as [st2 Hst2]. exists st2. split; [done|].
      pose proof (same_log_clearErrors el st1) as H. by rewrite Hst2 in H.
    - destruct deferErrors.
      + destruct (defer_showErrors_returns options el st1 Hstored) as [st2 Hst2].
        exists st2. split; [done|].
        pose proof (same_log_defer_showErrors el st1) as H. by rewrite Hst2 in H.
      + destruct (showErrors_returns options el st1 Hstored) as [st2 Hst2].
        exists st2. split; [done|].
        pose proof (same_log_showErrors el st1) as H. by rewrite Hst2 in H. }
  unfold bind at 1. rewrite Hshow. clearbody st1. rewrite <- Hlog.
  unfold toggleSubmit.
  destruct (match prevErrors with
            | Some prev => _
            | None => true
            end), errors, (disable options);
    unfold bind, trigger, modify, get, ret; simpl; eexists; (split; [reflexivity|]);
    simpl; by rewrite <- ?app_assoc.
Qed.

End Notifications.



(** ** Showing and clearing *)

Lemma lookup_update_not_elem_of {A} (el : list nat) (f : A → A) (l : list A) i :
  i ∉ el → update el f l !! i = l !! i.
Proof.
  intros Hi. rewrite lookup_update, bool_decide_eq_false_2 by done.
  by destruct (l !! i).
Qed.

(** [showErrors] changes the form groups of the field only. *)
Lemma showErrors_others options el st g :
  g ∉ closest (elements st) (groups st) el →
  groups (state_of (showErrors options el st)) !! g = groups st !! g.
Proof.
  intros Hg. unfold showErrors, bind at 1, get.
  destruct (stored bs_errors (elements st) el) as [[|error errors]|]; [done| |done].
  unfold bind, modify, ret.
  destruct (hasClass_feedback _ _); simpl;
    by rewrite !lookup_update_not_elem_of.
Qed.

(** [clearErrors] on a field with at most one region: the region shows the
    content saved for it, or its own when none is saved; the form groups of
    the field lose their marks and the others are as they were. *)
Lemma clearErrors_restores el st :
  narrow st el →
  ∃ st',
    clearErrors el st = Done tt st'
    ∧ elements st' = elements st
    ∧ (∀ g, g ∈ closest (elements st) (groups st) el →
         contents (groups st') !! g = originals (groups st) !! g)
    ∧ (∀ g, g ∉ closest (elements st) (groups st) el →
         groups st' !! g = groups st !! g)
    ∧ (∀ g G, g ∈ closest (elements st) (groups st) el → groups st' !! g = Some G →
         has_error G = false ∧ has_danger G = false).
Proof.
  intros Hnarrow. unfold narrow in Hnarrow.
  unfold clearErrors, bind, get, modify. simpl.
  set (group := closest (elements st) (groups st) el) in *.
  assert (∀ g G, g ∈ group → groups st !! g = Some G →
            b_content <$> ((λ b, match first_block (groups st) group with
                                 | Some b0 =>
                                     match b_original b0 with
                                     | Some c => mkBlock c (b_original b)
                                     | None => b
                                     end
                                 | None => b
                                 end) <$> g_blocks G)
            = original <$> g_blocks G) as Hrestore.
  { intros g G Hg HG.
    destruct (narrow_block (groups st) group g G Hnarrow Hg HG)
      as [->|(b & -> & ->)]; [done|].
    simpl. unfold original. by destruct b as [c []]. }
  destruct (hasClass_feedback (groups st) group);
    [destruct (truthy (getValue (elements st) el))|];
    simpl; eexists; (split; [reflexivity|]); (split; [reflexivity|]); simpl;
    (split; [|split]).
  all: try (intros g Hg; by rewrite !lookup_update_not_elem_of).
  all: try (intros g G Hg HG;
            repeat (apply lookup_update_elem_of in HG as (? & HG & ->); [|done]);
            done).
  all: intros g Hg; unfold contents, originals; rewrite !list_lookup_fmap;
    rewrite !lookup_update; repeat rewrite bool_decide_eq_true_2 by done;
    destruct (groups st !! g) as [G|] eqn:HG; [simpl|done];
    f_equal; by apply (Hrestore g).
Qed.

(** On a field with at most one region, [clearErrors] undoes [showErrors]:
    after the two, the region of the field shows the content saved for it,
    or, when none was saved, what it showed before; the form groups of the
    field carry no has-error and no has-danger; the other form groups are
    as they were. *)
Theorem clearErrors_undoes_showErrors options el st :
  let group := closest (elements st) (groups st) el in
  narrow st el →
  is_Some (stored bs_errors (elements st) el) →
  ∃ st1 st2,
    showErrors options el st = Done tt st1
    ∧ clearErrors el st1 = Done tt st2
    ∧ (∀ g, g ∈ group → contents (groups st2) !! g = originals (groups st) !! g)
    ∧ (∀ g, g ∉ group → groups st2 !! g = groups st !! g)
    ∧ (∀ g G, g ∈ group → groups st2 !! g = Some G →
         has_error G = false ∧ has_danger G = false).
Proof.
  intros group Hnarrow Hstored.
  destruct (showErrors_returns options el st Hstored) as [st1 Hshow].
  pose proof (showErrors_regions options el st Hnarrow) as (Hlayout & Horiginals & _).
  pose proof (showErrors_others options el st) as Hothers.
  rewrite Hshow in Hlayout, Horiginals, Hothers.
  cbn [state_of] in Hlayout, Horiginals, Hothers.
  assert (closest (elements st1) (groups st1) el = group) as Hclosest.
  { destruct Hlayout as [Hes Hgs]. apply layout_closest; [done|].
    by rewrite <- (length_fmap (length ∘ g_blocks)), Hgs, length_fmap. }
  destruct (clearErrors_restores el st1) as (st2 & Hclear & _ & Hin & Hout & Hmarks).
  { by apply (narrow_layout st). }
  rewrite Hclosest in Hin, Hout, Hmarks.
  exists st1, st2. split; [done|]. split; [done|]. split; [|split; [|done]].
  - intros g Hg. by rewrite Hin, Horiginals.
  - intros g Hg. by rewrite Hout, Hothers.
Qed.

Lemma clearErrors_undoes_showErrors_witness :
  let st := run Sample.DEFAULTS Sample.by_id Sample.numeral Sample.nobody 1 [Dom "focusout" 0]
              (Sample.signup "abc" "y") in
  contents (groups st) = [[ErrorList false [JStr "Not long enough"]]; [Markup "once more"]]
  ∧ ∃ st1 st2,
      showErrors Sample.DEFAULTS [0] st = Done tt st1
      ∧ clearErrors [0] st1 = Done tt st2
      ∧ contents (groups st2) !! 0 = Some [Markup "five characters or more"].
Proof.
  intros st. split; [by vm_compute|].
  destruct (clearErrors_undoes_showErrors Sample.DEFAULTS [0] st)
    as (st1 & st2 & Hshow & Hclear & Hin & _).
  - unfold narrow. vm_compute. lia.
  - vm_compute. by eexists.
  - exists st1, st2. split; [exact Hshow|]. split; [exact Hclear|].
    rewrite (Hin 0); [by vm_compute|]. vm_compute. by left.
Defined.

(** ** The remote check *)

Section Remote.

Variable options : Options.
Variable query : string → list nat.
Variable ToNumber : string → number.
Variable vetoes : State → option nat → bool.

Lemma remote_showErrors el : keeps no_new_remote (showErrors options el).
Proof. unfold showErrors. keeps_with fail by (by intros id' el' d' errors'). Qed.

Lemma remote_run_continuation k errors :
  keeps no_new_remote (run_continuation options k errors).
Proof.
  destruct k as [el deferErrors prevErrors|]; simpl;
    unfold clearErrors, toggleSubmit, trigger.
  - unfold defer, run_callback, clearTimeout, setTimeout.
    keeps_with (apply remote_showErrors)
      by (intros id' el' d' errors' Hid; simpl in *;
          first [ done
                | by apply lookup_delete_Some in Hid as [_ ?]
                | by apply lookup_insert_Some in Hid as [[_ ?]|[_ ?]] ]).
  - keeps_with fail by (by intros id' el' d' errors').
Qed.

Lemma started_next_request el st : next_request (started el st) = next_request st.
Proof. unfold started. by destruct (stored bs_deferred (elements st) el). Qed.

End Remote.

(** The remote check of a pass that no subscriber cancels and whose loop
    over the validators does not throw: it is wanted when the validators
    found no error, the
    field has a value and a [data-remote] attribute.  When it is not
    wanted, the pass sends no request and sets no timer for one.  When it
    is wanted, the pass sends one request with the name and the value of
    the field, at once when the delay is 0, and else sets a timer for
    it. *)
Theorem remote_check_when_locally_valid options query ToNumber vetoes el deferErrors st :
  let target :=
    if is_type (elements st) el TRadio
    then inputs_named (elements st) (attr_name (elements st) el)
    else el in
  let es := elements (started target st) in
  let vs := validators options query ToNumber in
  let errors := foldl (push es target) [] vs in
  let d := length (deferreds st) in
  let wanted :=
    bool_decide (errors = []) && truthy (getValue es target)
    && truthy (data es target "remote") in
  vetoes st (head target) = false →
  Forall (λ kv, throws es target kv = false) vs →
  is_Some (first (elements st) target) →
  ∃ st',
    validateInput options query ToNumber vetoes el deferErrors st = Done (Some d) st'
    ∧ (wanted = false → requests st' = requests st ∧ no_new_remote st st')
    ∧ (wanted = true → delay options = 0 →
         requests st'
         = <[next_request st:=mkRequest (data es target "remote") (attr_name es target)
                                        (getValue es target) target d []]> (requests st))
    ∧ (wanted = true → delay options ≠ 0 →
         requests st' = requests st
         ∧ timers st' !! next_timer st = Some (RemoteCb target d [])).
Proof.
  intros target es vs errors d wanted Hveto Hvs Hfirst.
  destruct wanted eqn:Hwanted; subst wanted.
  - rewrite validateInput_after_loop by done.
    fold target es vs errors d. rewrite Hwanted.
    assert (errors = []) as Herrors.
    { by apply andb_prop in Hwanted as [[?%bool_decide_eq_true _]%andb_prop _]. }
    rewrite Herrors.
    set (st2 := with_log _ (started _ _)).
    assert (deferreds st2 !! d = Some (mkDeferred Pending [])) as Hd
      by exact (started_deferred target _).
    assert (requests st2 = requests st ∧ timers st2 = timers st
            ∧ next_request st2 = next_request st ∧ next_timer st2 = next_timer st
            ∧ elements st2 = es) as (Hrq & Hts & Hnrq & Hnt & Hes).
    { unfold st2. cbn [requests timers next_request next_timer elements with_log].
      rewrite started_next_request, started_next_timer.
      destruct (started_frame target
                  (with_log (λ l, l ++ [Trigger "validate.bs.validator" (head target) None])
                     st)) as (_ & _ & -> & ->).
      repeat split. unfold es. by rewrite !started_elements. }
    clearbody st2.
    destruct (decide (delay options = 0)) as [Hdelay|Hdelay].
    + unfold defer. rewrite bool_decide_eq_true_2 by done.
      unfold bind at 1. cbn [run_callback]. unfold remote_get, bind at 1 2, get, modify.
      unfold bind at 1, done_, bind at 1, get. cbn [deferreds set_next_request with_requests].
      rewrite Hd. unfold modify, bind, ret. eexists. split; [reflexivity|].
      split; [done|]. split; [|done]. intros _ _. simpl. by rewrite Hrq, Hnrq, Hes.
    + unfold bind at 1. rewrite defer_delayed by done.
      unfold bind at 1, done_, bind at 1, get.
      assert (∀ s : State, deferreds (match stored bs_timeout (elements st2) target with
                                      | Some old => with_timers (delete old) s
                                      | None => s
                                      end) = deferreds s) as Hsame
        by (intros s; by destruct (stored bs_timeout (elements st2) target)).
      cbn [deferreds with_elements set_next_timer with_timers]. rewrite Hsame, Hd.
      unfold modify, bind, ret. eexists. split; [reflexivity|].
      split; [done|]. split; [done|]. intros _ _. simpl. split.
      * rewrite <- Hrq. by destruct (stored bs_timeout (elements st2) target).
      * rewrite Hnt. apply lookup_insert_eq.
  - rewrite validateInput_callback by done.
    fold target es vs errors d.
    set (s := with_deferreds _ _).
    assert (requests s = requests st ∧ timers s = timers st) as [Hrq Hts].
    { unfold s. cbn [requests timers with_deferreds with_log].
      by destruct (started_frame target
                  (with_log (λ l, l ++ [Trigger "validate.bs.validator" (head target) None])
                     st)) as (_ & _ & -> & ->). }
    assert (is_Some (first (elements s) target)) as Hfirst2.
    { unfold s. cbn [elements with_deferreds with_log].
      rewrite started_elements, first_update. simpl.
      destruct Hfirst as [e ->]. by eexists. }
    clearbody s.
    destruct (run_continuation_returns options target deferErrors
                (stored bs_errors (elements st) el) errors s Hfirst2) as [st' Hrun].
    pose proof (requests_run_continuation options
                  (Validated target deferErrors (stored bs_errors (elements st) el))
                  errors s) as Hrq'.
    pose proof (remote_run_continuation options
                  (Validated target deferErrors (stored bs_errors (elements st) el))
                  errors s) as Hts'.
    rewrite Hrun in Hrq', Hts'. cbn [state_of] in Hrq', Hts'.
    exists st'. unfold bind. rewrite Hrun. split; [done|].
    split; [|done]. intros _. split.
    + unfold same_requests in Hrq'. congruence.
    + intros id el' d' errors' Hid. apply Hts' in Hid. by rewrite Hts in Hid.
Qed.

Lemma remote_check_when_locally_valid_witness :
  ∃ st',
    validateInput Sample.no_delay Sample.no_target Sample.numeral
      Sample.nobody [0] true Sample.user_form
    = Done (Some 0) st'
    ∧ requests st' !! 0 = Some (mkRequest (JStr "/check") "user" (JStr "x") [0] 0 []).
Proof.
  destruct (remote_check_when_locally_valid Sample.no_delay Sample.no_target Sample.numeral
    Sample.nobody
              [0] true Sample.user_form) as (st' & Hpass & _ & Hsent & _).
  - reflexivity.
  - repeat (apply Forall_cons; split; [reflexivity|]). by apply Forall_nil.
  - by eexists.
  - exists st'. split; [exact Hpass|].
    rewrite Hsent by reflexivity. reflexivity.
Defined.

(** ** The submit control without [options.disable] *)

Section Enabled.

Variable options : Options.
Variable query : string → list nat.
Variable ToNumber : string → number.
Variable vetoes : State → option nat → bool.
Variable stack : nat.

Hypothesis Hdisable : disable options = false.

Lemma enabled_showErrors el : keeps stays_enabled (showErrors options el).
Proof. unfold showErrors. keeps_with fail by (by intros ?). Qed.

Lemma enabled_clearErrors el : keeps stays_enabled (clearErrors el).
Proof. unfold clearErrors. keeps_with fail by (by intros ?). Qed.

Lemma enabled_toggleSubmit : keeps stays_enabled (toggleSubmit options).
Proof. unfold toggleSubmit. rewrite Hdisable. apply keeps_ret; tc_solve. Qed.

Lemma enabled_trigger a : keeps stays_enabled (trigger a).
Proof. by intros st ?. Qed.

Lemma enabled_focusError : keeps stays_enabled (focusError options).
Proof. unfold focusError. keeps_with (apply enabled_trigger) by (by intros ?). Qed.

Lemma enabled_run_callback cb : keeps stays_enabled (run_callback options cb).
Proof.
  destruct cb; simpl; [apply enabled_showErrors|].
  unfold remote_get. keeps_with fail by (by intros ?).
Qed.

Lemma enabled_defer el cb : keeps stays_enabled (defer options el cb).
Proof.
  unfold defer, clearTimeout, setTimeout.
  keeps_with (apply enabled_run_callback) by (by intros ?).
Qed.

Ltac enabled_tac :=
  first [ apply enabled_showErrors | apply enabled_clearErrors
        | apply enabled_toggleSubmit | apply enabled_defer
        | apply enabled_trigger | apply enabled_focusError
        | apply enabled_run_callback
        | lazymatch goal with
          | |- keeps _ (listener _) => apply keeps_listener
          end ].

Lemma enabled_run_continuation k errors :
  keeps stays_enabled (run_continuation options k errors).
Proof. destruct k; simpl; keeps_with enabled_tac by (by intros ?). Qed.

Lemma enabled_each vs el errors : keeps stays_enabled (each vs el errors).
Proof.
  revert errors. induction vs as [|[key v] vs IH]; intros errors; simpl.
  - apply keeps_ret; tc_solve.
  - apply keeps_bind; [tc_solve| |auto].
    keeps_with enabled_tac by (by intros ?).
Qed.

Lemma enabled_resolve d errors : keeps stays_enabled (resolve options d errors).
Proof.
  unfold resolve. keeps_with (first [apply enabled_run_continuation | enabled_tac]) by (by intros ?).
Qed.

Lemma enabled_done d k : keeps stays_enabled (done_ options d k).
Proof.
  unfold done_. keeps_with (first [apply enabled_run_continuation | enabled_tac]) by (by intros ?).
Qed.

Lemma enabled_runValidators el :
  keeps stays_enabled (runValidators options query ToNumber el).
Proof.
  unfold runValidators, reject, Deferred_new.
  keeps_with (first [apply enabled_each | apply enabled_resolve | enabled_tac]) by (by intros ?).
Qed.

Lemma enabled_validateInput el deferErrors :
  keeps stays_enabled (validateInput options query ToNumber vetoes el deferErrors).
Proof.
  unfold validateInput.
  keeps_with (first [apply enabled_runValidators | apply enabled_done | enabled_tac])
    by (by intros ?).
Qed.

Ltac enabled_events :=
  first [ apply enabled_validateInput | apply enabled_done | enabled_tac ].

Lemma enabled_onInput target type :
  keeps stays_enabled (onInput options query ToNumber vetoes target type).
Proof. unfold onInput. keeps_with enabled_events by (by intros ?). Qed.

Lemma enabled_validate : keeps stays_enabled (validate options query ToNumber vetoes).
Proof. unfold validate. keeps_with enabled_events by (by intros ?). Qed.

Lemma enabled_onSubmit : keeps stays_enabled (onSubmit options query ToNumber vetoes).
Proof.
  unfold onSubmit. keeps_with (first [apply enabled_validate | enabled_events]) by (by intros ?).
Qed.

Lemma enabled_trigger_input fuel target :
  keeps stays_enabled (trigger_input options query ToNumber vetoes fuel target).
Proof.
  revert target. induction fuel as [|fuel IH]; intros target; simpl.
  - apply keeps_throw; tc_solve.
  - keeps_with (first [apply IH | apply enabled_onInput]) by (by intros ?).
Qed.

Lemma enabled_dispatch type target :
  keeps stays_enabled (dispatch options query ToNumber vetoes stack type target).
Proof.
  unfold dispatch.
  keeps_with (first [ apply enabled_trigger_input | apply enabled_onInput
                    | enabled_events ]) by (by intros ?).
Qed.

Lemma enabled_fire id : keeps stays_enabled (fire options id).
Proof. unfold fire. keeps_with enabled_events by (by intros ?). Qed.

Lemma enabled_respond id failure : keeps stays_enabled (respond options id failure).
Proof.
  unfold respond. keeps_with (first [apply enabled_resolve | enabled_events]) by (by intros ?).
Qed.

Lemma enabled_reset : keeps stays_enabled reset.
Proof. unfold reset, clearTimeout. keeps_with fail by (by intros ?). Qed.

Lemma enabled_Validator : keeps stays_enabled (Validator options query ToNumber vetoes).
Proof.
  unfold Validator. keeps_with (first [apply enabled_onInput | enabled_events]) by (by intros ?).
Qed.

Lemma enabled_step e st :
  stays_enabled st (step options query ToNumber vetoes stack e st).
Proof.
  destruct e; simpl.
  - by intros ?.
  - apply enabled_dispatch.
  - apply enabled_onSubmit.
  - apply enabled_reset.
  - apply enabled_fire.
  - apply enabled_respond.
Qed.

End Enabled.

(** Without [options.disable] the plugin never disables the submit
    control: enabled when the plugin is made, it is enabled after the
    constructor and after every sequence of events. *)
Theorem submit_control_left_enabled options query ToNumber vetoes stack evs st :
  disable options = false → btn_disabled st = false →
  btn_disabled (state_of (Validator options query ToNumber vetoes st)) = false
  ∧ btn_disabled (run options query ToNumber vetoes stack evs st) = false.
Proof.
  intros Hdisable Hst. split; [by apply enabled_Validator|].
  revert st Hst. induction evs as [|e evs IH]; intros st Hst; [done|].
  apply IH. by apply enabled_step.
Qed.

Lemma submit_control_left_enabled_witness :
  hasErrors (elements (run (mkOptions 0 false false true []) Sample.by_id Sample.numeral
    Sample.nobody 1
                         [Dom "focusout" 0; Submit] (Sample.signup "abc" "y"))) = true
  ∧ btn_disabled (run (mkOptions 0 false false true []) Sample.by_id Sample.numeral Sample.nobody 1
                    [Dom "focusout" 0; Submit] (Sample.signup "abc" "y")) = false.
Proof.
  split; [reflexivity|].
  apply (submit_control_left_enabled (mkOptions 0 false false true []) Sample.by_id Sample.numeral
           Sample.nobody 1 [Dom "focusout" 0; Submit] (Sample.signup "abc" "y"));
    reflexivity.
Defined.

(** ** The validation of the whole form *)

Lemma native_update c f es el :
  native (update c (with_store f) es) el = native es el.
Proof.
  unfold native. rewrite first_update.
  destruct (first es el) as [e|]; [simpl|done]. by case_bool_decide.
Qed.

Lemma elem_of_assign_inv key v o k w :
  (k, w) ∈ assign key v o → (k, w) ∈ o ∨ (k, w) = (key, v).
Proof.
  induction o as [|[k' w'] o IH]; simpl.
  - intros ?%list_elem_of_singleton. by right.
  - case_bool_decide as Hk'.
    + intros [->|?]%elem_of_cons; [subst; by right|]. left. by right.
    + intros [->|?]%elem_of_cons; [left; by left|].
      destruct IH as [?|?]; [done|left; by right|by right].
Qed.

Lemma elem_of_extend_inv base more k w :
  (k, w) ∈ extend base more → (k, w) ∈ base ∨ (k, w) ∈ more.
Proof.
  unfold extend. revert base. induction more as [|[key v] more IH]; intros base; simpl.
  - by left.
  - intros [[?| ->]%elem_of_assign_inv|?]%IH.
    + by left.
    + right. by left.
    + right. by right.
Qed.

Lemma store_blind_validators options query ToNumber :
  Forall (λ kv, store_blind kv.2) (custom options) →
  Forall (λ kv, store_blind kv.2) (validators options query ToNumber).
Proof.
  intros Hcustom. apply Forall_forall. intros [k w] Hin.
  unfold validators in Hin. rewrite elem_of_for_in in Hin.
  apply elem_of_extend_inv in Hin as [Hin|Hin].
  - apply elem_of_VALIDATORS in Hin as [[_ ->]|[[_ ->]|[_ ->]]]; simpl.
    + intros c f es el. apply native_update.
    + intros c f es el. apply match_update.
    + intros c f es el. apply minlength_update.
  - by apply (proj1 (Forall_forall _ _) Hcustom (k, w)).
Qed.

Lemma target_of_update c f es i :
  target_of (update c (with_store f) es) i = target_of es i.
Proof.
  unfold target_of. by rewrite is_type_update, inputs_named_update, attr_name_update.
Qed.

Lemma push_update c f es el errors kv :
  store_blind kv.2 →
  push (update c (with_store f) es) el errors kv = push es el errors kv.
Proof.
  intros Hkv. unfold push. rewrite applies_update, Hkv.
  destruct (applies es el kv.1); [|done].
  destruct (kv.2 es el) as [error|]; [|done]. by rewrite message_update.
Qed.

Lemma throws_update c f es el kv :
  store_blind kv.2 →
  throws (update c (with_store f) es) el kv = throws es el kv.
Proof.
  intros Hkv. unfold throws. rewrite applies_update, Hkv.
  destruct (applies es el kv.1); [|done].
  destruct (kv.2 es el) as [error|]; [|done]. by rewrite message_update.
Qed.

Lemma differ_target_of es es' i :
  stores_differ es es' → target_of es' i = target_of es i.
Proof.
  intros Hes. induction Hes as [|es' c f _ IH]; [done|]. by rewrite target_of_update.
Qed.

Lemma differ_inputs es es' : stores_differ es es' → inputs es' = inputs es.
Proof.
  intros Hes. induction Hes as [|es' c f _ IH]; [done|]. by rewrite inputs_update.
Qed.

Lemma differ_data es es' el key :
  stores_differ es es' → data es' el key = data es el key.
Proof.
  intros Hes. induction Hes as [|es' c f _ IH]; [done|]. by rewrite data_update.
Qed.

Lemma differ_first es es' el :
  stores_differ es es' → is_Some (first es el) → is_Some (first es' el).
Proof.
  intros Hes Hfirst. induction Hes as [|es' c f _ IH]; [done|].
  rewrite first_update. destruct IH as [e ->]. by eexists.
Qed.

Lemma differ_push es es' vs el errors :
  stores_differ es es' → Forall (λ kv, store_blind kv.2) vs →
  foldl (push es' el) errors vs = foldl (push es el) errors vs.
Proof.
  intros Hes Hvs. induction Hes as [|es' c f _ IH]; [done|]. rewrite <- IH.
  clear IH. revert errors. induction Hvs as [|kv vs Hkv _ IH]; intros errors; [done|].
  simpl. by rewrite push_update, IH.
Qed.

Lemma differ_throws es es' vs el :
  stores_differ es es' → Forall (λ kv, store_blind kv.2) vs →
  Forall (λ kv, throws es el kv = false) vs →
  Forall (λ kv, throws es' el kv = false) vs.
Proof.
  intros Hes Hvs Hthrows. induction Hes as [|es' c f _ IH]; [done|].
  apply Forall_forall. intros kv Hkv.
  rewrite throws_update by (by apply (proj1 (Forall_forall _ _) Hvs)).
  by apply (proj1 (Forall_forall _ _) IH).
Qed.

Section Validate.

Variable options : Options.
Variable query : string → list nat.
Variable ToNumber : string → number.
Variable vetoes : State → option nat → bool.

(** [showErrors] changes the form groups only. *)
Lemma showErrors_elements el st st' :
  showErrors options el st = Done tt st' → elements st' = elements st.
Proof.
  unfold showErrors, bind at 1, get.
  destruct (stored bs_errors (elements st) el) as [[|error errors]|]; [|clear|done].
  - by intros [= <-].
  - unfold bind, modify, ret. destruct (hasClass_feedback _ _); by intros [= <-].
Qed.

(** The callback of a pass whose errors are shown at once changes of the
    elements the stored error list of the fields of the pass only. *)
Lemma run_continuation_elements el prevErrors errors st st' :
  run_continuation options (Validated el false prevErrors) errors st = Done tt st' →
  elements st' = update el (with_store (set_errors (Some errors))) (elements st).
Proof.
  unfold run_continuation, bind at 1, modify at 1.
  set (st1 := with_elements _ st).
  change (update el (with_store (set_errors (Some errors))) (elements st))
    with (elements st1).
  clearbody st1. unfold bind at 1.
  destruct (match errors with [] => clearErrors el | _ => _ end st1) as [[] st2|]
    eqn:Hshow; [|done].
  assert (elements st2 = elements st1) as <-.
  { destruct errors as [|error errors].
    - destruct (clearErrors_unmarks el st1) as (gs' & Hclear & _).
      rewrite Hclear in Hshow. by injection Hshow as <-.
    - by apply (showErrors_elements el). }
  clear Hshow. unfold toggleSubmit.
  destruct (match prevErrors with
            | Some prev => _
            | None => true
            end), errors, (disable options);
    unfold bind, trigger, modify, get, ret; simpl; by intros [= <-].
Qed.

End Validate.

Section ValidateAll.

Variable options : Options.
Variable query : string → list nat.
Variable ToNumber : string → number.
Variable vetoes : State → option nat → bool.
Variable es0 : list Element.

Let vs := validators options query ToNumber.

Hypothesis Hveto : ∀ st h, vetoes st h = false.
Hypothesis Hblind : Forall (λ kv, store_blind kv.2) (custom options).
Hypothesis Hexclusive : ∀ i j e e',
  es0 !! i = Some e → es0 !! j = Some e' →
  el_type e = TRadio → el_name e' = el_name e → el_type e' = TRadio.
Hypothesis Hfields : ∀ i, i ∈ inputs es0 →
  Forall (λ kv, throws es0 (target_of es0 i) kv = false) vs
  ∧ truthy (data es0 (target_of es0 i) "remote") = false.

Lemma first_target_of i : i ∈ inputs es0 → is_Some (first es0 (target_of es0 i)).
Proof.
  intros (e & He & _)%elem_of_indices. unfold target_of.
  destruct (is_type es0 [i] TRadio).
  - unfold attr_name. simpl. rewrite He. by apply (inputs_named_first es0 i).
  - simpl. by rewrite He.
Qed.

(** The pass [validate] runs on the field [i]. *)
Lemma pass_of_validate i s :
  stores_differ es0 (elements s) → i ∈ inputs es0 →
  ∃ d s',
    validateInput options query ToNumber vetoes [i] false s = Done (Some d) s'
    ∧ elements s'
      = update (target_of es0 i)
          (with_store (set_errors (Some (foldl (push es0 (target_of es0 i)) [] vs))))
          (update (target_of es0 i)
             (with_store (set_deferred (Some (length (deferreds s))))) (elements s)).
Proof.
  intros Hs Hi.
  pose proof (validateInput_callback options query ToNumber vetoes [i] false s) as Hpass.
  cbv zeta in Hpass. fold (target_of (elements s) i) in Hpass.
  rewrite (differ_target_of es0) in Hpass by done.
  set (target := target_of es0 i) in *.
  rewrite !started_elements in Hpass. cbn [elements with_log] in Hpass.
  set (es1 := update target _ (elements s)) in *.
  assert (stores_differ es0 es1) as Hes1 by (by apply stores_update).
  assert (Forall (λ kv, store_blind kv.2) vs) as Hvs
    by (by apply store_blind_validators).
  destruct (Hfields i Hi) as [Hthrows Hremote]. fold target in Hthrows, Hremote.
  rewrite (differ_push es0 es1) in Hpass by done.
  set (errors := foldl (push es0 target) [] vs) in *.
  rewrite Hpass; [|done|by apply (differ_throws es0)|].
  - set (s1 := with_deferreds _ _).
    assert (elements s1 = es1) as Hes.
    { unfold s1. cbn [elements with_deferreds with_log]. by rewrite started_elements. }
    assert (is_Some (first (elements s1) target)) as Hfirst
      by (rewrite Hes; apply (differ_first es0); [done|by apply first_target_of]).
    clearbody s1.
    destruct (run_continuation_returns options target false
                (stored bs_errors (elements s) [i]) errors s1 Hfirst) as [s' Hrun].
    exists (length (deferreds s)), s'. unfold bind.
    unfold errors, vs in Hrun. rewrite Hrun. split; [done|].
    rewrite <- Hes. by eapply run_continuation_elements.
  - by rewrite (differ_data es0 es1), Hremote, andb_false_r.
Qed.

Lemma self_target i : i ∈ inputs es0 → i ∈ target_of es0 i.
Proof.
  intros (e & He & _)%elem_of_indices. unfold target_of.
  destruct (is_type es0 [i] TRadio); [|by left].
  apply elem_of_indices. exists e. split; [done|].
  unfold attr_name. simpl. rewrite He. by apply bool_decide_eq_true.
Qed.

(** The fields a pass writes to have the collection of the pass as
    theirs. *)
Lemma target_of_member i j :
  j ∈ target_of es0 i → target_of es0 j = target_of es0 i.
Proof.
  unfold target_of at 1. destruct (is_type es0 [i] TRadio) eqn:Hradio.
  - intros (e' & He' & Hname%bool_decide_eq_true)%elem_of_indices.
    unfold is_type in Hradio. simpl in Hradio.
    destruct (es0 !! i) as [e|] eqn:He; [|done].
    rewrite orb_false_r in Hradio. apply bool_decide_eq_true in Hradio.
    unfold attr_name in Hname. simpl in Hname. rewrite He in Hname.
    assert (el_type e' = TRadio) as Hradio' by (by apply (Hexclusive i j e e')).
    unfold target_of, is_type, attr_name. simpl. rewrite He, He'.
    by rewrite !bool_decide_eq_true_2, Hname.
  - by intros ->%list_elem_of_singleton.
Qed.

(** The loop of [validate] over the fields. *)
Lemma validate_loop todo processed s :
  stores_differ es0 (elements s) →
  (∀ i, i ∈ todo → i ∈ inputs es0) →
  (∀ j e, j ∈ processed → elements s !! j = Some e →
     bs_errors (el_store e) = Some (foldl (push es0 (target_of es0 j)) [] vs)) →
  ∃ s',
    forM todo (λ i, do_ validateInput options query ToNumber vetoes [i] false; ret tt) s
    = Done tt s'
    ∧ stores_differ es0 (elements s')
    ∧ ∀ j e, j ∈ processed ++ todo → elements s' !! j = Some e →
        bs_errors (el_store e) = Some (foldl (push es0 (target_of es0 j)) [] vs).
Proof.
  revert processed s. induction todo as [|i todo IH]; intros processed s Hs Htodo Hdone.
  - exists s. rewrite app_nil_r. by repeat split.
  - destruct (pass_of_validate i s Hs) as (d & s1 & Hpass & Hes1);
      [apply Htodo; by left|].
    destruct (IH (processed ++ [i]) s1) as (s' & Hloop & Hs' & Hall).
    + rewrite Hes1. by do 2 apply stores_update.
    + intros j Hj. apply Htodo. by right.
    + intros j e Hj He. rewrite Hes1, !lookup_update in He.
      destruct (elements s !! j) as [e0|] eqn:He0; [simpl in He|done].
      destruct (decide (j ∈ target_of es0 i)) as [Hin|Hout].
      * rewrite !bool_decide_eq_true_2 in He by done. injection He as <-. simpl.
        by rewrite (target_of_member i j).
      * rewrite !bool_decide_eq_false_2 in He by done. injection He as <-.
        apply elem_of_app in Hj as [Hj|Hj%list_elem_of_singleton].
        -- by apply (Hdone j).
        -- subst j. destruct Hout. apply self_target, Htodo. by left.
    + exists s'. split; [|split; [done|]].
      * simpl. unfold bind at 1 2. by rewrite Hpass.
      * intros j e Hj. apply Hall. rewrite <- app_assoc. done.
Qed.

End ValidateAll.



(** * Properties of the other scripts *)

(** ** fileExtension *)

Lemma dotless_nil : dotless "".
Proof. intros [|a pre] post; done. Qed.

Lemma dotless_cons a s : dotless (String a s) ↔ a ≠ "."%char ∧ dotless s.
Proof.
  split.
  - intros Hs. split.
    + intros ->. by apply (Hs "" s).
    + intros pre post ->. by apply (Hs (String a pre) post).
  - intros [Ha Hs] [|b pre] post; simpl; intros [= ? ?]; [done|]. by eapply Hs.
Qed.

Lemma lastIndexOf_dotless s i : dotless s → lastIndexOf_from s "."%char i = (-1)%Z.
Proof.
  revert i. induction s as [|a s IH]; intros i Hs; [done|]. simpl.
  apply dotless_cons in Hs as [Ha Hs]. rewrite IH by done.
  rewrite bool_decide_eq_false_2 by lia. by rewrite bool_decide_eq_false_2.
Qed.

Lemma lastIndexOf_last_dot base ext i :
  dotless ext → (0 ≤ i)%Z →
  lastIndexOf_from (base +:+ String "."%char ext) "."%char i
  = (i + Z.of_nat (String.length base))%Z.
Proof.
  intros Hext. revert i. induction base as [|a base IH]; intros i Hi; simpl.
  - rewrite lastIndexOf_dotless by done.
    rewrite bool_decide_eq_false_2 by lia. rewrite ?bool_decide_eq_true_2 by done. lia.
  - rewrite IH by lia. rewrite bool_decide_eq_true_2 by lia. lia.
Qed.

(** A string holds no dot, or has a last one. *)
Lemma last_dot s :
  dotless s ∨ ∃ base ext, s = base +:+ String "."%char ext ∧ dotless ext.
Proof.
  induction s as [|a s IH]; [left; apply dotless_nil|].
  destruct IH as [Hs|(base & ext & -> & Hext)].
  - destruct (decide (a = "."%char)) as [->|Ha].
    + right. by exists "", s.
    + left. by apply dotless_cons.
  - right. by exists (String a base), ext.
Qed.

Lemma string_drop_app base a s :
  string_drop (S (String.length base)) (base +:+ String a s) = s.
Proof. induction base as [|b base IH]; [done|]. apply IH. Qed.

Lemma length_app_cons base a s :
  String.length (base +:+ String a s) = String.length base + S (String.length s).
Proof. induction base as [|b base IH]; [done|]. simpl. by rewrite IH. Qed.

(** [lower] changes capital letters only, and these are from A on. *)
Lemma lower_cases a :
  lower a = a ∨ (65 ≤ nat_of_ascii a ∧ nat_of_ascii (lower a) = nat_of_ascii a + 32).
Proof.
  unfold lower. case_match eqn:Ha; [right|by left].
  assert (65 ≤ nat_of_ascii a ≤ 222) as Hrange.
  { apply orb_prop in Ha as [Ha|Ha].
    - apply andb_prop in Ha as [?%bool_decide_eq_true ?%bool_decide_eq_true]. lia.
    - apply andb_prop in Ha as [Ha _].
      apply andb_prop in Ha as [?%bool_decide_eq_true ?%bool_decide_eq_true]. lia. }
  split; [lia|]. apply Ascii.nat_ascii_embedding. lia.
Qed.

Lemma lower_preimage a c : nat_of_ascii c < 65 → lower a = c ↔ a = c.
Proof.
  intros Hc. destruct (lower_cases a) as [->|[Ha Hlower]]; [done|].
  split; intros <-; lia.
Qed.

Lemma lower_dot a : lower a = "."%char ↔ a = "."%char.
Proof. apply lower_preimage. vm_compute. lia. Qed.

Lemma lower_lower a : lower (lower a) = lower a.
Proof. destruct a as [[] [] [] [] [] [] [] []]; reflexivity. Qed.

Lemma toLowerCase_idemp s : toLowerCase (toLowerCase s) = toLowerCase s.
Proof. induction s as [|a s IH]; [done|]. simpl. by rewrite lower_lower, IH. Qed.

Lemma toLowerCase_dotless s : dotless s → dotless (toLowerCase s).
Proof.
  induction s as [|a s IH]; [done|]. simpl. rewrite !dotless_cons.
  intros [Ha Hs]. split; [by rewrite lower_dot|by apply IH].
Qed.

Lemma fileExtension_dotless_file file :
  dotless file → fileExtension file = toLowerCase file.
Proof.
  intros Hfile. unfold fileExtension, lastIndexOf. rewrite lastIndexOf_dotless by done.
  unfold substr. rewrite bool_decide_eq_false_2 by lia.
  by replace (Z.to_nat _) with 0 by lia.
Qed.

Lemma fileExtension_ext base ext :
  dotless ext → fileExtension (base +:+ String "."%char ext) = toLowerCase ext.
Proof.
  intros Hext. unfold fileExtension, lastIndexOf.
  rewrite lastIndexOf_last_dot by done.
  unfold substr. rewrite bool_decide_eq_false_2 by lia. rewrite length_app_cons.
  replace (Z.to_nat _) with (S (String.length base)) by lia.
  by rewrite string_drop_app.
Qed.

(** [fileExtension] gives what follows the last dot of the name, in lower
    case; the whole name, in lower case, when it holds no dot; never a
    string with a dot; and applied to its own result it changes nothing. *)
Theorem fileExtension_last_dot file :
  dotless (fileExtension file)
  ∧ (dotless file → fileExtension file = toLowerCase file)
  ∧ (∀ base ext, file = base +:+ String "."%char ext → dotless ext →
       fileExtension file = toLowerCase ext)
  ∧ fileExtension (fileExtension file) = fileExtension file.
Proof.
  assert (dotless (fileExtension file)) as Hdotless.
  { destruct (last_dot file) as [Hfile|(base & ext & -> & Hext)].
    - rewrite fileExtension_dotless_file by done. by apply toLowerCase_dotless.
    - rewrite fileExtension_ext by done. by apply toLowerCase_dotless. }
  split; [done|]. split; [apply fileExtension_dotless_file|]. split.
  - intros base ext -> Hext. by apply fileExtension_ext.
  - rewrite (fileExtension_dotless_file (fileExtension file)) by done.
    destruct (last_dot file) as [Hfile|(base & ext & -> & Hext)].
    + rewrite fileExtension_dotless_file by done. apply toLowerCase_idemp.
    + rewrite fileExtension_ext by done. apply toLowerCase_idemp.
Qed.

(** The extension of a name that ends in [.JP], U+00C9 and [G]. *)
Example fileExtension_of_capitals :
  fileExtension ("foto.JP" +:+ code_units [201; 71]) = "jp" +:+ code_units [233; 103].
Proof. reflexivity. Qed.

(** ** Attributes.prototype.toString *)

Lemma app_cons a (s t : string) : String a s +:+ t = String a (s +:+ t).
Proof. done. Qed.

Lemma string_app_assoc (s t u : string) : (s +:+ t) +:+ u = s +:+ (t +:+ u).
Proof. induction s as [|a s IH]; [done|]. rewrite !app_cons. by f_equal. Qed.

Lemma count_app c s t : count c (s +:+ t) = count c s + count c t.
Proof.
  induction s as [|a s IH]; [done|]. rewrite app_cons. simpl. rewrite IH. lia.
Qed.

Lemma replace_all_app c by_ s t :
  replace_all c by_ (s +:+ t) = replace_all c by_ s +:+ replace_all c by_ t.
Proof.
  induction s as [|a s IH]; [done|]. rewrite app_cons. simpl. rewrite IH.
  case_bool_decide; [|done]. by rewrite string_app_assoc.
Qed.

Lemma replace_all_other c by_ a :
  a ≠ c → replace_all c by_ (String a "") = String a "".
Proof. intros Ha. simpl. by rewrite bool_decide_eq_false_2. Qed.

Lemma checkPlain_escape str : checkPlain str = escape str.
Proof.
  unfold checkPlain. case_bool_decide as Hstr; [by subst|]. clear Hstr.
  induction str as [|a str IH]; [done|].
  change (String a str) with (String a "" +:+ str).
  rewrite !replace_all_app, IH. change (escape (String a "" +:+ str))
    with (entity a +:+ escape str). f_equal.
  unfold entity.
  destruct (decide (a = "&"%char)) as [->|?]; [done|].
  destruct (decide (a = quot)) as [->|?]; [done|].
  destruct (decide (a = "<"%char)) as [->|?]; [done|].
  destruct (decide (a = ">"%char)) as [->|?]; [done|].
  rewrite !bool_decide_eq_false_2 by done.
  by rewrite !replace_all_other.
Qed.

(** The cases of [entity]. *)
Lemma entity_cases a :
  (a = "&"%char ∧ entity a = "&amp;") ∨ (a = quot ∧ entity a = "&quot;")
  ∨ (a = "<"%char ∧ entity a = "&lt;") ∨ (a = ">"%char ∧ entity a = "&gt;")
  ∨ (a ≠ "&"%char ∧ a ≠ quot ∧ a ≠ "<"%char ∧ a ≠ ">"%char ∧ entity a = String a "").
Proof.
  unfold entity. repeat case_bool_decide; subst; eauto 10.
Qed.

Lemma count_escape c str :
  c = quot ∨ c = "<"%char ∨ c = ">"%char → count c (escape str) = 0.
Proof.
  intros Hc. induction str as [|a str IH]; [done|].
  change (escape (String a str)) with (entity a +:+ escape str).
  rewrite count_app, IH.
  destruct (entity_cases a) as [[_ ->]|[[_ ->]|[[_ ->]|[[_ ->]|(? & ? & ? & ? & ->)]]]];
    destruct Hc as [-> | [-> | ->]]; try done; simpl; by rewrite bool_decide_eq_false_2.
Qed.

Lemma escape_inj s t : escape s = escape t → s = t.
Proof.
  revert t. induction s as [|a s IH]; intros [|b t]; simpl.
  - done.
  - destruct (entity_cases b) as [[_ ->]|[[_ ->]|[[_ ->]|[[_ ->]|(_ & _ & _ & _ & ->)]]]];
      done.
  - destruct (entity_cases a) as [[_ ->]|[[_ ->]|[[_ ->]|[[_ ->]|(_ & _ & _ & _ & ->)]]]];
      done.
  - destruct (entity_cases a)
      as [(-> & ->)|[(-> & ->)|[(-> & ->)|[(-> & ->)|(? & ? & ? & ? & ->)]]]];
      destruct (entity_cases b)
        as [(-> & ->)|[(-> & ->)|[(-> & ->)|[(-> & ->)|(? & ? & ? & ? & ->)]]]];
      rewrite ?app_cons; simpl; intros [= ?]; subst; try done; f_equal; by apply IH.
Qed.

Lemma count_toString c out data :
  c = quot ∨ c = "<"%char ∨ c = ">"%char →
  count c (foldl (λ output '(name, value),
                    output +:+ " " +:+ checkPlain name +:+ "=" +:+ String quot ""
                           +:+ checkPlain (attribute_value value) +:+ String quot "")
                 out data)
  = count c out + (if bool_decide (c = quot) then 2 * length data else 0).
Proof.
  intros Hc. revert out. induction data as [|[name value] data IH]; intros out; simpl.
  - case_bool_decide; lia.
  - rewrite IH. rewrite !count_app, !checkPlain_escape, !count_escape by done.
    simpl. destruct Hc as [-> | [-> | ->]]; simpl; lia.
Qed.

(** The four replacements of [checkPlain], one after the other, write for
    every character of the string its entity or the character itself: no
    entity is escaped again.  Different strings are written differently,
    and what is written holds no double quote, no [<] and no [>]. *)
Theorem checkPlain_one_pass str :
  checkPlain str = escape str
  ∧ (∀ str', checkPlain str = checkPlain str' → str = str')
  ∧ count quot (checkPlain str) = 0
  ∧ count "<" (checkPlain str) = 0
  ∧ count ">" (checkPlain str) = 0.
Proof.
  split; [apply checkPlain_escape|]. split.
  - intros str'. rewrite !checkPlain_escape. apply escape_inj.
  - rewrite !checkPlain_escape. repeat split; apply count_escape; eauto.
Qed.


(** ** The classes of Attributes *)

Lemma elem_of_uniq_go (result l : list string) x :
  x ∈ foldl (λ result x, if bool_decide (x ∈ result) then result else result ++ [x])
        result l
  ↔ x ∈ result ∨ x ∈ l.
Proof.
  revert result. induction l as [|y l IH]; intros result; simpl.
  - split; [by left|]. by intros [?|?%elem_of_nil].
  - rewrite IH. case_bool_decide as Hy.
    + rewrite elem_of_cons. split; [intros [?|?]; eauto|].
      intros [?|[->|?]]; eauto.
    + rewrite elem_of_app, list_elem_of_singleton, elem_of_cons. tauto.
Qed.

Lemma elem_of_uniq (l : list string) x : x ∈ uniq l ↔ x ∈ l.
Proof.
  unfold uniq. rewrite elem_of_uniq_go. split; [|by right].
  by intros [?%elem_of_nil|?].
Qed.

Lemma NoDup_uniq_go (result l : list string) :
  NoDup result →
  NoDup (foldl (λ result x, if bool_decide (x ∈ result) then result else result ++ [x])
           result l).
Proof.
  revert result. induction l as [|y l IH]; intros result Hresult; simpl; [done|].
  apply IH. case_bool_decide as Hy; [done|].
  apply NoDup_app. split; [done|]. split; [|apply NoDup_singleton].
  by intros x Hx ->%list_elem_of_singleton.
Qed.

Lemma NoDup_uniq l : NoDup (uniq l).
Proof. apply NoDup_uniq_go, NoDup_nil_2. Qed.

Lemma flatten_app args args' : flatten (args ++ args') = flatten args ++ flatten args'.
Proof. unfold flatten. apply flat_map_app. Qed.

Lemma elem_of_sanitizeClasses args c :
  c ∈ sanitizeClasses args
  ↔ ∃ s, s ∈ flat_map split (flatten args) ∧ s ≠ "" ∧ c = cleanClass s.
Proof.
  unfold sanitizeClasses. rewrite elem_of_uniq, list_elem_of_fmap.
  split.
  - intros (s & -> & [? ?]%list_elem_of_filter). by exists s.
  - intros (s & ? & ? & ->). exists s. split; [done|]. by apply list_elem_of_filter.
Qed.

Lemma strict_equal_array c l : strict_equal (CString c) (CArray l) = false.
Proof. done. Qed.

Lemma added_classes_present classes args :
  hasClass (addClass classes args) args = true.
Proof.
  unfold hasClass. apply forallb_forall. intros c Hc%list_elem_of_In.
  apply bool_decide_eq_true. unfold addClass.
  apply elem_of_sanitizeClasses in Hc as (s & Hs & ? & ->).
  apply elem_of_sanitizeClasses. exists s. split; [|done].
  rewrite flatten_app, flat_map_app. apply elem_of_app. by right.
Qed.

(** *** cleanClass *)

Lemma prefix_cons p pattern a s :
  String.prefix (String p pattern) (String a s)
  = bool_decide (p = a) && String.prefix pattern s.
Proof. simpl. destruct (ascii_dec p a); by case_bool_decide. Qed.

Lemma replace_first_cons pattern replacement a s :
  replace_first pattern replacement (String a s)
  = if String.prefix pattern (String a s)
    then replacement +:+ string_drop (String.length pattern) (String a s)
    else String a (replace_first pattern replacement s).
Proof. done. Qed.

Lemma count_cons c a s :
  count c (String a s) = 0 ↔ a ≠ c ∧ count c s = 0.
Proof.
  simpl. case_bool_decide as Ha; split.
  - lia.
  - by intros [? _].
  - by intros ?.
  - by intros [_ ?].
Qed.

(** A pattern whose first character the string does not hold is not
    found. *)
Lemma replace_first_absent p pattern replacement s :
  count p s = 0 → replace_first (String p pattern) replacement s = s.
Proof.
  induction s as [|a s IH]; [done|]. intros [Ha Hs]%count_cons.
  rewrite replace_first_cons, prefix_cons.
  rewrite bool_decide_eq_false_2 by done. simpl. by rewrite IH.
Qed.

Lemma count_string_drop c n s : count c s = 0 → count c (string_drop n s) = 0.
Proof.
  revert s. induction n as [|n IH]; intros [|a s]; try done.
  intros [_ Hs]%count_cons. by apply IH.
Qed.

Lemma count_replace_first c pattern replacement s :
  count c replacement = 0 → count c s = 0 →
  count c (replace_first pattern replacement s) = 0.
Proof.
  intros Hr. induction s as [|a s IH]; intros Hs.
  - destruct pattern as [|p pattern]; [simpl|done]. by rewrite count_app, Hr.
  - rewrite replace_first_cons. destruct (String.prefix pattern (String a s)).
    + rewrite count_app, Hr. by rewrite count_string_drop.
    + apply count_cons in Hs as [? ?]. apply count_cons. split; [done|by apply IH].
Qed.

Lemma count_string_filter (P : ascii → bool) c s :
  P c = false → count c (string_filter P s) = 0.
Proof.
  intros Hc. induction s as [|a s IH]; [done|]. simpl.
  destruct (P a) eqn:Ha; [|done]. apply count_cons. split; [congruence|done].
Qed.

Lemma count_toLowerCase_upper c s :
  lower c ≠ c → count c (toLowerCase s) = 0.
Proof.
  intros Hc. induction s as [|a s IH]; [done|]. apply count_cons. split; [|done].
  intros <-. apply Hc, lower_lower.
Qed.

Lemma count_toLowerCase_space s : count " " (toLowerCase s) = count " " s.
Proof.
  induction s as [|a s IH]; [done|]. simpl. rewrite IH. f_equal.
  assert (lower a = " "%char ↔ a = " "%char) as Ha
    by (apply lower_preimage; vm_compute; lia).
  repeat case_bool_decide; tauto.
Qed.

Lemma prefix_app pattern s : String.prefix pattern (pattern +:+ s) = true.
Proof.
  induction pattern as [|p pattern IH]; [by destruct s|].
  rewrite app_cons, prefix_cons, IH. by rewrite bool_decide_eq_true_2.
Qed.

Lemma string_drop_length_app pattern s :
  string_drop (String.length pattern) (pattern +:+ s) = s.
Proof. induction pattern as [|p pattern IH]; [done|]. apply IH. Qed.

Lemma replace_first_prefix pattern replacement s :
  pattern ≠ "" →
  replace_first pattern replacement (pattern +:+ s) = replacement +:+ s.
Proof.
  destruct pattern as [|p pattern]; [done|]. intros _.
  rewrite app_cons, replace_first_cons, <- app_cons.
  by rewrite prefix_app, string_drop_length_app.
Qed.

(** The text put in place of the first double underscore is found again
    where it was put, when the string holds no capital D. *)
Lemma double_underscore_restored s :
  count "D" s = 0 →
  replace_first "#DOUBLE_UNDERSCORE#" "__" (replace_first "__" "#DOUBLE_UNDERSCORE#" s)
  = s.
Proof.
  assert (∀ s pattern, count "D" s = 0 →
            String.prefix (String "D" pattern)
              (replace_first "__" "#DOUBLE_UNDERSCORE#" s) = false) as Hhead.
  { intros [|a t] pattern Ht; [done|].
    rewrite replace_first_cons. destruct (String.prefix "__" (String a t)); [done|].
    apply count_cons in Ht as [? _]. rewrite prefix_cons.
    by rewrite bool_decide_eq_false_2. }
  induction s as [|a s IH]; [done|]. intros Hs.
  rewrite replace_first_cons.
  destruct (String.prefix "__" (String a s)) eqn:Hprefix.
  - rewrite prefix_cons in Hprefix.
    apply andb_prop in Hprefix as [<-%bool_decide_eq_true Hprefix].
    destruct s as [|b s]; [done|]. rewrite prefix_cons in Hprefix.
    apply andb_prop in Hprefix as [<-%bool_decide_eq_true _].
    change (string_drop (String.length "__") (String "_" (String "_" s))) with s.
    by rewrite replace_first_prefix.
  - apply count_cons in Hs as [Ha Hs].
    rewrite replace_first_cons, prefix_cons, Hhead by done.
    rewrite andb_false_r. by rewrite IH.
Qed.

(** A class that [addClass] has added is there for [hasClass], whatever
    mix of strings, strings of several classes and arrays names it; and
    [addClass] leaves no class twice in the list. *)
Theorem addClass_hasClass classes args :
  hasClass (addClass classes args) args = true
  ∧ NoDup (addClass classes args).
Proof.
  split; [apply added_classes_present|apply NoDup_uniq].
Qed.

(** [removeClass] hands [_.without] the array of the classes to remove as
    one value, and [replaceClass] hands [_.indexOf] the array of the classes
    as the item to find; no class is equal to an array, so [removeClass]
    removes no class and [replaceClass] finds no position and replaces
    nothing.  A class stays in the list after it has been removed. *)
Theorem removeClass_removes_nothing classes args oldValue :
  removeClass classes args = classes
  ∧ replaceClass_index classes oldValue = (-1)%Z
  ∧ hasClass (removeClass (addClass classes args) args) args = true.
Proof.
  assert (∀ classes args, removeClass classes args = classes) as Hremove.
  { clear. intros classes args. unfold removeClass, without.
    induction classes as [|c classes IH]; [done|].
    rewrite filter_cons_True; [by rewrite IH|].
    intros [Hc|Hc%Exists_nil]%Exists_cons; [|done]. done. }
  split; [apply Hremove|]. split.
  - unfold replaceClass_index, indexOf. generalize 0%Z.
    induction (sanitizeClasses [oldValue]) as [|c array IH]; intros i; [done|].
    simpl. apply IH.
  - rewrite Hremove. apply added_classes_present.
Qed.

(** [cleanClass] on a string without a space, as the strings are that
    [sanitizeClasses] gives it: the string in lower case without the
    characters that are none of [-], [_], a digit or a letter.  An
    underscore stays an underscore; a slash and a bracket are removed. *)
Theorem cleanClass_filters identifier :
  count " " identifier = 0 →
  cleanClass identifier = string_filter identifier_character (toLowerCase identifier).
Proof.
  intros Hspace. unfold cleanClass.
  assert (count "D" (toLowerCase identifier) = 0) as Hupper
    by (by apply count_toLowerCase_upper).
  assert (count " " (toLowerCase identifier) = 0) as Hlower
    by (by rewrite count_toLowerCase_space).
  rewrite (replace_first_absent " ") by (by apply count_replace_first).
  rewrite double_underscore_restored by done.
  apply replace_first_absent. by apply count_string_filter.
Qed.

Lemma cleanClass_filters_witness :
  cleanClass "Nav__Item/[2]" = "nav__item2"
  ∧ cleanClass (code_units [209; 97; 110; 100; 250]) = code_units [241; 97; 110; 100; 250].
Proof.
  split.
  - rewrite (cleanClass_filters "Nav__Item/[2]"); reflexivity.
  - rewrite (cleanClass_filters (code_units [209; 97; 110; 100; 250])); reflexivity.
Defined.

(** ** Bootstrap.normalizeObject *)

Lemma normalize_string_cases s :
  (∃ s', normalize_string s = SString s'
         ∧ s' = s ∧ s ≠ "true" ∧ s ≠ "false" ∧ parse_one_character s = None)
  ∨ (∃ b, normalize_string s = SBoolean b)
  ∨ (∃ n, normalize_string s = SNumber n)
  ∨ normalize_string s = SNaN.
Proof.
  unfold normalize_string. repeat case_bool_decide; [eauto..|].
  destruct (parse_one_character s) as [v|] eqn:Hs; simpl; [|left; by exists s].
  unfold parse_one_character in Hs. repeat case_match; simplify_eq; eauto.
Qed.

Lemma setting_induction (P : setting → Prop) :
  (∀ s, P (SString s)) → (∀ b, P (SBoolean b)) → (∀ n, P (SNumber n)) → P SNaN →
  (∀ props, Forall (λ kv, P kv.2) props → P (SObject props)) →
  (∀ id, P (SOther id)) →
  ∀ v, P v.
Proof.
  intros Hs Hb Hn Hnan Ho Hother.
  fix go 1. intros [s|b|n| |props|id]; [done..| |done].
  apply Ho. induction props as [|kv props IH]; constructor; [apply go|apply IH].
Qed.

(** [normalizeObject] turns the strings true and false into booleans and a
    string of one digit into its number, at every depth of nested plain
    objects, and a minus sign or a dot alone into NaN; every other string,
    a numeral of two digits or more among them, stays a string.
    Normalizing a second time changes nothing. *)
Theorem normalizeObject_idempotent obj :
  normalizeObject (normalizeObject obj) = normalizeObject obj
  ∧ ∀ props key s,
      obj = SObject props → (key, SString s) ∈ props →
      2 ≤ String.length s → s ≠ "true" → s ≠ "false" →
      ∃ props', normalizeObject obj = SObject props' ∧ (key, SString s) ∈ props'.
Proof.
  split.
  - induction obj as [s|b|n| |props IH|id] using setting_induction; try done.
    simpl. f_equal. rewrite map_map. apply map_ext_Forall.
    eapply Forall_impl; [exact IH|]. intros [key v] Hv. simpl in *. f_equal.
    destruct v as [s|b|n| |props'|id]; try done.
    destruct (normalize_string_cases s)
      as [(s' & Hs & -> & ? & ? & Hp)|[[b ->]|[[n ->]| ->]]]; try done.
    by rewrite !Hs.
  - intros props key s -> Hin Hlen Htrue Hfalse. eexists. split; [done|].
    apply list_elem_of_In, in_map_iff. exists (key, SString s).
    split; [|by apply list_elem_of_In]. simpl. f_equal.
    unfold normalize_string. rewrite !bool_decide_eq_false_2 by done.
    by destruct s as [|a [|b s]]; [simpl in Hlen; lia..|].
Qed.

(** ** The keyboard handler of the tabs *)

(** With at least one tab, the handler of the tabs always gives the
    position of a tab: the arrows left and up move the focus one tab back
    and from the first tab, or from none, to the last; the arrows right and
    down move it one tab on and from the last tab, or from none, to the
    first. *)
Theorem tab_keydown_wraps k length focused :
  0 < length → (∀ i, focused = Some i → i < length) →
  (∀ j, tab_keydown k length focused = Some j → 0 ≤ j < Z.of_nat length)%Z
  ∧ (k = 37%N ∨ k = 38%N →
       tab_keydown k length focused
       = Some match focused with
              | Some (S i) => Z.of_nat i
              | _ => (Z.of_nat length - 1)%Z
              end)
  ∧ (k = 39%N ∨ k = 40%N →
       tab_keydown k length focused
       = Some match focused with
              | Some i => if bool_decide (S i = length) then 0%Z else Z.of_nat (S i)
              | None => 0%Z
              end).
Proof.
  intros Hlength Hfocused.
  assert (match focused with Some i => Z.of_nat i | None => (-1)%Z end < Z.of_nat length
          ∧ -1 ≤ match focused with Some i => Z.of_nat i | None => (-1)%Z end)%Z as Hi.
  { destruct focused as [i|]; [|lia]. specialize (Hfocused i eq_refl). lia. }
  split; [|split].
  - intros j. unfold tab_keydown. destruct (arrow_pattern k); [simpl|done].
    intros [= <-].
    repeat (case_bool_decide || destruct (bool_decide (k = _)); simpl in *); lia.
  - intros [-> | ->]; unfold tab_keydown; simpl;
      destruct focused as [[|i]|]; simpl; f_equal;
      repeat (case_bool_decide; simpl in * ); try lia;
      specialize (Hfocused _ eq_refl); lia.
  - intros [-> | ->]; unfold tab_keydown; simpl;
      destruct focused as [i|]; simpl; f_equal;
      repeat (case_bool_decide; simpl in * ); try lia;
      specialize (Hfocused _ eq_refl); lia.
Qed.

Lemma tab_keydown_wraps_witness :
  tab_keydown 39 3 (Some 2) = Some 0%Z ∧ tab_keydown 37 3 (Some 0) = Some 2%Z.
Proof.
  assert (0 < 3) as Hlength by lia.
  split.
  - destruct (tab_keydown_wraps 39 3 (Some 2) Hlength) as (_ & _ & Hright).
    + intros i [= <-]. lia.
    + by rewrite Hright by (by left).
  - destruct (tab_keydown_wraps 37 3 (Some 0) Hlength) as (_ & Hleft & _).
    + intros i [= <-]. lia.
    + by rewrite Hleft by (by left).
Defined.
